(** * libIGES planar segments: [geom_segment.cpp]

    A shallow embedding of [IGES_GEOM_SEGMENT]: construction of lines, arcs
    and circles, the intersection dispatch with its four workers, the
    bounding box and the accessors.

    Numbers.  The C++ [double] is idealised as a real number: no rounding,
    no NaN, no infinities.  [sqrt] and [M_PI] are the Standard Library's
    [sqrt] and [PI]; [abs] on doubles is [Rabs]; [atan2] is defined below
    from [atan].  Comparisons are the decidable order of [R] turned into
    booleans, so that the control flow reads like the source.

    References.  A method that writes through a reference parameter
    ([aIntersectList], [flags], [p0], [p1]) takes the value before the call
    and returns the value after it; [SetParams] takes the segment before the
    call and returns the segment after it. *)

From Stdlib Require Import Reals Lra Lia List Bool ZArith.
Import ListNotations.
Open Scope R_scope.

(** ** Comparisons on doubles *)

Definition Rltb (a b : R) : bool := if Rlt_dec a b then true else false.
Definition Rleb (a b : R) : bool := if Rle_dec a b then true else false.
Definition Rgtb (a b : R) : bool := Rltb b a.
Definition Rgeb (a b : R) : bool := Rleb b a.
Definition Reqb (a b : R) : bool := if Req_dec_T a b then true else false.
Definition Rneqb (a b : R) : bool := negb (Reqb a b).

Declare Scope dbl_scope.
Delimit Scope dbl_scope with dbl.
Infix "<?" := Rltb (at level 70) : dbl_scope.
Infix "<=?" := Rleb (at level 70) : dbl_scope.
Infix ">?" := Rgtb (at level 70) : dbl_scope.
Infix ">=?" := Rgeb (at level 70) : dbl_scope.
Infix "=?" := Reqb (at level 70) : dbl_scope.
Infix "!=?" := Rneqb (at level 70) : dbl_scope.
Open Scope dbl_scope.

(** [atan2 y x] of the C library: the angle of the point [(x, y)], in
    [(-PI, PI]]; the origin is given angle [0]. *)
Definition atan2 (y x : R) : R :=
  if 0 <? x then atan (y / x)
  else if x <? 0 then
    if 0 <=? y then atan (y / x) + PI else atan (y / x) - PI
  else if 0 <? y then PI / 2
  else if y <? 0 then - (PI / 2)
  else 0.

(** ** Data *)

Record IGES_POINT : Type := mkPoint { pt_x : R; pt_y : R; pt_z : R }.

Definition set_x (v : R) (p : IGES_POINT) : IGES_POINT := mkPoint v (pt_y p) (pt_z p).
Definition set_y (v : R) (p : IGES_POINT) : IGES_POINT := mkPoint (pt_x p) v (pt_z p).

(** Modelled from the spec: [PointMatches] lives in [iges_helpers], which is
    not among the sources; the data model gives point equality as
    tolerance-based, [|delta| < eps] on the coordinates. *)
Definition PointMatches (p1 p2 : IGES_POINT) (minres : R) : bool :=
  (Rabs (pt_x p1 - pt_x p2) <? minres)
  && (Rabs (pt_y p1 - pt_y p2) <? minres)
  && (Rabs (pt_z p1 - pt_z p2) <? minres).

(** The four values of [msegtype] ([SEGTYPE_NONE] 0, [SEGTYPE_LINE] 1,
    [SEGTYPE_ARC] 2, [SEGTYPE_CIRCLE] 4). *)
Inductive SEGTYPE : Type :=
  | SEGTYPE_NONE
  | SEGTYPE_LINE
  | SEGTYPE_ARC
  | SEGTYPE_CIRCLE.

Definition SEGTYPE_eqb (a b : SEGTYPE) : bool :=
  match a, b with
  | SEGTYPE_NONE, SEGTYPE_NONE
  | SEGTYPE_LINE, SEGTYPE_LINE
  | SEGTYPE_ARC, SEGTYPE_ARC
  | SEGTYPE_CIRCLE, SEGTYPE_CIRCLE => true
  | _, _ => false
  end.

Inductive IGES_INTERSECT_FLAG : Type :=
  | IGES_IFLAG_NONE
  | IGES_IFLAG_ENCIRCLES
  | IGES_IFLAG_INSIDE
  | IGES_IFLAG_IDENT
  | IGES_IFLAG_TANGENT
  | IGES_IFLAG_EDGE.

(** The member variables of [IGES_GEOM_SEGMENT]. *)
Record IGES_GEOM_SEGMENT : Type := mkSegment {
  msegtype : SEGTYPE;
  mCWArc : bool;
  mradius : R;
  msang : R;
  meang : R;
  mcenter : IGES_POINT;
  mstart : IGES_POINT;
  mend : IGES_POINT
}.

Definition set_msegtype (v : SEGTYPE) (s : IGES_GEOM_SEGMENT) :=
  mkSegment v (mCWArc s) (mradius s) (msang s) (meang s) (mcenter s) (mstart s) (mend s).
Definition set_mCWArc (v : bool) (s : IGES_GEOM_SEGMENT) :=
  mkSegment (msegtype s) v (mradius s) (msang s) (meang s) (mcenter s) (mstart s) (mend s).
Definition set_mradius (v : R) (s : IGES_GEOM_SEGMENT) :=
  mkSegment (msegtype s) (mCWArc s) v (msang s) (meang s) (mcenter s) (mstart s) (mend s).
Definition set_msang (v : R) (s : IGES_GEOM_SEGMENT) :=
  mkSegment (msegtype s) (mCWArc s) (mradius s) v (meang s) (mcenter s) (mstart s) (mend s).
Definition set_meang (v : R) (s : IGES_GEOM_SEGMENT) :=
  mkSegment (msegtype s) (mCWArc s) (mradius s) (msang s) v (mcenter s) (mstart s) (mend s).
Definition set_mcenter (v : IGES_POINT) (s : IGES_GEOM_SEGMENT) :=
  mkSegment (msegtype s) (mCWArc s) (mradius s) (msang s) (meang s) v (mstart s) (mend s).
Definition set_mstart (v : IGES_POINT) (s : IGES_GEOM_SEGMENT) :=
  mkSegment (msegtype s) (mCWArc s) (mradius s) (msang s) (meang s) (mcenter s) v (mend s).
Definition set_mend (v : IGES_POINT) (s : IGES_GEOM_SEGMENT) :=
  mkSegment (msegtype s) (mCWArc s) (mradius s) (msang s) (meang s) (mcenter s) (mstart s) v.

(** ** Construction *)

(** [init]: every member is overwritten, whatever the segment held. *)
Definition init (_ : IGES_GEOM_SEGMENT) : IGES_GEOM_SEGMENT :=
  mkSegment SEGTYPE_NONE false 0 0 0 (mkPoint 0 0 0) (mkPoint 0 0 0) (mkPoint 0 0 0).

(** [SetParams( aStart, aEnd )]: the parameters of a line.  The result is
    the returned flag and the segment after the call. *)
Definition SetParams_line (self : IGES_GEOM_SEGMENT) (aStart aEnd : IGES_POINT)
  : bool * IGES_GEOM_SEGMENT :=
  let s := init self in
  if (0 !=? pt_z aStart) || (0 !=? pt_z aEnd) then (false, s)
  else if PointMatches aStart aEnd 1e-8 then (false, s)
  else
    let s := set_mstart aStart s in
    let s := set_mend aEnd s in
    let s := set_msegtype SEGTYPE_LINE s in
    (true, s).

(** The loop [while( meang < msang ) meang += 2.0 * M_PI;], run for at most
    [n] rounds. *)
Fixpoint wind_up (n : nat) (eang sang : R) : R :=
  match n with
  | O => eang
  | S n' => if eang <? sang then wind_up n' (eang + 2.0 * PI) sang else eang
  end.

(** The number of rounds the loop needs: each round gains [2 PI]. *)
Definition wind_rounds (eang sang : R) : nat :=
  Z.to_nat (up ((sang - eang) / (2.0 * PI))).

Definition wind_eang (eang sang : R) : R :=
  wind_up (wind_rounds eang sang) eang sang.

(** [SetParams( aCenter, aStart, aEnd, isCW )]: the parameters of an arc, or
    of a circle when start and end coincide. *)
Definition SetParams_arc (self : IGES_GEOM_SEGMENT)
    (aCenter aStart aEnd : IGES_POINT) (isCW : bool)
  : bool * IGES_GEOM_SEGMENT :=
  let s := init self in
  if (0 !=? pt_z aCenter) || (0 !=? pt_z aStart) || (0 !=? pt_z aEnd) then (false, s)
  else if PointMatches aCenter aStart 1e-8 || PointMatches aCenter aEnd 1e-8
  then (false, s)
  else
    let dx := pt_x aStart - pt_x aCenter in
    let dy := pt_y aStart - pt_y aCenter in
    let s := set_mradius (sqrt (dx * dx + dy * dy)) s in
    if PointMatches aStart aEnd 1e-8 then
      let s := set_msegtype SEGTYPE_CIRCLE s in
      let s := set_mcenter aCenter s in
      let s := set_mstart (mcenter s) s in
      let s := set_mstart (set_x (pt_x (mstart s) + mradius s) (mstart s)) s in
      let s := set_mend (mstart s) s in
      (true, s)
    else
      let dx := pt_x aEnd - pt_x aCenter in
      let dy := pt_y aEnd - pt_y aCenter in
      let r2 := sqrt (dx * dx + dy * dy) in
      if Rabs (r2 - mradius s) >? 1.0e-3 then
        let s := set_mradius 0 s in
        (false, s)
      else
        let s := set_msang (atan2 (pt_y aStart - pt_y aCenter) (pt_x aStart - pt_x aCenter)) s in
        let s := set_meang (atan2 (pt_y aEnd - pt_y aCenter) (pt_x aEnd - pt_x aCenter)) s in
        let s := if isCW
                 then let x := msang s in
                      let s := set_msang (meang s) s in
                      set_meang x s
                 else s in
        let s := set_meang (wind_eang (meang s) (msang s)) s in
        let s := set_mcenter aCenter s in
        let s := set_mstart aStart s in
        let s := set_mend aEnd s in
        let s := set_mstart aStart s in
        let s := set_mend aEnd s in
        let s := set_msegtype SEGTYPE_ARC s in
        let s := set_mCWArc isCW s in
        (true, s).

(** ** Accessors *)

Definition getSegType (s : IGES_GEOM_SEGMENT) : SEGTYPE := msegtype s.
Definition getRadius (s : IGES_GEOM_SEGMENT) : R := mradius s.
Definition getStartAngle (s : IGES_GEOM_SEGMENT) : R := msang s.
Definition getEndAngle (s : IGES_GEOM_SEGMENT) : R := meang s.
Definition getCWArc (s : IGES_GEOM_SEGMENT) : bool := mCWArc s.
Definition getCenter (s : IGES_GEOM_SEGMENT) : IGES_POINT := mcenter s.

(** [getStart]/[getEnd]: the end points in counterclockwise order. *)
Definition getStart (s : IGES_GEOM_SEGMENT) : IGES_POINT :=
  if mCWArc s then mend s else mstart s.

Definition getEnd (s : IGES_GEOM_SEGMENT) : IGES_POINT :=
  if mCWArc s then mstart s else mend s.

(** ** Local arrays

    The fixed-size local arrays of the workers ([p[2]], [ang[2]], [pt[2]],
    [m[4]]) are total maps from the index; the source never reads or writes
    past the declared bounds. *)

Definition array (A : Type) : Type := nat -> A.

Definition upd {A : Type} (a : array A) (i : nat) (v : A) : array A :=
  fun j => if Nat.eqb j i then v else a j.

(** ** Intersections *)

(** [calcCircleIntercepts]: both results have all three coordinates
    assigned. *)
Definition calcCircleIntercepts (self : IGES_GEOM_SEGMENT) (c2 : IGES_POINT)
    (r2 d : R) : IGES_POINT * IGES_POINT :=
  let rd := (d * d - r2 * r2 + mradius self * mradius self) / (2.0 * d) in
  let dy := pt_y c2 - pt_y (mcenter self) in
  let dx := pt_x c2 - pt_x (mcenter self) in
  let x := rd / d * dx + pt_x (mcenter self) in
  let y := rd / d * dy + pt_y (mcenter self) in
  let h := sqrt (mradius self * mradius self - rd * rd) / d in
  let x0 := x + h * dy in
  let y0 := y + h * dx in
  let x1 := x - h * dy in
  let y1 := y - h * dx in
  let a0 := atan2 (y0 - pt_y (mcenter self)) (x0 - pt_x (mcenter self)) in
  let a1 := atan2 (y1 - pt_y (mcenter self)) (x1 - pt_x (mcenter self)) in
  if ((a0 >=? 0.0) && (a1 >=? 0.0) && (a0 >? a1))
     || ((a0 <? 0.0) && (a1 <? 0.0) && (a0 >? a1))
     || ((a0 <? 0.0) && (a1 >=? 0.0))
  then (mkPoint x1 y1 0.0, mkPoint x0 y0 0.0)
  else (mkPoint x0 y0 0.0, mkPoint x1 y1 0.0).

(** A worker returns its boolean, the intersection list after its
    [push_back]s and the flag after its assignments. *)
Definition outcome : Type := (bool * list IGES_POINT * IGES_INTERSECT_FLAG)%type.

(** [checkCircles]: both segments are circles. *)
Definition checkCircles (self aSegment : IGES_GEOM_SEGMENT)
    (aIntersectList : list IGES_POINT) (flags : IGES_INTERSECT_FLAG) : outcome :=
  let c2 := getCenter aSegment in
  let r2 := getRadius aSegment in
  let dx := pt_x (mcenter self) - pt_x c2 in
  let dy := pt_y (mcenter self) - pt_y c2 in
  let d := sqrt (dx * dx + dy * dy) in
  let two_points :=
    let '(p1, p2) := calcCircleIntercepts self c2 r2 d in
    (true, aIntersectList ++ [p1] ++ [p2], flags) in
  if d >? (mradius self + r2) then (false, aIntersectList, flags)
  else if PointMatches (mcenter self) c2 0.001 && (Rabs (mradius self - r2) <? 0.001)
  then (false, aIntersectList, IGES_IFLAG_IDENT)
  else if Rabs (d - mradius self - r2) <? 0.001
  then (false, aIntersectList, IGES_IFLAG_TANGENT)
  else if (d <? mradius self) || (d <? r2) then
    if d <=? (mradius self - r2) then (false, aIntersectList, IGES_IFLAG_ENCIRCLES)
    else if d <=? (r2 - mradius self) then (false, aIntersectList, IGES_IFLAG_INSIDE)
    else two_points
  else two_points.

(** [checkArcs]: the body opens with [return false;] under the marker
    [XXX - TO BE IMPLEMENTED]; everything after it is unreachable. *)
Definition checkArcs (self aSegment : IGES_GEOM_SEGMENT)
    (aIntersectList : list IGES_POINT) (flags : IGES_INTERSECT_FLAG) : outcome :=
  (false, aIntersectList, flags).

(** [checkLines]: the body is comments and [return false;]. *)
Definition checkLines (self aSegment : IGES_GEOM_SEGMENT)
    (aIntersectList : list IGES_POINT) (flags : IGES_INTERSECT_FLAG) : outcome :=
  (false, aIntersectList, flags).

Section Workers.

(** The value of a default-constructed [IGES_POINT]; the type is declared in
    a header that is not among the sources. *)
Variable pt_default : IGES_POINT.

(** The indeterminate contents of the local [double ang[2]] before it is
    written. *)
Variable ang_uninit : array R.

(** Which participant is the arc, and the data read from both. *)
Record arc_line_params : Type := mkArcLine {
  arcC : IGES_POINT;
  arcS : IGES_POINT;
  arcE : IGES_POINT;
  arcR : R;
  arcSAng : R;
  arcEAng : R;
  arcCircle : bool;
  lS : IGES_POINT;
  lE : IGES_POINT
}.

Definition arc_line_read (self aSegment : IGES_GEOM_SEGMENT) : arc_line_params :=
  if SEGTYPE_eqb SEGTYPE_ARC (msegtype self) || SEGTYPE_eqb SEGTYPE_CIRCLE (msegtype self)
  then
    let circ := SEGTYPE_eqb SEGTYPE_CIRCLE (msegtype self) in
    mkArcLine (mcenter self) (mstart self) (mend self) (mradius self)
      (if circ then 0.0 else getStartAngle self)
      (if circ then 0.0 else getEndAngle self)
      circ (getStart aSegment) (getEnd aSegment)
  else
    let circ := SEGTYPE_eqb SEGTYPE_CIRCLE (getSegType aSegment) in
    mkArcLine (getCenter aSegment) (getStart aSegment) (getEnd aSegment)
      (getRadius aSegment)
      (if circ then 0.0 else getStartAngle aSegment)
      (if circ then 0.0 else getEndAngle aSegment)
      circ (getStart self) (getEnd self).

(** The coefficients of [A t^2 + B t + C = 0] and the discriminant. *)
Definition quad_A (q : arc_line_params) : R :=
  let a0 := pt_x (lS q) * pt_x (lS q) - 2.0 * pt_x (lS q) * pt_x (lE q) + pt_x (lE q) * pt_x (lE q) in
  let a1 := pt_y (lS q) * pt_y (lS q) - 2.0 * pt_y (lS q) * pt_y (lE q) + pt_y (lE q) * pt_y (lE q) in
  a0 + a1.

Definition quad_B (q : arc_line_params) : R :=
  let b0 := 2.0 * (pt_x (arcC q) * pt_x (lE q) - pt_x (arcC q) * pt_x (lS q)
                   + pt_x (lS q) * pt_x (lE q) - pt_x (lE q) * pt_x (lE q)) in
  let b1 := 2.0 * (pt_y (arcC q) * pt_y (lE q) - pt_y (arcC q) * pt_y (lS q)
                   + pt_y (lS q) * pt_y (lE q) - pt_y (lE q) * pt_y (lE q)) in
  b0 + b1.

Definition quad_C (q : arc_line_params) : R :=
  let c0 := pt_x (arcC q) * pt_x (arcC q) - 2.0 * pt_x (arcC q) * pt_x (lE q) + pt_x (lE q) * pt_x (lE q) in
  let c1 := pt_y (arcC q) * pt_y (arcC q) - 2.0 * pt_y (arcC q) * pt_y (lE q) + pt_y (lE q) * pt_y (lE q) in
  c0 + c1 - arcR q * arcR q.

Definition quad_D (q : arc_line_params) : R :=
  quad_B q * quad_B q - 4.0 * quad_A q * quad_C q.

(** The point of the line at parameter [t], written into the [x] and [y]
    of an array slot. *)
Definition line_at (q : arc_line_params) (t : R) (slot : IGES_POINT) : IGES_POINT :=
  set_y (t * pt_y (lS q) + (1.0 - t) * pt_y (lE q))
    (set_x (t * pt_x (lS q) + (1.0 - t) * pt_x (lE q)) slot).

(** The roots kept: [p] and [np] after the two tests on [t0] and [t1]. *)
Definition kept_roots (q : arc_line_params) : array IGES_POINT * nat :=
  let D := quad_D q in
  let t0 := (- quad_B q + sqrt D) / (2.0 * quad_A q) in
  let t1 := (- quad_B q - sqrt D) / (2.0 * quad_A q) in
  let p : array IGES_POINT := fun _ => pt_default in
  let np := 0%nat in
  let '(p, np) :=
    if (t0 >=? 0.0) && (t0 <=? 1.0)
    then (upd p 0 (line_at q t0 (p 0%nat)), S np)
    else (p, np) in
  if (t1 >=? 0.0) && (t1 <=? 1.0)
  then (upd p np (line_at q t1 (p np)), S np)
  else (p, np).

(** [for( int i = 0; i < np; ++i ) ang[i] = atan2( ... );] *)
Definition fill_ang (q : arc_line_params) (p : array IGES_POINT) (np : nat) : array R :=
  fold_left
    (fun ang i => upd ang i (atan2 (pt_y (p i) - pt_y (arcC q)) (pt_x (p i) - pt_x (arcC q))))
    (seq 0 np) ang_uninit.

(** The test that an angle lies on the arc. *)
Definition on_arc (q : arc_line_params) (a : R) : bool :=
  ((a >=? arcSAng q) && (a <=? arcEAng q))
  || (((a + 2.0 * PI) >=? arcSAng q) && ((a + 2.0 * PI) <=? arcEAng q)).

(** The filtering loop: [pt[i] = p[i]; ++np2;] for each [i < np] on the arc. *)
Definition filter_arc (q : arc_line_params) (p : array IGES_POINT) (ang : array R)
    (np : nat) : array IGES_POINT * nat :=
  fold_left
    (fun '(pt, np2) i => if on_arc q (ang i) then (upd pt i (p i), S np2) else (pt, np2))
    (seq 0 np) ((fun _ => pt_default) : array IGES_POINT, 0%nat).

(** [checkArcLine]: one segment is an arc or circle, the other a line. *)
Definition checkArcLine (self aSegment : IGES_GEOM_SEGMENT)
    (aIntersectList : list IGES_POINT) (flags : IGES_INTERSECT_FLAG) : outcome :=
  let flags := IGES_IFLAG_NONE in
  let q := arc_line_read self aSegment in
  let D := quad_D q in
  if Rabs D <? 0.001 then (false, aIntersectList, IGES_IFLAG_TANGENT)
  else if D <? 0 then (false, aIntersectList, flags)
  else
    let '(p, np) := kept_roots q in
    let ang := fill_ang q p np in
    if arcCircle q then
      if Nat.eqb 1 np then (true, aIntersectList ++ [p 0%nat], flags)
      else
        let swap :=
          if ang 0%nat >=? 0.0
          then (ang 1%nat >=? 0.0) && (ang 1%nat <? ang 0%nat)
          else (ang 1%nat >=? 0.0) || (ang 1%nat <? ang 0%nat) in
        if swap
        then (true, aIntersectList ++ [p 1%nat] ++ [p 0%nat], flags)
        else (true, aIntersectList ++ [p 0%nat] ++ [p 1%nat], flags)
    else
      let '(pt, np2) := filter_arc q p ang np in
      if Nat.eqb 0 np2 then (false, aIntersectList, flags)
      else if Nat.eqb 1 np2 then (true, aIntersectList ++ [pt 0%nat], flags)
      else
        let ang := if ang 0%nat <? arcSAng q
                   then upd ang 0 (ang 0%nat + 2.0 * PI) else ang in
        let ang := if ang 1%nat <? arcSAng q
                   then upd ang 1 (ang 1%nat + 2.0 * PI) else ang in
        if ang 1%nat >? ang 0%nat
        then (true, aIntersectList ++ [pt 0%nat] ++ [pt 1%nat], flags)
        else (true, aIntersectList ++ [pt 1%nat] ++ [pt 0%nat], flags).

(** [GetIntersections]: the flag is reset, empty segments are refused, and
    the pair of kinds selects the worker. *)
Definition GetIntersections (self aSegment : IGES_GEOM_SEGMENT)
    (aIntersectList : list IGES_POINT) (flags : IGES_INTERSECT_FLAG) : outcome :=
  let flags := IGES_IFLAG_NONE in
  if SEGTYPE_eqb SEGTYPE_NONE (msegtype self) then (false, aIntersectList, flags)
  else
    let oSegType := getSegType aSegment in
    if SEGTYPE_eqb SEGTYPE_NONE oSegType then (false, aIntersectList, flags)
    else if SEGTYPE_eqb SEGTYPE_CIRCLE (msegtype self) then
      if SEGTYPE_eqb SEGTYPE_CIRCLE oSegType
      then checkCircles self aSegment aIntersectList flags
      else if SEGTYPE_eqb SEGTYPE_ARC oSegType
      then checkArcs self aSegment aIntersectList flags
      else checkArcLine self aSegment aIntersectList flags
    else if SEGTYPE_eqb SEGTYPE_ARC (msegtype self) then
      if SEGTYPE_eqb SEGTYPE_LINE oSegType
      then checkArcLine self aSegment aIntersectList flags
      else checkArcs self aSegment aIntersectList flags
    else if SEGTYPE_eqb SEGTYPE_LINE oSegType
    then checkLines self aSegment aIntersectList flags
    else checkArcLine self aSegment aIntersectList flags.

(** ** Bounding box *)

(** The extrema collected for an arc: [m] and [ne] after the four tests. *)
Definition arc_extrema (self : IGES_GEOM_SEGMENT) : array IGES_POINT * nat :=
  let aS := getStartAngle self in
  let aE := getEndAngle self in
  let m : array IGES_POINT := fun _ => pt_default in
  let ne := 0%nat in
  let '(m, ne) :=
    if ((0.0 >=? aS) && (0.0 <=? aE)) || ((2.0 * PI >=? aS) && (2.0 * PI <=? aE))
    then (upd m 0 (set_y (pt_y (mcenter self))
                    (set_x (pt_x (mcenter self) + mradius self) (m 0%nat))), S ne)
    else (m, ne) in
  let '(m, ne) :=
    if ((PI * 0.5 >=? aS) && (PI * 0.5 <=? aE)) || ((2.5 * PI >=? aS) && (2.5 * PI <=? aE))
    then (upd m ne (set_y (pt_y (mcenter self) + mradius self)
                     (set_x (pt_x (mcenter self)) (m ne))), S ne)
    else (m, ne) in
  let '(m, ne) :=
    if (PI >=? aS) && (PI <=? aE)
    then (upd m ne (set_y (pt_y (mcenter self) + mradius self)
                     (set_x (pt_x (mcenter self)) (m ne))), S ne)
    else (m, ne) in
  if ((-0.5 * PI >=? aS) && (-0.5 * PI <=? aE)) || ((1.5 * PI >=? aS) && (1.5 * PI <=? aE))
  then (upd m ne (set_y (pt_y (mcenter self) + mradius self)
                   (set_x (pt_x (mcenter self)) (m ne))), S ne)
  else (m, ne).

(** One round of the loop over the extrema. *)
Definition widen (mi : IGES_POINT) (b : IGES_POINT * IGES_POINT) : IGES_POINT * IGES_POINT :=
  let '(p0, p1) := b in
  let p0 := if pt_x mi <? pt_x p0 then set_x (pt_x mi) p0 else p0 in
  let p1 := if pt_x mi >? pt_x p1 then set_x (pt_x mi) p1 else p1 in
  let p0 := if pt_y mi >? pt_y p0 then set_y (pt_y mi) p0 else p0 in
  let p1 := if pt_y mi <? pt_y p1 then set_y (pt_y mi) p1 else p1 in
  (p0, p1).

(** [GetBoundingBox( p0, p1 )]: [p0] and [p1] are the caller's points,
    passed by reference; the result is the returned flag and both points
    after the call. *)
Definition GetBoundingBox (self : IGES_GEOM_SEGMENT) (p0 p1 : IGES_POINT)
  : bool * IGES_POINT * IGES_POINT :=
  if SEGTYPE_eqb SEGTYPE_NONE (msegtype self) then (false, p0, p1)
  else if SEGTYPE_eqb SEGTYPE_LINE (msegtype self) then
    if Rabs (pt_x (mstart self) - pt_x (mend self)) <? 1e-8 then
      if pt_y (mstart self) >? pt_y (mend self)
      then (true, mstart self, mend self)
      else (true, mend self, mstart self)
    else
      let '(p0, p1) :=
        if pt_x (mstart self) <? pt_x (mend self)
        then (set_x (pt_x (mstart self)) p0, set_x (pt_x (mend self)) p1)
        else (set_x (pt_x (mend self)) p0, set_x (pt_x (mstart self)) p1) in
      let '(p0, p1) :=
        if pt_y (mstart self) >=? pt_y (mend self)
        then (set_y (pt_y (mstart self)) p0, set_y (pt_y (mend self)) p1)
        else (set_y (pt_y (mend self)) p0, set_y (pt_y (mstart self)) p1) in
      (true, p0, p1)
  else if SEGTYPE_eqb SEGTYPE_CIRCLE (msegtype self) then
    let p0 := set_x (pt_x (mcenter self) - mradius self) p0 in
    let p1 := set_x (pt_x (mcenter self) + mradius self) p1 in
    let p0 := set_y (pt_y (mcenter self) + mradius self) p0 in
    let p1 := set_y (pt_y (mcenter self) - mradius self) p1 in
    (true, p0, p1)
  else
    let '(m, ne) := arc_extrema self in
    let p0 := if pt_x (mstart self) <? pt_x (mend self)
              then set_x (pt_x (mstart self)) p0
              else set_x (pt_x (mend self)) p0 in
    let p0 := if pt_y (mstart self) >? pt_y (mend self)
              then set_y (pt_y (mstart self)) p0
              else set_y (pt_y (mend self)) p0 in
    let '(p0, p1) := fold_left (fun b i => widen (m i) b) (seq 0 ne) (p0, p1) in
    (true, p0, p1).

End Workers.

(** ** The two overloads of [SetParams] as one call *)

Inductive SetParams_args : Type :=
  | LineArgs (aStart aEnd : IGES_POINT)
  | ArcArgs (aCenter aStart aEnd : IGES_POINT) (isCW : bool).

Definition SetParams (self : IGES_GEOM_SEGMENT) (args : SetParams_args)
  : bool * IGES_GEOM_SEGMENT :=
  match args with
  | LineArgs aStart aEnd => SetParams_line self aStart aEnd
  | ArcArgs aCenter aStart aEnd isCW => SetParams_arc self aCenter aStart aEnd isCW
  end.

(** The unset state: kind [SEGTYPE_NONE], radius and angles [0], every
    point at the origin. *)
Definition unset : IGES_GEOM_SEGMENT :=
  mkSegment SEGTYPE_NONE false 0 0 0 (mkPoint 0 0 0) (mkPoint 0 0 0) (mkPoint 0 0 0).

(** The angle of a point as seen from a centre. *)
Definition angle_from (c p : IGES_POINT) : R :=
  atan2 (pt_y p - pt_y c) (pt_x p - pt_x c).

(** The distance of two points in the plane. *)
Definition dist2d (p q : IGES_POINT) : R :=
  sqrt ((pt_x p - pt_x q) * (pt_x p - pt_x q) + (pt_y p - pt_y q) * (pt_y p - pt_y q)).

(** ** Concrete segments

    The inputs of the scenarios and of the examples below.  Each segment is
    what the constructor leaves behind when called on an unset segment. *)

Definition pt (x y : R) : IGES_POINT := mkPoint x y 0.

Definition circle_at (c : IGES_POINT) (r : R) : IGES_GEOM_SEGMENT :=
  snd (SetParams_arc unset c (set_x (pt_x c + r) c) (set_x (pt_x c + r) c) false).

Definition arc_of (c a b : IGES_POINT) (cw : bool) : IGES_GEOM_SEGMENT :=
  snd (SetParams_arc unset c a b cw).

Definition line_of (a b : IGES_POINT) : IGES_GEOM_SEGMENT :=
  snd (SetParams_line unset a b).

(** A segment is constructed when some call of [SetParams] returned [true]
    and left it behind. *)
Definition constructed (s : IGES_GEOM_SEGMENT) : Prop :=
  exists (self : IGES_GEOM_SEGMENT) (args : SetParams_args),
    SetParams self args = (true, s).

(** The test of [checkCircles] for identical circles. *)
Definition circles_coincide (s1 s2 : IGES_GEOM_SEGMENT) : Prop :=
  PointMatches (mcenter s1) (mcenter s2) 0.001 = true
  /\ Rabs (mradius s1 - mradius s2) < 0.001.

(** The flag of an outcome. *)
Definition out_flag (o : outcome) : IGES_INTERSECT_FLAG := snd o.

(** ** Vocabulary of the further properties *)

(** The returned boolean and the list of an outcome. *)
Definition out_ok (o : outcome) : bool := fst (fst o).
Definition out_points (o : outcome) : list IGES_POINT := snd (fst o).

(** An angle of [(-PI, PI]] brought to [[0, 2 PI)]. *)
Definition norm_angle (a : R) : R := if a <? 0 then a + 2 * PI else a.

(** The flag seen from the other segment: the two containment flags trade
    places. *)
Definition mirror_flag (f : IGES_INTERSECT_FLAG) : IGES_INTERSECT_FLAG :=
  match f with
  | IGES_IFLAG_ENCIRCLES => IGES_IFLAG_INSIDE
  | IGES_IFLAG_INSIDE => IGES_IFLAG_ENCIRCLES
  | _ => f
  end.

(** A point lies on the circle of centre [c] and radius [r]. *)
Definition on_circle (c : IGES_POINT) (r : R) (p : IGES_POINT) : Prop :=
  dist2d p c = r.

(** A point lies, in the plane, on the segment from [a] to [b]. *)
Definition on_segment (a b p : IGES_POINT) : Prop :=
  exists t : R, 0 <= t <= 1
    /\ pt_x p = t * pt_x a + (1 - t) * pt_x b
    /\ pt_y p = t * pt_y a + (1 - t) * pt_y b.

(** What every call of [GetIntersections] does to the caller's list [l]: it
    appends at most two points, it returns [true] exactly when it appended
    some, a flag other than None comes with failure, and the flag is never
    EdgeOverlap. *)
Definition extends_by (l : list IGES_POINT) (o : outcome) : Prop :=
  exists added : list IGES_POINT,
    out_points o = l ++ added
    /\ (length added <= 2)%nat
    /\ (out_ok o = true <-> added <> [])
    /\ (out_flag o <> IGES_IFLAG_NONE -> out_ok o = false)
    /\ out_flag o <> IGES_IFLAG_EDGE.

(** An angle as [checkArcLine] orders it along an arc: a full turn is added
    to an angle below the arc's start angle. *)
Definition wind_from (sang a : R) : R := if a <? sang then a + 2.0 * PI else a.

(** * Properties *)

(** ** Comparisons *)

Lemma Rltb_spec (a b : R) : reflect (a < b) (a <? b).
Proof. unfold Rltb. destruct (Rlt_dec a b); constructor; assumption. Qed.

Lemma Rleb_spec (a b : R) : reflect (a <= b) (a <=? b).
Proof. unfold Rleb. destruct (Rle_dec a b); constructor; assumption. Qed.

Lemma Rgtb_spec (a b : R) : reflect (a > b) (a >? b).
Proof. unfold Rgtb. apply Rltb_spec. Qed.

Lemma Rgeb_spec (a b : R) : reflect (b <= a) (a >=? b).
Proof. unfold Rgeb. apply Rleb_spec. Qed.

Lemma Reqb_spec (a b : R) : reflect (a = b) (a =? b).
Proof. unfold Reqb. destruct (Req_dec_T a b); constructor; assumption. Qed.

Lemma Rneqb_spec (a b : R) : reflect (a <> b) (a !=? b).
Proof. unfold Rneqb. destruct (Reqb_spec a b); constructor; auto. Qed.

(** Case analysis on every comparison in sight. *)
Ltac cmp_cases :=
  repeat match goal with
    | |- context [?a <? ?b] => destruct (Rltb_spec a b)
    | |- context [?a <=? ?b] => destruct (Rleb_spec a b)
    | |- context [?a >? ?b] => destruct (Rgtb_spec a b)
    | |- context [?a >=? ?b] => destruct (Rgeb_spec a b)
    | |- context [?a =? ?b] => destruct (Reqb_spec a b)
    | |- context [?a !=? ?b] => destruct (Rneqb_spec a b)
    end.

Lemma PointMatches_true_iff (p q : IGES_POINT) (eps : R) :
  PointMatches p q eps = true <->
  Rabs (pt_x p - pt_x q) < eps /\ Rabs (pt_y p - pt_y q) < eps
  /\ Rabs (pt_z p - pt_z q) < eps.
Proof.
  unfold PointMatches. rewrite !andb_true_iff.
  split.
  - intros [[H1 H2] H3].
    destruct (Rltb_spec (Rabs (pt_x p - pt_x q)) eps); [|discriminate].
    destruct (Rltb_spec (Rabs (pt_y p - pt_y q)) eps); [|discriminate].
    destruct (Rltb_spec (Rabs (pt_z p - pt_z q)) eps); [|discriminate].
    auto.
  - intros (H1 & H2 & H3).
    destruct (Rltb_spec (Rabs (pt_x p - pt_x q)) eps); [|contradiction].
    destruct (Rltb_spec (Rabs (pt_y p - pt_y q)) eps); [|contradiction].
    destruct (Rltb_spec (Rabs (pt_z p - pt_z q)) eps); [|contradiction].
    auto.
Qed.

Lemma PointMatches_refl (p : IGES_POINT) (eps : R) :
  0 < eps -> PointMatches p p eps = true.
Proof.
  intros He. apply PointMatches_true_iff.
  replace (pt_x p - pt_x p) with 0 by ring.
  replace (pt_y p - pt_y p) with 0 by ring.
  replace (pt_z p - pt_z p) with 0 by ring.
  rewrite Rabs_R0. auto.
Qed.

(** ** The winding loop *)

Lemma wind_up_exit (n : nat) : forall eang sang,
  sang - eang <= INR n * (2.0 * PI) -> ~ wind_up n eang sang < sang.
Proof.
  induction n as [|n IH]; intros eang sang Hn.
  - simpl in *. lra.
  - cbn [wind_up]. destruct (Rltb_spec eang sang) as [Hlt|Hge].
    + apply IH. rewrite S_INR in Hn. lra.
    + exact Hge.
Qed.

Lemma wind_rounds_enough (eang sang : R) :
  sang - eang <= INR (wind_rounds eang sang) * (2.0 * PI).
Proof.
  unfold wind_rounds.
  pose proof PI_RGT_0 as Hpi.
  set (x := (sang - eang) / (2.0 * PI)).
  assert (Hx : sang - eang = x * (2.0 * PI)) by (unfold x; field; lra).
  destruct (archimed x) as [Hup _].
  destruct (Z_lt_le_dec 0 (up x)) as [Hpos|Hneg].
  - rewrite INR_IZR_INZ, Z2Nat.id by lia. rewrite Hx. nra.
  - assert (IZR (up x) <= 0) by (apply (IZR_le _ 0); exact Hneg).
    replace (Z.to_nat (up x)) with O by lia. simpl. rewrite Hx. nra.
Qed.

(** The loop is left with the end angle at or past the start angle. *)
Lemma wind_eang_exit (eang sang : R) : sang <= wind_eang eang sang.
Proof.
  apply Rnot_lt_le. apply wind_up_exit. apply wind_rounds_enough.
Qed.

(** Once the loop has left, further rounds change nothing: [wind_eang] is
    the value the loop ends with. *)
Lemma wind_up_stable (n : nat) : forall (m : nat) (eang sang : R),
  sang - eang <= INR n * (2.0 * PI) ->
  wind_up (n + m) eang sang = wind_up n eang sang.
Proof.
  induction n as [|n IH]; intros m eang sang Hn.
  - cbn [Nat.add wind_up]. simpl in Hn.
    destruct m as [|m]; [reflexivity|].
    cbn [wind_up]. destruct (Rltb_spec eang sang); [lra|reflexivity].
  - cbn [Nat.add wind_up]. destruct (Rltb_spec eang sang).
    + apply IH. rewrite S_INR in Hn. lra.
    + reflexivity.
Qed.

(** The loop only ever adds whole turns. *)
Lemma wind_up_turns (n : nat) : forall eang sang,
  exists k : nat, wind_up n eang sang = eang + INR k * (2.0 * PI).
Proof.
  induction n as [|n IH]; intros eang sang.
  - exists O. simpl. ring.
  - cbn [wind_up]. destruct (Rltb_spec eang sang).
    + destruct (IH (eang + 2.0 * PI) sang) as [k Hk].
      exists (S k). rewrite Hk, S_INR. ring.
    + exists O. simpl. ring.
Qed.

(** ** Construction *)

(** C9: whenever either overload of [SetParams] returns [false] the segment
    is left unset (kind [SEGTYPE_NONE], radius and angles 0, all points at
    the origin), whatever it held before the call. *)
Theorem SetParams_failure_unsets (self : IGES_GEOM_SEGMENT) (args : SetParams_args) :
  fst (SetParams self args) = false ->
  snd (SetParams self args) = unset
  /\ msegtype (snd (SetParams self args)) = SEGTYPE_NONE
  /\ mradius (snd (SetParams self args)) = 0
  /\ mcenter (snd (SetParams self args)) = mkPoint 0 0 0
  /\ mstart (snd (SetParams self args)) = mkPoint 0 0 0
  /\ mend (snd (SetParams self args)) = mkPoint 0 0 0.
Proof.
  intros Hfail.
  assert (Hu : snd (SetParams self args) = unset).
  { destruct args as [aStart aEnd | aCenter aStart aEnd isCW];
      cbn [SetParams] in *.
    - unfold SetParams_line in *.
      destruct (_ || _); [reflexivity|].
      destruct (PointMatches aStart aEnd 1e-8); [reflexivity|].
      discriminate Hfail.
    - unfold SetParams_arc in *.
      destruct (_ || _ || _); [reflexivity|].
      destruct (PointMatches aCenter aStart 1e-8 || PointMatches aCenter aEnd 1e-8);
        [reflexivity|].
      destruct (PointMatches aStart aEnd 1e-8); [discriminate Hfail|].
      match goal with |- context [?a >? ?b] => destruct (a >? b) end;
        [reflexivity | discriminate Hfail]. }
  rewrite Hu. repeat split; reflexivity.
Qed.

Lemma Rneqb_true_iff (a b : R) : (a !=? b) = true <-> a <> b.
Proof. destruct (Rneqb_spec a b); split; intros; auto; discriminate || contradiction. Qed.

(** The line overload fails exactly on a non-zero z or on matching ends. *)
Lemma SetParams_line_fails_iff (self : IGES_GEOM_SEGMENT) (aStart aEnd : IGES_POINT) :
  fst (SetParams_line self aStart aEnd) = false <->
  0 <> pt_z aStart \/ 0 <> pt_z aEnd \/ PointMatches aStart aEnd 1e-8 = true.
Proof.
  unfold SetParams_line.
  destruct (Rneqb_spec 0 (pt_z aStart)) as [Hs|Hs]; cbn [orb fst].
  { tauto. }
  destruct (Rneqb_spec 0 (pt_z aEnd)) as [He|He]; cbn [fst].
  { tauto. }
  destruct (PointMatches aStart aEnd 1e-8); cbn [fst].
  - tauto.
  - split; [discriminate|]. intros [H|[H|H]]; [contradiction | contradiction | discriminate].
Qed.

(** The arc overload fails exactly on a non-zero z, on an end matching the
    centre, or on distinct ends whose radii differ by more than 1e-3. *)
Lemma SetParams_arc_fails_iff
    (self : IGES_GEOM_SEGMENT) (aCenter aStart aEnd : IGES_POINT) (isCW : bool) :
  fst (SetParams_arc self aCenter aStart aEnd isCW) = false <->
  0 <> pt_z aCenter \/ 0 <> pt_z aStart \/ 0 <> pt_z aEnd
  \/ PointMatches aCenter aStart 1e-8 = true
  \/ PointMatches aCenter aEnd 1e-8 = true
  \/ (PointMatches aStart aEnd 1e-8 = false
      /\ Rabs (dist2d aEnd aCenter - dist2d aStart aCenter) > 1.0e-3).
Proof.
  unfold SetParams_arc.
  destruct (Rneqb_spec 0 (pt_z aCenter)) as [Hc|Hc]; cbn [orb fst]; [tauto|].
  destruct (Rneqb_spec 0 (pt_z aStart)) as [Hs|Hs]; cbn [orb fst]; [tauto|].
  destruct (Rneqb_spec 0 (pt_z aEnd)) as [He|He]; cbn [orb fst]; [tauto|].
  destruct (PointMatches aCenter aStart 1e-8); cbn [orb fst]; [tauto|].
  destruct (PointMatches aCenter aEnd 1e-8); cbn [orb fst]; [tauto|].
  cbn [mradius set_mradius init].
  fold (dist2d aEnd aCenter). fold (dist2d aStart aCenter).
  destruct (PointMatches aStart aEnd 1e-8); cbn [fst].
  - split; [discriminate|].
    intros [H|[H|[H|[H|[H|[H _]]]]]]; try contradiction; discriminate.
  - destruct (Rgtb_spec (Rabs (dist2d aEnd aCenter - dist2d aStart aCenter)) 1.0e-3)
      as [Hgt|Hle]; cbn [fst].
    + tauto.
    + split; [discriminate|].
      intros [H|[H|[H|[H|[H|[_ H]]]]]]; try contradiction; try discriminate.
Qed.

(** C7: the arc overload of [SetParams], given planar points with the centre
    distinct from both ends and the ends matching within 1e-8, succeeds and
    makes a circle of radius |start - center| whose stored start and end are
    both center + (radius, 0, 0). *)
Theorem SetParams_arc_closed_is_circle
    (self : IGES_GEOM_SEGMENT) (aCenter aStart aEnd : IGES_POINT) (isCW : bool) :
  pt_z aCenter = 0 -> pt_z aStart = 0 -> pt_z aEnd = 0 ->
  PointMatches aCenter aStart 1e-8 = false ->
  PointMatches aCenter aEnd 1e-8 = false ->
  PointMatches aStart aEnd 1e-8 = true ->
  exists s : IGES_GEOM_SEGMENT,
    SetParams_arc self aCenter aStart aEnd isCW = (true, s)
    /\ msegtype s = SEGTYPE_CIRCLE
    /\ mcenter s = aCenter
    /\ mradius s = dist2d aStart aCenter
    /\ mstart s = mkPoint (pt_x aCenter + mradius s) (pt_y aCenter) 0
    /\ mend s = mkPoint (pt_x aCenter + mradius s) (pt_y aCenter) 0.
Proof.
  intros Hzc Hzs Hze Hcs Hce Hse.
  unfold SetParams_arc. rewrite Hzc, Hzs, Hze, Hcs, Hce, Hse.
  destruct (Rneqb_spec 0 0) as [Hne|_]; [exfalso; apply Hne; reflexivity|].
  cbn [orb]. eexists. split; [reflexivity|].
  cbn. unfold set_x. rewrite Hzc. repeat split; reflexivity.
Qed.

(** C10: on an arc built by [SetParams], the stored points are the ones
    given, [getStart]/[getEnd] return them swapped exactly when the arc was
    given as clockwise, and the pair so returned is in counterclockwise
    order: the start angle is the angle of [getStart], the end angle is the
    angle of [getEnd] plus whole turns, and it is not below the start
    angle. *)
Theorem getStart_getEnd_ccw
    (self s : IGES_GEOM_SEGMENT) (aCenter aStart aEnd : IGES_POINT) (isCW : bool) :
  SetParams_arc self aCenter aStart aEnd isCW = (true, s) ->
  msegtype s = SEGTYPE_ARC ->
  mstart s = aStart /\ mend s = aEnd /\ mCWArc s = isCW
  /\ getStart s = (if isCW then mend s else mstart s)
  /\ getEnd s = (if isCW then mstart s else mend s)
  /\ getStartAngle s = angle_from (getCenter s) (getStart s)
  /\ (exists k : nat,
        getEndAngle s = angle_from (getCenter s) (getEnd s) + INR k * (2.0 * PI))
  /\ getStartAngle s <= getEndAngle s.
Proof.
  unfold SetParams_arc.
  destruct (_ || _ || _); [discriminate|].
  destruct (PointMatches aCenter aStart 1e-8 || PointMatches aCenter aEnd 1e-8);
    [discriminate|].
  destruct (PointMatches aStart aEnd 1e-8).
  { intros H; inversion H; subst s. cbn. discriminate. }
  match goal with |- context [?a >? ?b] => destruct (a >? b) end; [discriminate|].
  intros H _. inversion H; subst s; clear H.
  unfold getStart, getEnd, getStartAngle, getEndAngle, getCenter, angle_from.
  destruct isCW; cbn; repeat split; try reflexivity;
    try apply wind_up_turns; apply wind_eang_exit.
Qed.

(** ** Evaluating the constructors *)

(** Decide a closed comparison of doubles. *)
Ltac dbl_decide :=
  unfold PointMatches; cbn [pt_x pt_y pt_z set_x set_y pt];
  cmp_cases; cbn [andb orb negb]; try reflexivity;
  exfalso; try split_Rabs; lra.

Lemma sqrt_sq (a b : R) : 0 <= b -> a = b * b -> sqrt a = b.
Proof. intros Hb ->. apply sqrt_square. exact Hb. Qed.

(** A successful construction of a circle, in closed form. *)
Lemma SetParams_arc_circle_eq
    (self : IGES_GEOM_SEGMENT) (aCenter aStart aEnd : IGES_POINT) (isCW : bool) :
  pt_z aCenter = 0 -> pt_z aStart = 0 -> pt_z aEnd = 0 ->
  PointMatches aCenter aStart 1e-8 = false ->
  PointMatches aCenter aEnd 1e-8 = false ->
  PointMatches aStart aEnd 1e-8 = true ->
  SetParams_arc self aCenter aStart aEnd isCW =
  (true, mkSegment SEGTYPE_CIRCLE false (dist2d aStart aCenter) 0 0 aCenter
           (mkPoint (pt_x aCenter + dist2d aStart aCenter) (pt_y aCenter) 0)
           (mkPoint (pt_x aCenter + dist2d aStart aCenter) (pt_y aCenter) 0)).
Proof.
  intros Hzc Hzs Hze Hcs Hce Hse.
  unfold SetParams_arc. rewrite Hzc, Hzs, Hze, Hcs, Hce, Hse.
  destruct (Rneqb_spec 0 0) as [Hne|_]; [exfalso; apply Hne; reflexivity|].
  cbn. unfold set_x. rewrite Hzc. reflexivity.
Qed.

(** [circle_at c r] is the circle of centre [c] and radius [r]. *)
Lemma circle_at_eq (cx cy r : R) :
  1e-8 <= r ->
  circle_at (pt cx cy) r =
  mkSegment SEGTYPE_CIRCLE false r 0 0 (pt cx cy) (pt (cx + r) cy) (pt (cx + r) cy).
Proof.
  intros Hr. unfold circle_at.
  assert (Hd : dist2d (set_x (pt_x (pt cx cy) + r) (pt cx cy)) (pt cx cy) = r).
  { unfold dist2d. cbn [pt pt_x pt_y set_x]. apply sqrt_sq; [lra|ring]. }
  rewrite SetParams_arc_circle_eq; cbn [snd]; try reflexivity.
  - rewrite Hd. reflexivity.
  - dbl_decide.
  - dbl_decide.
  - dbl_decide.
Qed.

(** Rewrite a square root whose argument is the square of [v]. *)
Ltac sqrt_to v :=
  match goal with
  | |- context [sqrt ?e] => rewrite (sqrt_sq e v) by lra
  end.

(** A successful construction of an arc, in closed form. *)
Lemma SetParams_arc_arc_eq
    (self : IGES_GEOM_SEGMENT) (aCenter aStart aEnd : IGES_POINT) (isCW : bool) :
  pt_z aCenter = 0 -> pt_z aStart = 0 -> pt_z aEnd = 0 ->
  PointMatches aCenter aStart 1e-8 = false ->
  PointMatches aCenter aEnd 1e-8 = false ->
  PointMatches aStart aEnd 1e-8 = false ->
  Rabs (dist2d aEnd aCenter - dist2d aStart aCenter) <= 1.0e-3 ->
  SetParams_arc self aCenter aStart aEnd isCW =
  (true,
   let sang := if isCW then angle_from aCenter aEnd else angle_from aCenter aStart in
   let eang := if isCW then angle_from aCenter aStart else angle_from aCenter aEnd in
   mkSegment SEGTYPE_ARC isCW (dist2d aStart aCenter) sang (wind_eang eang sang)
     aCenter aStart aEnd).
Proof.
  intros Hzc Hzs Hze Hcs Hce Hse Hr.
  unfold SetParams_arc. rewrite Hzc, Hzs, Hze, Hcs, Hce, Hse.
  destruct (Rneqb_spec 0 0) as [Hne|_]; [exfalso; apply Hne; reflexivity|].
  cbn [orb]. cbn [mradius set_mradius init].
  fold (dist2d aEnd aCenter). fold (dist2d aStart aCenter).
  destruct (Rgtb_spec (Rabs (dist2d aEnd aCenter - dist2d aStart aCenter)) 1.0e-3)
    as [Hgt|_]; [lra|].
  unfold angle_from. destruct isCW; reflexivity.
Qed.

(** C9 at a segment that holds a circle and is given an arc whose two radii
    are 5 and 7. *)
Lemma SetParams_failure_unsets_witness :
  let held := circle_at (pt 1 1) 3 in
  let res := SetParams held (ArcArgs (pt 0 0) (pt 5 0) (pt 0 7) false) in
  snd res = unset
  /\ msegtype (snd res) = SEGTYPE_NONE
  /\ mradius (snd res) = 0
  /\ mcenter (snd res) = mkPoint 0 0 0
  /\ mstart (snd res) = mkPoint 0 0 0
  /\ mend (snd res) = mkPoint 0 0 0.
Proof.
  intros held res.
  apply (SetParams_failure_unsets held (ArcArgs (pt 0 0) (pt 5 0) (pt 0 7) false)).
  cbn [SetParams]. unfold SetParams_arc.
  replace (_ || _ || _) with false by (symmetry; dbl_decide).
  replace (PointMatches (pt 0 0) (pt 5 0) 1e-8 || PointMatches (pt 0 0) (pt 0 7) 1e-8)
    with false by (symmetry; dbl_decide).
  replace (PointMatches (pt 5 0) (pt 0 7) 1e-8) with false by (symmetry; dbl_decide).
  cbn [mradius set_mradius init pt pt_x pt_y].
  sqrt_to 7. sqrt_to 5.
  replace (Rabs (7 - 5) >? 1.0e-3) with true by (symmetry; dbl_decide).
  reflexivity.
Defined.

(** C7 at centre (0,0) with start and end both at (2,0). *)
Lemma SetParams_arc_closed_is_circle_witness :
  exists s : IGES_GEOM_SEGMENT,
    SetParams_arc unset (pt 0 0) (pt 2 0) (pt 2 0) true = (true, s)
    /\ msegtype s = SEGTYPE_CIRCLE
    /\ mcenter s = pt 0 0
    /\ mradius s = dist2d (pt 2 0) (pt 0 0)
    /\ mstart s = mkPoint (pt_x (pt 0 0) + mradius s) (pt_y (pt 0 0)) 0
    /\ mend s = mkPoint (pt_x (pt 0 0) + mradius s) (pt_y (pt 0 0)) 0.
Proof.
  apply (SetParams_arc_closed_is_circle unset (pt 0 0) (pt 2 0) (pt 2 0) true);
    try reflexivity; dbl_decide.
Defined.

(** C10 at the clockwise quarter arc from (5,0) to (0,5) about the origin. *)
Lemma getStart_getEnd_ccw_witness :
  let s := arc_of (pt 0 0) (pt 5 0) (pt 0 5) true in
  mstart s = pt 5 0 /\ mend s = pt 0 5 /\ mCWArc s = true
  /\ getStart s = mend s
  /\ getEnd s = mstart s
  /\ getStartAngle s = angle_from (getCenter s) (getStart s)
  /\ (exists k : nat,
        getEndAngle s = angle_from (getCenter s) (getEnd s) + INR k * (2.0 * PI))
  /\ getStartAngle s <= getEndAngle s.
Proof.
  intros s.
  assert (Hr : Rabs (dist2d (pt 0 5) (pt 0 0) - dist2d (pt 5 0) (pt 0 0)) <= 1.0e-3).
  { unfold dist2d. cbn [pt pt_x pt_y]. sqrt_to 5. sqrt_to 5. split_Rabs; lra. }
  assert (Hs : SetParams_arc unset (pt 0 0) (pt 5 0) (pt 0 5) true = (true, s)).
  { unfold s, arc_of. rewrite SetParams_arc_arc_eq;
      [reflexivity | try reflexivity; try dbl_decide; exact Hr ..]. }
  apply (getStart_getEnd_ccw unset s (pt 0 0) (pt 5 0) (pt 0 5) true Hs).
  unfold s, arc_of. rewrite SetParams_arc_arc_eq;
    [reflexivity | try reflexivity; try dbl_decide; exact Hr ..].
Defined.

(** ** Constructed segments *)

Lemma orb3_false (a b c : bool) : a || b || c = false -> a = false /\ b = false /\ c = false.
Proof. destruct a, b, c; cbn; intuition discriminate. Qed.

Lemma Rneqb_false (a b : R) : (a !=? b) = false -> a = b.
Proof. destruct (Rneqb_spec a b) as [|H]; [discriminate|]. intros _.
  destruct (Req_dec_T a b); [assumption|contradiction]. Qed.

(** Two planar points that do not match are apart in x or in y, so their
    distance is positive. *)
Lemma dist2d_pos (p q : IGES_POINT) (eps : R) :
  0 < eps -> pt_z p = pt_z q -> PointMatches q p eps = false -> 0 < dist2d p q.
Proof.
  intros He Hz Hm. unfold dist2d. apply sqrt_lt_R0.
  destruct (Req_dec_T (pt_x p) (pt_x q)) as [Hx|Hx];
    destruct (Req_dec_T (pt_y p) (pt_y q)) as [Hy|Hy]; try nra.
  exfalso. assert (Ht : PointMatches q p eps = true); [|congruence].
  apply PointMatches_true_iff. rewrite Hx, Hy, Hz.
  replace (pt_x q - pt_x q) with 0 by ring.
  replace (pt_y q - pt_y q) with 0 by ring.
  replace (pt_z q - pt_z q) with 0 by ring.
  rewrite Rabs_R0. auto.
Qed.

(** What construction guarantees of a circle. *)
Lemma constructed_circle_inv (s : IGES_GEOM_SEGMENT) :
  constructed s -> msegtype s = SEGTYPE_CIRCLE ->
  0 < mradius s /\ pt_z (mcenter s) = 0 /\ mCWArc s = false.
Proof.
  intros (self & args & Hc) Hk.
  destruct args as [aStart aEnd | aCenter aStart aEnd isCW]; cbn [SetParams] in Hc.
  - unfold SetParams_line in Hc.
    destruct (_ || _); [discriminate|].
    destruct (PointMatches aStart aEnd 1e-8); [discriminate|].
    inversion Hc; subst s. discriminate Hk.
  - unfold SetParams_arc in Hc.
    destruct (_ || _ || _) eqn:Hz; [discriminate|].
    apply orb3_false in Hz. destruct Hz as (Hzc & Hzs & _).
    apply Rneqb_false in Hzc, Hzs.
    destruct (PointMatches aCenter aStart 1e-8) eqn:Hcs; [discriminate|].
    cbn [orb] in Hc.
    destruct (PointMatches aCenter aEnd 1e-8); [discriminate|].
    destruct (PointMatches aStart aEnd 1e-8).
    + inversion Hc; subst s. cbn. repeat split; auto.
      apply (dist2d_pos aStart aCenter 1e-8); [lra|congruence|exact Hcs].
    + match type of Hc with context [?a >? ?b] => destruct (a >? b) end;
        [discriminate|].
      inversion Hc; subst s. discriminate Hk.
Qed.

(** The dispatch on two circles. *)
Lemma GetIntersections_circles (pt_default : IGES_POINT) (ang_uninit : array R)
    (s1 s2 : IGES_GEOM_SEGMENT) (l : list IGES_POINT) (f : IGES_INTERSECT_FLAG) :
  msegtype s1 = SEGTYPE_CIRCLE -> msegtype s2 = SEGTYPE_CIRCLE ->
  GetIntersections pt_default ang_uninit s1 s2 l f = checkCircles s1 s2 l IGES_IFLAG_NONE.
Proof.
  intros H1 H2. unfold GetIntersections, getSegType. rewrite H1, H2. reflexivity.
Qed.

(** Circles whose centres are at distance 0 and whose radii are equal pass
    the test for identical circles. *)
Lemma circles_coincide_of_zero (s1 s2 : IGES_GEOM_SEGMENT) :
  pt_z (mcenter s1) = 0 -> pt_z (mcenter s2) = 0 ->
  dist2d (mcenter s1) (mcenter s2) = 0 -> mradius s1 = mradius s2 ->
  circles_coincide s1 s2.
Proof.
  intros Hz1 Hz2 Hd Hr. unfold circles_coincide.
  unfold dist2d in Hd.
  set (dx := pt_x (mcenter s1) - pt_x (mcenter s2)) in *.
  set (dy := pt_y (mcenter s1) - pt_y (mcenter s2)) in *.
  pose proof (Rle_0_sqr dx) as Hdx. pose proof (Rle_0_sqr dy) as Hdy.
  unfold Rsqr in Hdx, Hdy.
  apply sqrt_eq_0 in Hd; [|lra].
  assert (Hx : dx = 0) by nra.
  assert (Hy : dy = 0) by nra.
  split.
  - apply PointMatches_true_iff. fold dx dy. rewrite Hx, Hy, Hz1, Hz2.
    replace (0 - 0) with 0 by ring. rewrite Rabs_R0. lra.
  - rewrite Hr. replace (mradius s2 - mradius s2) with 0 by ring.
    rewrite Rabs_R0. lra.
Qed.

(** The test of [checkCircles] for identical circles, as a boolean. *)
Lemma circles_coincide_spec (s1 s2 : IGES_GEOM_SEGMENT) :
  reflect (circles_coincide s1 s2)
    (PointMatches (mcenter s1) (mcenter s2) 0.001
     && (Rabs (mradius s1 - mradius s2) <? 0.001)).
Proof.
  unfold circles_coincide.
  destruct (PointMatches (mcenter s1) (mcenter s2) 0.001);
    destruct (Rltb_spec (Rabs (mradius s1 - mradius s2)) 0.001);
    constructor; intuition congruence.
Qed.

(** ** Circle against circle *)

(** [checkCircles] as a cascade, in the order of its tests. *)
Lemma checkCircles_cascade (s1 s2 : IGES_GEOM_SEGMENT)
    (l : list IGES_POINT) (f : IGES_INTERSECT_FLAG) :
  0 < mradius s1 -> 0 < mradius s2 ->
  pt_z (mcenter s1) = 0 -> pt_z (mcenter s2) = 0 ->
  let d := dist2d (mcenter s1) (mcenter s2) in
  let r1 := mradius s1 in
  let r2 := mradius s2 in
  let res := checkCircles s1 s2 l f in
  (d > r1 + r2 -> res = (false, l, f))
  /\ (d <= r1 + r2 -> circles_coincide s1 s2 -> res = (false, l, IGES_IFLAG_IDENT))
  /\ (d <= r1 + r2 -> ~ circles_coincide s1 s2 -> Rabs (d - (r1 + r2)) < 0.001 ->
      res = (false, l, IGES_IFLAG_TANGENT))
  /\ (d <= r1 + r2 -> ~ circles_coincide s1 s2 -> ~ Rabs (d - (r1 + r2)) < 0.001 ->
      d <= r1 - r2 -> res = (false, l, IGES_IFLAG_ENCIRCLES))
  /\ (d <= r1 + r2 -> ~ circles_coincide s1 s2 -> ~ Rabs (d - (r1 + r2)) < 0.001 ->
      d <= r2 - r1 -> res = (false, l, IGES_IFLAG_INSIDE))
  /\ (d <= r1 + r2 -> ~ circles_coincide s1 s2 -> ~ Rabs (d - (r1 + r2)) < 0.001 ->
      ~ d <= r1 - r2 -> ~ d <= r2 - r1 ->
      0 < d /\ exists p1 p2 : IGES_POINT, res = (true, l ++ [p1; p2], f)).
Proof.
  intros Hr1 Hr2 Hz1 Hz2 d r1 r2 res. subst res r1 r2.
  assert (Hd0 : 0 <= d) by (unfold d, dist2d; apply sqrt_pos).
  assert (Hboth : d <= mradius s1 - mradius s2 -> d <= mradius s2 - mradius s1 ->
                  circles_coincide s1 s2).
  { intros Ha Hb. unfold d in Ha, Hb, Hd0.
    apply circles_coincide_of_zero; auto; lra. }
  unfold checkCircles, getCenter, getRadius.
  fold (dist2d (mcenter s1) (mcenter s2)). fold d.
  replace (d - mradius s1 - mradius s2) with (d - (mradius s1 + mradius s2)) by ring.
  clearbody d.
  destruct (Rgtb_spec d (mradius s1 + mradius s2)) as [Hfar|Hnear].
  { repeat split; intros; try reflexivity; lra. }
  destruct (circles_coincide_spec s1 s2) as [Hid|Hnid].
  { repeat split; intros; try reflexivity; try contradiction; lra. }
  destruct (Rltb_spec (Rabs (d - (mradius s1 + mradius s2))) 0.001) as [Htan|Hntan].
  { repeat split; intros; try reflexivity; try contradiction; lra. }
  destruct (Rltb_spec d (mradius s1)) as [Hlt1|Hge1];
    destruct (Rltb_spec d (mradius s2)) as [Hlt2|Hge2];
    cbn [orb];
    try (destruct (Rleb_spec d (mradius s1 - mradius s2)) as [Hen|Hnen];
         [ repeat split; intros; try reflexivity; try contradiction; try lra;
           exfalso; apply Hnid; apply Hboth; assumption
         | destruct (Rleb_spec d (mradius s2 - mradius s1)) as [Hin|Hnin];
           [ repeat split; intros; try reflexivity; try contradiction; lra |] ]);
    destruct (calcCircleIntercepts s1 (mcenter s2) (mradius s2) d) as [p1 p2];
    repeat split; intros; try contradiction; try lra;
    exists p1, p2; reflexivity.
Qed.

Lemma dist2d_self (p : IGES_POINT) : dist2d p p = 0.
Proof.
  unfold dist2d.
  replace ((pt_x p - pt_x p) * (pt_x p - pt_x p) + (pt_y p - pt_y p) * (pt_y p - pt_y p))
    with 0 by ring.
  apply sqrt_0.
Qed.

Lemma constructed_circle_at (cx cy r : R) :
  1e-8 <= r ->
  constructed (circle_at (pt cx cy) r)
  /\ msegtype (circle_at (pt cx cy) r) = SEGTYPE_CIRCLE.
Proof.
  intros Hr. split.
  - exists unset,
      (ArcArgs (pt cx cy) (set_x (pt_x (pt cx cy) + r) (pt cx cy))
         (set_x (pt_x (pt cx cy) + r) (pt cx cy)) false).
    cbn [SetParams]. unfold circle_at.
    rewrite SetParams_arc_circle_eq; try reflexivity; dbl_decide.
  - rewrite circle_at_eq by exact Hr. reflexivity.
Qed.

(** A successful construction of a line, in closed form. *)
Lemma SetParams_line_eq (self : IGES_GEOM_SEGMENT) (aStart aEnd : IGES_POINT) :
  pt_z aStart = 0 -> pt_z aEnd = 0 -> PointMatches aStart aEnd 1e-8 = false ->
  SetParams_line self aStart aEnd =
  (true, mkSegment SEGTYPE_LINE false 0 0 0 (mkPoint 0 0 0) aStart aEnd).
Proof.
  intros Hzs Hze Hse. unfold SetParams_line. rewrite Hzs, Hze, Hse.
  destruct (Rneqb_spec 0 0) as [Hne|_]; [exfalso; apply Hne; reflexivity|].
  reflexivity.
Qed.

Lemma constructed_line_of (a b : IGES_POINT) :
  pt_z a = 0 -> pt_z b = 0 -> PointMatches a b 1e-8 = false ->
  constructed (line_of a b)
  /\ line_of a b = mkSegment SEGTYPE_LINE false 0 0 0 (mkPoint 0 0 0) a b.
Proof.
  intros Hza Hzb Hab. split.
  - exists unset, (LineArgs a b). cbn [SetParams]. unfold line_of.
    rewrite SetParams_line_eq by assumption. reflexivity.
  - unfold line_of. rewrite SetParams_line_eq by assumption. reflexivity.
Qed.

(** C1, amended to the order of the tests in [checkCircles]: for two
    constructed circles with centres at distance d and radii r1, r2,
    [GetIntersections] returns no points and flag None when d > r1 + r2;
    otherwise Coincident and no points when the centres match within 1e-3 and
    the radii differ by less than 1e-3; otherwise Tangent and no points when
    |d - (r1 + r2)| < 1e-3; otherwise OtherInsideSegment (ENCIRCLES) when
    d <= r1 - r2 and SegmentInsideOther (INSIDE) when d <= r2 - r1, both
    without points; and in every remaining case d > 0 and it succeeds with
    exactly two points appended and flag None. *)
Theorem GetIntersections_circles_classify
    (pt_default : IGES_POINT) (ang_uninit : array R)
    (s1 s2 : IGES_GEOM_SEGMENT) (l : list IGES_POINT) (f : IGES_INTERSECT_FLAG) :
  constructed s1 -> msegtype s1 = SEGTYPE_CIRCLE ->
  constructed s2 -> msegtype s2 = SEGTYPE_CIRCLE ->
  let d := dist2d (mcenter s1) (mcenter s2) in
  let r1 := mradius s1 in
  let r2 := mradius s2 in
  let res := GetIntersections pt_default ang_uninit s1 s2 l f in
  (d > r1 + r2 -> res = (false, l, IGES_IFLAG_NONE))
  /\ (d <= r1 + r2 -> circles_coincide s1 s2 -> res = (false, l, IGES_IFLAG_IDENT))
  /\ (d <= r1 + r2 -> ~ circles_coincide s1 s2 -> Rabs (d - (r1 + r2)) < 0.001 ->
      res = (false, l, IGES_IFLAG_TANGENT))
  /\ (d <= r1 + r2 -> ~ circles_coincide s1 s2 -> ~ Rabs (d - (r1 + r2)) < 0.001 ->
      d <= r1 - r2 -> res = (false, l, IGES_IFLAG_ENCIRCLES))
  /\ (d <= r1 + r2 -> ~ circles_coincide s1 s2 -> ~ Rabs (d - (r1 + r2)) < 0.001 ->
      d <= r2 - r1 -> res = (false, l, IGES_IFLAG_INSIDE))
  /\ (d <= r1 + r2 -> ~ circles_coincide s1 s2 -> ~ Rabs (d - (r1 + r2)) < 0.001 ->
      ~ d <= r1 - r2 -> ~ d <= r2 - r1 ->
      0 < d /\ exists p1 p2 : IGES_POINT, res = (true, l ++ [p1; p2], IGES_IFLAG_NONE)).
Proof.
  intros Hc1 Hk1 Hc2 Hk2 d r1 r2 res.
  destruct (constructed_circle_inv s1 Hc1 Hk1) as (Hr1 & Hz1 & _).
  destruct (constructed_circle_inv s2 Hc2 Hk2) as (Hr2 & Hz2 & _).
  unfold res. rewrite (GetIntersections_circles _ _ s1 s2 l f Hk1 Hk2).
  exact (checkCircles_cascade s1 s2 l IGES_IFLAG_NONE Hr1 Hr2 Hz1 Hz2).
Qed.

(** C1 at scenario S3: the circle of radius 2 inside the concentric circle
    of radius 5 reports SegmentInsideOther (INSIDE) and no points. *)
Lemma GetIntersections_circles_classify_witness :
  GetIntersections (pt 0 0) (fun _ => 0)
    (circle_at (pt 0 0) 2) (circle_at (pt 0 0) 5) [] IGES_IFLAG_NONE
  = (false, [], IGES_IFLAG_INSIDE).
Proof.
  assert (H2 : 1e-8 <= 2) by lra. assert (H5 : 1e-8 <= 5) by lra.
  destruct (GetIntersections_circles_classify (pt 0 0) (fun _ => 0)
              (circle_at (pt 0 0) 2) (circle_at (pt 0 0) 5) [] IGES_IFLAG_NONE
              (proj1 (constructed_circle_at 0 0 2 H2))
              (proj2 (constructed_circle_at 0 0 2 H2))
              (proj1 (constructed_circle_at 0 0 5 H5))
              (proj2 (constructed_circle_at 0 0 5 H5)))
    as (_ & _ & _ & _ & Hin & _).
  revert Hin. unfold circles_coincide.
  rewrite (circle_at_eq 0 0 2 H2), (circle_at_eq 0 0 5 H5).
  cbn [mcenter mradius]. rewrite dist2d_self. intros Hin.
  apply Hin.
  - lra.
  - intros [_ Hr]. revert Hr. split_Rabs; lra.
  - split_Rabs; lra.
  - lra.
Defined.

(** Scenario S2: the circles of radius 5 about (0,0) and (10,0) are
    tangent. *)
Lemma tangent_circles_S2 (pt_default : IGES_POINT) (ang_uninit : array R) :
  GetIntersections pt_default ang_uninit
    (circle_at (pt 0 0) 5) (circle_at (pt 10 0) 5) [] IGES_IFLAG_NONE
  = (false, [], IGES_IFLAG_TANGENT).
Proof.
  assert (H5 : 1e-8 <= 5) by lra.
  rewrite GetIntersections_circles by (apply constructed_circle_at; exact H5).
  rewrite !circle_at_eq by exact H5.
  unfold checkCircles, getCenter, getRadius. cbn [mcenter mradius pt pt_x pt_y].
  sqrt_to 10.
  replace (10 >? 5 + 5) with false by (symmetry; dbl_decide).
  replace (PointMatches _ _ _) with false by (symmetry; dbl_decide).
  cbn [andb].
  replace (Rabs (10 - 5 - 5) <? 0.001) with true by (symmetry; dbl_decide).
  reflexivity.
Qed.

(** C1 as stated fails: two constructed circles of radius 0.0001 with
    centres 0.0009 apart pass the test for coincidence (centres within 1e-3,
    radii equal), yet d > r1 + r2 is tested first and the flag is None. *)
Lemma coincident_circles_counterexample :
  let s1 := circle_at (pt 0 0) 0.0001 in
  let s2 := circle_at (pt 0.0009 0) 0.0001 in
  constructed s1 /\ msegtype s1 = SEGTYPE_CIRCLE
  /\ constructed s2 /\ msegtype s2 = SEGTYPE_CIRCLE
  /\ circles_coincide s1 s2
  /\ GetIntersections (pt 0 0) (fun _ => 0) s1 s2 [] IGES_IFLAG_NONE
     = (false, [], IGES_IFLAG_NONE)
  /\ out_flag (GetIntersections (pt 0 0) (fun _ => 0) s1 s2 [] IGES_IFLAG_NONE)
     <> IGES_IFLAG_IDENT.
Proof.
  intros s1 s2.
  assert (Hr : 1e-8 <= 0.0001) by lra.
  destruct (constructed_circle_at 0 0 0.0001 Hr) as [Hc1 Hk1].
  destruct (constructed_circle_at 0.0009 0 0.0001 Hr) as [Hc2 Hk2].
  assert (Hres : GetIntersections (pt 0 0) (fun _ => 0) s1 s2 [] IGES_IFLAG_NONE
                 = (false, [], IGES_IFLAG_NONE)).
  { rewrite GetIntersections_circles by assumption.
    unfold s1, s2. rewrite !circle_at_eq by exact Hr.
    unfold checkCircles, getCenter, getRadius. cbn [mcenter mradius pt pt_x pt_y].
    sqrt_to 0.0009.
    replace (0.0009 >? 0.0001 + 0.0001) with true by (symmetry; dbl_decide).
    reflexivity. }
  repeat split; try assumption.
  - unfold s1, s2. rewrite !circle_at_eq by exact Hr. cbn [mcenter].
    dbl_decide.
  - unfold s1, s2. rewrite !circle_at_eq by exact Hr. cbn [mradius].
    split_Rabs; lra.
  - rewrite Hres. cbn. discriminate.
Qed.

(** C6, amended to circles: intersecting a constructed circle with itself
    reports Coincident (IDENT), with no points. *)
Theorem circle_self_intersection_ident
    (pt_default : IGES_POINT) (ang_uninit : array R)
    (s : IGES_GEOM_SEGMENT) (l : list IGES_POINT) (f : IGES_INTERSECT_FLAG) :
  constructed s -> msegtype s = SEGTYPE_CIRCLE ->
  GetIntersections pt_default ang_uninit s s l f = (false, l, IGES_IFLAG_IDENT).
Proof.
  intros Hc Hk.
  destruct (constructed_circle_inv s Hc Hk) as (Hr & Hz & _).
  rewrite (GetIntersections_circles _ _ s s l f Hk Hk).
  destruct (checkCircles_cascade s s l IGES_IFLAG_NONE Hr Hr Hz Hz)
    as (_ & Hid & _).
  apply Hid.
  - rewrite dist2d_self. lra.
  - apply circles_coincide_of_zero; auto. apply dist2d_self.
Qed.

(** C6 at the circle of radius 5 about the origin. *)
Lemma circle_self_intersection_ident_witness :
  GetIntersections (pt 0 0) (fun _ => 0)
    (circle_at (pt 0 0) 5) (circle_at (pt 0 0) 5) [] IGES_IFLAG_NONE
  = (false, [], IGES_IFLAG_IDENT).
Proof.
  assert (H5 : 1e-8 <= 5) by lra.
  exact (circle_self_intersection_ident (pt 0 0) (fun _ => 0)
           (circle_at (pt 0 0) 5) [] IGES_IFLAG_NONE
           (proj1 (constructed_circle_at 0 0 5 H5))
           (proj2 (constructed_circle_at 0 0 5 H5))).
Defined.

(** C6 as stated fails: the constructed line (0,0)-(10,0) intersected with
    itself reports flag None, not Coincident. *)
Lemma line_self_intersection_counterexample :
  let s := line_of (pt 0 0) (pt 10 0) in
  constructed s
  /\ GetIntersections (pt 0 0) (fun _ => 0) s s [] IGES_IFLAG_NONE
     = (false, [], IGES_IFLAG_NONE)
  /\ out_flag (GetIntersections (pt 0 0) (fun _ => 0) s s [] IGES_IFLAG_NONE)
     <> IGES_IFLAG_IDENT.
Proof.
  intros s.
  assert (Hm : PointMatches (pt 0 0) (pt 10 0) 1e-8 = false) by dbl_decide.
  destruct (constructed_line_of (pt 0 0) (pt 10 0) eq_refl eq_refl Hm) as [Hc He].
  fold s in Hc, He.
  assert (Hres : GetIntersections (pt 0 0) (fun _ => 0) s s [] IGES_IFLAG_NONE
                 = (false, [], IGES_IFLAG_NONE)).
  { rewrite He. reflexivity. }
  repeat split; try assumption.
  rewrite Hres. cbn. discriminate.
Qed.

(** ** Angles *)

Lemma atan2_right (y x : R) : 0 < x -> atan2 y x = atan (y / x).
Proof. intros Hx. unfold atan2. destruct (Rltb_spec 0 x); [reflexivity|contradiction]. Qed.

Lemma atan2_left_up (y x : R) : x < 0 -> 0 <= y -> atan2 y x = atan (y / x) + PI.
Proof.
  intros Hx Hy. unfold atan2.
  destruct (Rltb_spec 0 x); [lra|].
  destruct (Rltb_spec x 0); [|contradiction].
  destruct (Rleb_spec 0 y); [reflexivity|contradiction].
Qed.

Lemma atan2_up (y x : R) : x = 0 -> 0 < y -> atan2 y x = PI / 2.
Proof.
  intros Hx Hy. unfold atan2.
  destruct (Rltb_spec 0 x); [lra|].
  destruct (Rltb_spec x 0); [lra|].
  destruct (Rltb_spec 0 y); [reflexivity|contradiction].
Qed.

Lemma atan2_down (y x : R) : x = 0 -> y < 0 -> atan2 y x = - (PI / 2).
Proof.
  intros Hx Hy. unfold atan2.
  destruct (Rltb_spec 0 x); [lra|].
  destruct (Rltb_spec x 0); [lra|].
  destruct (Rltb_spec 0 y); [lra|].
  destruct (Rltb_spec y 0); [reflexivity|contradiction].
Qed.

Lemma atan_pos (t : R) : 0 < t -> 0 < atan t.
Proof. intros Ht. rewrite <- atan_0. apply atan_increasing. exact Ht. Qed.

Lemma atan_neg (t : R) : t < 0 -> atan t < 0.
Proof. intros Ht. rewrite <- atan_0. apply atan_increasing. exact Ht. Qed.

(** [calcCircleIntercepts] from its intermediate values. *)
Lemma calcCircleIntercepts_eq (self : IGES_GEOM_SEGMENT) (c2 : IGES_POINT)
    (r2 d rd h x0 y0 x1 y1 a0 a1 : R) :
  rd = (d * d - r2 * r2 + mradius self * mradius self) / (2.0 * d) ->
  h = sqrt (mradius self * mradius self - rd * rd) / d ->
  x0 = rd / d * (pt_x c2 - pt_x (mcenter self)) + pt_x (mcenter self)
       + h * (pt_y c2 - pt_y (mcenter self)) ->
  y0 = rd / d * (pt_y c2 - pt_y (mcenter self)) + pt_y (mcenter self)
       + h * (pt_x c2 - pt_x (mcenter self)) ->
  x1 = rd / d * (pt_x c2 - pt_x (mcenter self)) + pt_x (mcenter self)
       - h * (pt_y c2 - pt_y (mcenter self)) ->
  y1 = rd / d * (pt_y c2 - pt_y (mcenter self)) + pt_y (mcenter self)
       - h * (pt_x c2 - pt_x (mcenter self)) ->
  a0 = atan2 (y0 - pt_y (mcenter self)) (x0 - pt_x (mcenter self)) ->
  a1 = atan2 (y1 - pt_y (mcenter self)) (x1 - pt_x (mcenter self)) ->
  calcCircleIntercepts self c2 r2 d =
  if ((a0 >=? 0.0) && (a1 >=? 0.0) && (a0 >? a1))
     || ((a0 <? 0.0) && (a1 <? 0.0) && (a0 >? a1))
     || ((a0 <? 0.0) && (a1 >=? 0.0))
  then (mkPoint x1 y1 0.0, mkPoint x0 y0 0.0)
  else (mkPoint x0 y0 0.0, mkPoint x1 y1 0.0).
Proof. intros -> -> -> -> -> -> -> ->. reflexivity. Qed.

Lemma dist2d_neq (p q : IGES_POINT) (r : R) :
  (pt_x p - pt_x q) * (pt_x p - pt_x q) + (pt_y p - pt_y q) * (pt_y p - pt_y q) <> r * r ->
  dist2d p q <> r.
Proof.
  intros Hne Hd. apply Hne. rewrite <- Hd. unfold dist2d.
  rewrite sqrt_def; [reflexivity|].
  pose proof (Rle_0_sqr (pt_x p - pt_x q)) as Hx.
  pose proof (Rle_0_sqr (pt_y p - pt_y q)) as Hy.
  unfold Rsqr in Hx, Hy. lra.
Qed.

(** C2 fails at the circles of radius 5 about (0,0) and (4.8,3.6), which
    cross at (0,5) and (4.8,-1.4): [GetIntersections] succeeds with the
    points (4.8,5) and (0,-1.4), and neither lies on either circle.  The
    offset along the radical line is taken as (h dy, h dx), which is not
    perpendicular to the line of centres (dx, dy). *)
Theorem circle_intercepts_miss_the_circles (pt_default : IGES_POINT) (ang_uninit : array R) :
  let s1 := circle_at (pt 0 0) 5 in
  let s2 := circle_at (pt 4.8 3.6) 5 in
  GetIntersections pt_default ang_uninit s1 s2 [] IGES_IFLAG_NONE
  = (true, [mkPoint 4.8 5 0.0; mkPoint 0 (-1.4) 0.0], IGES_IFLAG_NONE)
  /\ dist2d (mkPoint 4.8 5 0.0) (mcenter s1) <> mradius s1
  /\ dist2d (mkPoint 0 (-1.4) 0.0) (mcenter s1) <> mradius s1
  /\ dist2d (mkPoint 4.8 5 0.0) (mcenter s2) <> mradius s2
  /\ dist2d (mkPoint 0 (-1.4) 0.0) (mcenter s2) <> mradius s2
  /\ dist2d (pt 0 5) (mcenter s1) = mradius s1
  /\ dist2d (pt 0 5) (mcenter s2) = mradius s2
  /\ dist2d (pt 4.8 (-1.4)) (mcenter s1) = mradius s1
  /\ dist2d (pt 4.8 (-1.4)) (mcenter s2) = mradius s2.
Proof.
  intros s1 s2. subst s1 s2.
  assert (H5 : 1e-8 <= 5) by lra.
  rewrite GetIntersections_circles by (apply constructed_circle_at; exact H5).
  rewrite !circle_at_eq by exact H5.
  cbn [mcenter mradius].
  split.
  - unfold checkCircles, getCenter, getRadius. cbn [mcenter mradius pt pt_x pt_y].
    sqrt_to 6.
    replace (6 >? 5 + 5) with false by (symmetry; dbl_decide).
    replace (PointMatches _ _ _) with false by (symmetry; dbl_decide).
    cbn [andb].
    replace (Rabs (6 - 5 - 5) <? 0.001) with false by (symmetry; dbl_decide).
    replace (6 <? 5) with false by (symmetry; dbl_decide).
    cbn [orb].
    rewrite (calcCircleIntercepts_eq _ _ 5 6 3 (4 / 6) 4.8 5 0 (-1.4)
               (atan (5 / 4.8)) (- (PI / 2)));
      cbn [mcenter mradius pt pt_x pt_y]; try lra.
    + assert (Ha : 0 < atan (5 / 4.8)) by (apply atan_pos; lra).
      pose proof PI_RGT_0 as Hpi.
      replace (atan (5 / 4.8) >=? 0.0) with true by (symmetry; dbl_decide).
      replace (- (PI / 2) >=? 0.0) with false by (symmetry; dbl_decide).
      replace (atan (5 / 4.8) <? 0.0) with false by (symmetry; dbl_decide).
      reflexivity.
    + sqrt_to 4. lra.
    + rewrite atan2_right by lra. f_equal. lra.
    + rewrite atan2_down by lra. reflexivity.
  - repeat split;
      first [ apply dist2d_neq; cbn [pt pt_x pt_y]; lra
            | unfold dist2d; cbn [pt pt_x pt_y]; apply sqrt_sq; lra ].
Qed.

(** ** Line against line, arc against arc *)

Lemma GetIntersections_lines (pt_default : IGES_POINT) (ang_uninit : array R)
    (s1 s2 : IGES_GEOM_SEGMENT) (l : list IGES_POINT) (f : IGES_INTERSECT_FLAG) :
  msegtype s1 = SEGTYPE_LINE -> msegtype s2 = SEGTYPE_LINE ->
  GetIntersections pt_default ang_uninit s1 s2 l f = (false, l, IGES_IFLAG_NONE).
Proof.
  intros H1 H2. unfold GetIntersections, getSegType. rewrite H1, H2. reflexivity.
Qed.

Lemma GetIntersections_arcs (pt_default : IGES_POINT) (ang_uninit : array R)
    (s1 s2 : IGES_GEOM_SEGMENT) (l : list IGES_POINT) (f : IGES_INTERSECT_FLAG) :
  (msegtype s1 = SEGTYPE_ARC /\ (msegtype s2 = SEGTYPE_ARC \/ msegtype s2 = SEGTYPE_CIRCLE))
  \/ (msegtype s1 = SEGTYPE_CIRCLE /\ msegtype s2 = SEGTYPE_ARC) ->
  GetIntersections pt_default ang_uninit s1 s2 l f = (false, l, IGES_IFLAG_NONE).
Proof.
  unfold GetIntersections, getSegType.
  intros [[H1 [H2|H2]]|[H1 H2]]; rewrite H1, H2; reflexivity.
Qed.

(** C4 fails at scenario S1: for the constructed lines (0,0)-(10,0) and
    (5,-5)-(5,5), which cross at (5,0), [GetIntersections] reaches
    [checkLines], whose body is only [return false;], and returns failure
    with no point. *)
Theorem lines_S1_no_point (pt_default : IGES_POINT) (ang_uninit : array R) :
  let L1 := line_of (pt 0 0) (pt 10 0) in
  let L2 := line_of (pt 5 (-5)) (pt 5 5) in
  constructed L1 /\ constructed L2
  /\ GetIntersections pt_default ang_uninit L1 L2 [] IGES_IFLAG_NONE
     = (false, [], IGES_IFLAG_NONE).
Proof.
  intros L1 L2.
  assert (H1 : PointMatches (pt 0 0) (pt 10 0) 1e-8 = false) by dbl_decide.
  assert (H2 : PointMatches (pt 5 (-5)) (pt 5 5) 1e-8 = false) by dbl_decide.
  destruct (constructed_line_of (pt 0 0) (pt 10 0) eq_refl eq_refl H1) as [Hc1 He1].
  destruct (constructed_line_of (pt 5 (-5)) (pt 5 5) eq_refl eq_refl H2) as [Hc2 He2].
  fold L1 in Hc1, He1. fold L2 in Hc2, He2.
  repeat split; try assumption.
  rewrite He1, He2. reflexivity.
Qed.

Lemma constructed_arc_of (c a b : IGES_POINT) (cw : bool) :
  pt_z c = 0 -> pt_z a = 0 -> pt_z b = 0 ->
  PointMatches c a 1e-8 = false ->
  PointMatches c b 1e-8 = false ->
  PointMatches a b 1e-8 = false ->
  Rabs (dist2d b c - dist2d a c) <= 1.0e-3 ->
  constructed (arc_of c a b cw)
  /\ arc_of c a b cw =
     let sang := if cw then angle_from c b else angle_from c a in
     let eang := if cw then angle_from c a else angle_from c b in
     mkSegment SEGTYPE_ARC cw (dist2d a c) sang (wind_eang eang sang) c a b.
Proof.
  intros Hzc Hza Hzb Hca Hcb Hab Hr. split.
  - exists unset, (ArcArgs c a b cw). cbn [SetParams]. unfold arc_of.
    rewrite SetParams_arc_arc_eq by assumption. reflexivity.
  - unfold arc_of. rewrite SetParams_arc_arc_eq by assumption. reflexivity.
Qed.

(** The quarter arc from (5,0) to (0,5) about the origin is constructed. *)
Lemma quarter_arc_constructed (cw : bool) :
  constructed (arc_of (pt 0 0) (pt 5 0) (pt 0 5) cw)
  /\ msegtype (arc_of (pt 0 0) (pt 5 0) (pt 0 5) cw) = SEGTYPE_ARC
  /\ mcenter (arc_of (pt 0 0) (pt 5 0) (pt 0 5) cw) = pt 0 0
  /\ mradius (arc_of (pt 0 0) (pt 5 0) (pt 0 5) cw) = 5.
Proof.
  assert (Hr : Rabs (dist2d (pt 0 5) (pt 0 0) - dist2d (pt 5 0) (pt 0 0)) <= 1.0e-3).
  { unfold dist2d. cbn [pt pt_x pt_y]. sqrt_to 5. sqrt_to 5. split_Rabs; lra. }
  destruct (constructed_arc_of (pt 0 0) (pt 5 0) (pt 0 5) cw) as [Hc He];
    try reflexivity; try dbl_decide; try exact Hr.
  split; [exact Hc|]. rewrite He. cbn. repeat split.
  unfold dist2d. cbn [pt pt_x pt_y]. sqrt_to 5. reflexivity.
Qed.

(** C5 fails at the constructed quarter arc from (5,0) to (0,5) about the
    origin, intersected with itself and with the full circle of radius 5
    about the origin (same centre, same radius): [GetIntersections] reaches
    [checkArcs], which returns at once, and reports failure with flag None
    and no point, where the claim gives EdgeOverlap with the arc's two end
    points. *)
Theorem coincident_arcs_no_overlap (pt_default : IGES_POINT) (ang_uninit : array R) :
  let A := arc_of (pt 0 0) (pt 5 0) (pt 0 5) false in
  let C := circle_at (pt 0 0) 5 in
  constructed A /\ constructed C
  /\ PointMatches (mcenter A) (mcenter C) 0.001 = true
  /\ Rabs (mradius A - mradius C) < 0.001
  /\ GetIntersections pt_default ang_uninit A C [] IGES_IFLAG_NONE
     = (false, [], IGES_IFLAG_NONE)
  /\ GetIntersections pt_default ang_uninit C A [] IGES_IFLAG_NONE
     = (false, [], IGES_IFLAG_NONE)
  /\ GetIntersections pt_default ang_uninit A A [] IGES_IFLAG_NONE
     = (false, [], IGES_IFLAG_NONE).
Proof.
  intros A C.
  assert (H5 : 1e-8 <= 5) by lra.
  destruct (quarter_arc_constructed false) as (HcA & HkA & HmA & HrA).
  destruct (constructed_circle_at 0 0 5 H5) as [HcC HkC].
  fold A in HcA, HkA, HmA, HrA. fold C in HcC, HkC.
  assert (HeC := circle_at_eq 0 0 5 H5). fold C in HeC.
  repeat split; try assumption.
  - rewrite HmA, HeC. cbn [mcenter]. dbl_decide.
  - rewrite HrA, HeC. cbn [mradius]. split_Rabs; lra.
  - unfold GetIntersections, getSegType. rewrite HkA, HkC. reflexivity.
  - unfold GetIntersections, getSegType. rewrite HkA, HkC. reflexivity.
  - unfold GetIntersections, getSegType. rewrite HkA. reflexivity.
Qed.

(** ** Arc or circle against line *)

Lemma GetIntersections_circle_line (pt_default : IGES_POINT) (ang_uninit : array R)
    (s1 s2 : IGES_GEOM_SEGMENT) (l : list IGES_POINT) (f : IGES_INTERSECT_FLAG) :
  msegtype s1 = SEGTYPE_CIRCLE -> msegtype s2 = SEGTYPE_LINE ->
  GetIntersections pt_default ang_uninit s1 s2 l f
  = checkArcLine pt_default ang_uninit s1 s2 l IGES_IFLAG_NONE.
Proof.
  intros H1 H2. unfold GetIntersections, getSegType. rewrite H1, H2. reflexivity.
Qed.

Lemma GetIntersections_arc_line (pt_default : IGES_POINT) (ang_uninit : array R)
    (s1 s2 : IGES_GEOM_SEGMENT) (l : list IGES_POINT) (f : IGES_INTERSECT_FLAG) :
  msegtype s1 = SEGTYPE_ARC -> msegtype s2 = SEGTYPE_LINE ->
  GetIntersections pt_default ang_uninit s1 s2 l f
  = checkArcLine pt_default ang_uninit s1 s2 l IGES_IFLAG_NONE.
Proof.
  intros H1 H2. unfold GetIntersections, getSegType. rewrite H1, H2. reflexivity.
Qed.

(** The two early exits of [checkArcLine]: a discriminant within 1e-3 of
    zero gives Tangent, and a negative one gives flag None; neither adds a
    point. *)
Lemma checkArcLine_discriminant (pt_default : IGES_POINT) (ang_uninit : array R)
    (s1 s2 : IGES_GEOM_SEGMENT) (l : list IGES_POINT) (f : IGES_INTERSECT_FLAG) :
  let D := quad_D (arc_line_read s1 s2) in
  (Rabs D < 0.001 ->
   checkArcLine pt_default ang_uninit s1 s2 l f = (false, l, IGES_IFLAG_TANGENT))
  /\ (~ Rabs D < 0.001 -> D < 0 ->
      checkArcLine pt_default ang_uninit s1 s2 l f = (false, l, IGES_IFLAG_NONE)).
Proof.
  intros D. unfold checkArcLine. fold D.
  destruct (Rltb_spec (Rabs D) 0.001) as [Ht|Ht].
  - split; [reflexivity|contradiction].
  - split; [contradiction|]. intros _ Hneg.
    destruct (Rltb_spec D 0); [reflexivity|contradiction].
Qed.

(** [kept_roots] from the discriminant's root and the two parameters. *)
Lemma kept_roots_eq (pt_default : IGES_POINT) (q : arc_line_params) (sD t0 t1 : R) :
  sD = sqrt (quad_D q) ->
  t0 = (- quad_B q + sD) / (2.0 * quad_A q) ->
  t1 = (- quad_B q - sD) / (2.0 * quad_A q) ->
  kept_roots pt_default q =
  let p : array IGES_POINT := fun _ => pt_default in
  let '(p, np) :=
    if (t0 >=? 0.0) && (t0 <=? 1.0)
    then (upd p 0 (line_at q t0 (p 0%nat)), 1%nat)
    else (p, 0%nat) in
  if (t1 >=? 0.0) && (t1 <=? 1.0)
  then (upd p np (line_at q t1 (p np)), S np)
  else (p, np).
Proof. intros -> -> ->. reflexivity. Qed.

(** C3 fails at the circle of radius 5 about the origin and the line
    (10,0)-(20,0), which lies outside the circle: the discriminant is 10000,
    both roots (2.5 and 1.5) are outside [0, 1] and no root is kept, yet the
    circle branch only singles out the case of one kept root, and
    [GetIntersections] succeeds with two default-constructed points. *)
Theorem circle_line_phantom_points (pt_default : IGES_POINT) (ang_uninit : array R) :
  let C := circle_at (pt 0 0) 5 in
  let L := line_of (pt 10 0) (pt 20 0) in
  constructed C /\ constructed L
  /\ quad_D (arc_line_read C L) = 10000
  /\ snd (kept_roots pt_default (arc_line_read C L)) = 0%nat
  /\ GetIntersections pt_default ang_uninit C L [] IGES_IFLAG_NONE
     = (true, [pt_default; pt_default], IGES_IFLAG_NONE).
Proof.
  intros C L.
  assert (H5 : 1e-8 <= 5) by lra.
  assert (Hm : PointMatches (pt 10 0) (pt 20 0) 1e-8 = false) by dbl_decide.
  destruct (constructed_circle_at 0 0 5 H5) as [HcC HkC].
  destruct (constructed_line_of (pt 10 0) (pt 20 0) eq_refl eq_refl Hm) as [HcL HeL].
  assert (HeC := circle_at_eq 0 0 5 H5).
  fold C in HcC, HkC, HeC. fold L in HcL, HeL.
  assert (Hq : arc_line_read C L
               = mkArcLine (pt 0 0) (pt (0 + 5) 0) (pt (0 + 5) 0) 5 0.0 0.0 true
                   (pt 10 0) (pt 20 0)).
  { rewrite HeC, HeL. reflexivity. }
  assert (HA : quad_A (arc_line_read C L) = 100)
    by (rewrite Hq; unfold quad_A; cbn [lS lE pt pt_x pt_y]; lra).
  assert (HB : quad_B (arc_line_read C L) = -400)
    by (rewrite Hq; unfold quad_B; cbn [lS lE arcC pt pt_x pt_y]; lra).
  assert (HC : quad_C (arc_line_read C L) = 375)
    by (rewrite Hq; unfold quad_C; cbn [lS lE arcC arcR pt pt_x pt_y]; lra).
  assert (HD : quad_D (arc_line_read C L) = 10000)
    by (unfold quad_D; rewrite HA, HB, HC; lra).
  assert (Hk : kept_roots pt_default (arc_line_read C L) = (fun _ => pt_default, 0%nat)).
  { rewrite (kept_roots_eq pt_default _ 100 2.5 1.5).
    - replace (2.5 <=? 1.0) with false by (symmetry; dbl_decide).
      replace (1.5 <=? 1.0) with false by (symmetry; dbl_decide).
      rewrite !andb_false_r. reflexivity.
    - rewrite HD. symmetry. apply sqrt_sq; lra.
    - rewrite HA, HB. lra.
    - rewrite HA, HB. lra. }
  repeat split; try assumption.
  - rewrite Hk. reflexivity.
  - rewrite GetIntersections_circle_line by (assumption || (rewrite HeL; reflexivity)).
    unfold checkArcLine. rewrite HD, Hk.
    replace (Rabs 10000 <? 0.001) with false by (symmetry; dbl_decide).
    replace (10000 <? 0) with false by (symmetry; dbl_decide).
    rewrite Hq. cbn [arcCircle Nat.eqb fill_ang seq fold_left].
    destruct (ang_uninit 0%nat >=? 0.0);
      destruct ((ang_uninit 1%nat >=? 0.0) && (ang_uninit 1%nat <? ang_uninit 0%nat));
      destruct ((ang_uninit 1%nat >=? 0.0) || (ang_uninit 1%nat <? ang_uninit 0%nat));
      reflexivity.
Qed.

(** ** Evaluating the winding loop *)

Lemma wind_up_done (n : nat) (eang sang : R) : ~ eang < sang -> wind_up n eang sang = eang.
Proof.
  intros H. destruct n as [|n]; [reflexivity|].
  cbn [wind_up]. destruct (Rltb_spec eang sang); [contradiction|reflexivity].
Qed.

Lemma wind_eang_done (eang sang : R) : sang <= eang -> wind_eang eang sang = eang.
Proof. intros H. apply wind_up_done. lra. Qed.

Lemma wind_eang_once (eang sang : R) :
  eang < sang -> sang <= eang + 2.0 * PI -> wind_eang eang sang = eang + 2.0 * PI.
Proof.
  intros Hlt Hle. unfold wind_eang.
  pose proof (wind_rounds_enough eang sang) as Hn.
  destruct (wind_rounds eang sang) as [|n].
  - simpl in Hn. lra.
  - cbn [wind_up]. destruct (Rltb_spec eang sang); [|contradiction].
    apply wind_up_done. lra.
Qed.

(** The quarter arc from (5,0) to (0,5), counterclockwise, in closed form. *)
Lemma quarter_arc_eq :
  arc_of (pt 0 0) (pt 5 0) (pt 0 5) false
  = mkSegment SEGTYPE_ARC false 5 0 (PI / 2) (pt 0 0) (pt 5 0) (pt 0 5).
Proof.
  assert (Hr : Rabs (dist2d (pt 0 5) (pt 0 0) - dist2d (pt 5 0) (pt 0 0)) <= 1.0e-3).
  { unfold dist2d. cbn [pt pt_x pt_y]. sqrt_to 5. sqrt_to 5. split_Rabs; lra. }
  destruct (constructed_arc_of (pt 0 0) (pt 5 0) (pt 0 5) false) as [_ He];
    try reflexivity; try dbl_decide; try exact Hr.
  rewrite He. cbv zeta. unfold angle_from, dist2d. cbn [pt pt_x pt_y].
  sqrt_to 5.
  rewrite (atan2_right (0 - 0) (5 - 0)) by lra.
  rewrite (atan2_up (5 - 0) (0 - 0)) by lra.
  replace ((0 - 0) / (5 - 0)) with 0 by lra. rewrite atan_0.
  pose proof PI_RGT_0.
  rewrite wind_eang_done by lra. reflexivity.
Qed.

(** The filter on an arc: the line (-10,3)-(10,3) meets the
    circle of the quarter arc at (-4,3), off the arc, and at (4,3), on it.
    The point on the arc is stored in [pt[1]] and [pt[0]] is pushed: the
    result is one default-constructed point. *)
Lemma arc_line_kept_point_lost (pt_default : IGES_POINT) (ang_uninit : array R) :
  let A := arc_of (pt 0 0) (pt 5 0) (pt 0 5) false in
  let L := line_of (pt (-10) 3) (pt 10 3) in
  constructed A /\ constructed L
  /\ dist2d (pt 4 3) (mcenter A) = mradius A
  /\ getStartAngle A <= angle_from (mcenter A) (pt 4 3) <= getEndAngle A
  /\ GetIntersections pt_default ang_uninit A L [] IGES_IFLAG_NONE
     = (true, [pt_default], IGES_IFLAG_NONE).
Proof.
  intros A L.
  pose proof PI_RGT_0 as Hpi.
  assert (Hm : PointMatches (pt (-10) 3) (pt 10 3) 1e-8 = false) by dbl_decide.
  destruct (quarter_arc_constructed false) as (HcA & HkA & _ & _).
  destruct (constructed_line_of (pt (-10) 3) (pt 10 3) eq_refl eq_refl Hm) as [HcL HeL].
  assert (HeA := quarter_arc_eq).
  fold A in HcA, HkA, HeA. fold L in HcL, HeL.
  assert (Hq : arc_line_read A L
               = mkArcLine (pt 0 0) (pt 5 0) (pt 0 5) 5 0 (PI / 2) false
                   (pt (-10) 3) (pt 10 3)).
  { rewrite HeA, HeL. reflexivity. }
  assert (HA : quad_A (arc_line_read A L) = 400)
    by (rewrite Hq; unfold quad_A; cbn [lS lE pt pt_x pt_y]; lra).
  assert (HB : quad_B (arc_line_read A L) = -400)
    by (rewrite Hq; unfold quad_B; cbn [lS lE arcC pt pt_x pt_y]; lra).
  assert (HC : quad_C (arc_line_read A L) = 84)
    by (rewrite Hq; unfold quad_C; cbn [lS lE arcC arcR pt pt_x pt_y]; lra).
  assert (HD : quad_D (arc_line_read A L) = 25600)
    by (unfold quad_D; rewrite HA, HB, HC; lra).
  assert (Hon : 0 < atan (3 / 4) < PI / 2).
  { pose proof (atan_bound (3 / 4)) as Hb.
    assert (0 < atan (3 / 4)) by (apply atan_pos; lra). lra. }
  assert (Hoff : - (PI / 2) < atan (3 / (-4)) < 0).
  { pose proof (atan_bound (3 / (-4))) as Hb.
    assert (atan (3 / (-4)) < 0) by (apply atan_neg; lra). lra. }
  assert (Hk : kept_roots pt_default (arc_line_read A L)
               = (upd (upd (fun _ => pt_default) 0
                        (line_at (arc_line_read A L) 0.7 pt_default)) 1
                    (line_at (arc_line_read A L) 0.3 pt_default), 2%nat)).
  { rewrite (kept_roots_eq pt_default _ 160 0.7 0.3).
    - replace (0.7 >=? 0.0) with true by (symmetry; dbl_decide).
      replace (0.7 <=? 1.0) with true by (symmetry; dbl_decide).
      replace (0.3 >=? 0.0) with true by (symmetry; dbl_decide).
      replace (0.3 <=? 1.0) with true by (symmetry; dbl_decide).
      reflexivity.
    - rewrite HD. symmetry. apply sqrt_sq; lra.
    - rewrite HA, HB. lra.
    - rewrite HA, HB. lra. }
  repeat split; try assumption.
  - rewrite HeA. unfold dist2d. cbn [mcenter mradius pt pt_x pt_y]. apply sqrt_sq; lra.
  - rewrite HeA. unfold getStartAngle, angle_from. cbn [msang mcenter pt pt_x pt_y].
    rewrite atan2_right by lra. replace ((3 - 0) / (4 - 0)) with (3 / 4) by lra. lra.
  - rewrite HeA. unfold getEndAngle, angle_from. cbn [meang mcenter pt pt_x pt_y].
    rewrite atan2_right by lra. replace ((3 - 0) / (4 - 0)) with (3 / 4) by lra. lra.
  - rewrite GetIntersections_arc_line by (assumption || (rewrite HeL; reflexivity)).
    unfold checkArcLine. rewrite HD, Hk.
    replace (Rabs 25600 <? 0.001) with false by (symmetry; dbl_decide).
    replace (25600 <? 0) with false by (symmetry; dbl_decide).
    rewrite Hq. cbn [arcCircle].
    unfold fill_ang, filter_arc, on_arc, line_at.
    cbn [seq fold_left upd Nat.eqb arcC arcSAng arcEAng lS lE pt pt_x pt_y set_x set_y].
    replace (0.7 * -10 + (1.0 - 0.7) * 10 - 0) with (-4) by lra.
    replace (0.7 * 3 + (1.0 - 0.7) * 3 - 0) with 3 by lra.
    replace (0.3 * -10 + (1.0 - 0.3) * 10 - 0) with 4 by lra.
    replace (0.3 * 3 + (1.0 - 0.3) * 3 - 0) with 3 by lra.
    rewrite (atan2_left_up 3 (-4)) by lra.
    rewrite (atan2_right 3 4) by lra.
    replace (atan (3 / -4) + PI <=? PI / 2) with false by (symmetry; dbl_decide).
    replace (atan (3 / -4) + PI + 2.0 * PI <=? PI / 2) with false by (symmetry; dbl_decide).
    rewrite !andb_false_r. cbn [orb upd Nat.eqb].
    replace (atan (3 / 4) >=? 0) with true by (symmetry; dbl_decide).
    replace (atan (3 / 4) <=? PI / 2) with true by (symmetry; dbl_decide).
    cbn [andb orb Nat.eqb upd app]. reflexivity.
Qed.

(** ** Bounding box *)

(** The left half circle from (0,5) to (0,-5), counterclockwise, in closed
    form: it runs from angle PI/2 through PI to 3 PI/2. *)
Lemma left_half_arc_eq :
  arc_of (pt 0 0) (pt 0 5) (pt 0 (-5)) false
  = mkSegment SEGTYPE_ARC false 5 (PI / 2) (- (PI / 2) + 2.0 * PI)
      (pt 0 0) (pt 0 5) (pt 0 (-5)).
Proof.
  assert (Hr : Rabs (dist2d (pt 0 (-5)) (pt 0 0) - dist2d (pt 0 5) (pt 0 0)) <= 1.0e-3).
  { unfold dist2d. cbn [pt pt_x pt_y]. sqrt_to 5. sqrt_to 5. split_Rabs; lra. }
  destruct (constructed_arc_of (pt 0 0) (pt 0 5) (pt 0 (-5)) false) as [_ He];
    try reflexivity; try dbl_decide; try exact Hr.
  rewrite He. cbv zeta. unfold angle_from, dist2d. cbn [pt pt_x pt_y].
  sqrt_to 5.
  rewrite (atan2_up (5 - 0) (0 - 0)) by lra.
  rewrite (atan2_down (-5 - 0) (0 - 0)) by lra.
  pose proof PI_RGT_0.
  rewrite wind_eang_once by lra. reflexivity.
Qed.

Lemma left_half_arc_constructed :
  constructed (arc_of (pt 0 0) (pt 0 5) (pt 0 (-5)) false).
Proof.
  assert (Hr : Rabs (dist2d (pt 0 (-5)) (pt 0 0) - dist2d (pt 0 5) (pt 0 0)) <= 1.0e-3).
  { unfold dist2d. cbn [pt pt_x pt_y]. sqrt_to 5. sqrt_to 5. split_Rabs; lra. }
  destruct (constructed_arc_of (pt 0 0) (pt 0 5) (pt 0 (-5)) false) as [Hc _];
    try reflexivity; try dbl_decide; try exact Hr.
  exact Hc.
Qed.

(** One round of the loop over the extrema, as minima and maxima. *)
Lemma widen_eq (mi p0 p1 : IGES_POINT) :
  widen mi (p0, p1)
  = (mkPoint (Rmin (pt_x mi) (pt_x p0)) (Rmax (pt_y mi) (pt_y p0)) (pt_z p0),
     mkPoint (Rmax (pt_x mi) (pt_x p1)) (Rmin (pt_y mi) (pt_y p1)) (pt_z p1)).
Proof.
  destruct p0 as [x0 y0 z0], p1 as [x1 y1 z1]. unfold widen, set_x, set_y.
  cbn [pt_x pt_y pt_z].
  unfold Rmin, Rmax.
  repeat match goal with |- context [Rle_dec ?a ?b] => destruct (Rle_dec a b) end;
    repeat (cmp_cases; cbn [pt_x pt_y pt_z]);
    f_equal; f_equal; cbn [pt_x pt_y pt_z] in *; lra.
Qed.

Lemma Rmax_twice (a b : R) : Rmax a (Rmax a b) = Rmax a b.
Proof.
  unfold Rmax. destruct (Rle_dec a b); destruct (Rle_dec a a); try lra.
  destruct (Rle_dec a b); lra.
Qed.

Lemma Rmin_twice (a b : R) : Rmin a (Rmin a b) = Rmin a b.
Proof.
  unfold Rmin. destruct (Rle_dec a b); destruct (Rle_dec a a); try lra.
  destruct (Rle_dec a b); lra.
Qed.

Lemma Rmax_same (a : R) : Rmax a a = a.
Proof. unfold Rmax. destruct (Rle_dec a a); reflexivity. Qed.

Lemma Rmin_same (a : R) : Rmin a a = a.
Proof. unfold Rmin. destruct (Rle_dec a a); reflexivity. Qed.

(** C8 fails at the constructed left half circle about the origin, from
    (0,5) counterclockwise to (0,-5).  Its angular interval [PI/2, 3 PI/2]
    holds the extreme point (-5,0) at angle PI, yet every extreme point
    after the first is stored as (center.x, center.y + radius): the top-left
    corner comes out as (0,5), to the right of (-5,0), and the bottom-right
    corner is the caller's point moved no further than to x = 0 and
    y = 5. *)
Theorem arc_bounding_box_misses_extreme
    (pt_default p0 p1 : IGES_POINT) :
  let A := arc_of (pt 0 0) (pt 0 5) (pt 0 (-5)) false in
  constructed A /\ msegtype A = SEGTYPE_ARC
  /\ getStartAngle A <= PI <= getEndAngle A
  /\ pt_x (mcenter A) - mradius A = -5
  /\ GetBoundingBox pt_default A p0 p1
     = (true, mkPoint 0 5 (pt_z p0),
        mkPoint (Rmax 0 (pt_x p1)) (Rmin 5 (pt_y p1)) (pt_z p1)).
Proof.
  intros A. pose proof PI_RGT_0 as Hpi.
  assert (HeA := left_half_arc_eq). fold A in HeA.
  split; [exact left_half_arc_constructed|].
  rewrite HeA. unfold getStartAngle, getEndAngle. cbn [msegtype msang meang mcenter mradius pt pt_x].
  split; [reflexivity|]. split; [lra|]. split; [lra|].
  unfold GetBoundingBox. cbn [msegtype SEGTYPE_eqb].
  assert (Hm : arc_extrema pt_default
                 (mkSegment SEGTYPE_ARC false 5 (PI / 2) (- (PI / 2) + 2.0 * PI)
                    (pt 0 0) (pt 0 5) (pt 0 (-5)))
               = (upd (upd (upd (fun _ => pt_default) 0
                                (mkPoint 0 (0 + 5) (pt_z pt_default))) 1
                           (mkPoint 0 (0 + 5) (pt_z pt_default))) 2
                      (mkPoint 0 (0 + 5) (pt_z pt_default)), 3%nat)).
  { unfold arc_extrema, getStartAngle, getEndAngle.
    cbn [msang meang mcenter mradius pt pt_x pt_y].
    replace (0.0 >=? PI / 2) with false by (symmetry; dbl_decide).
    replace (2.0 * PI <=? - (PI / 2) + 2.0 * PI) with false by (symmetry; dbl_decide).
    rewrite andb_false_r. cbn [andb orb].
    replace (PI * 0.5 >=? PI / 2) with true by (symmetry; dbl_decide).
    replace (PI * 0.5 <=? - (PI / 2) + 2.0 * PI) with true by (symmetry; dbl_decide).
    cbn [andb orb].
    replace (PI >=? PI / 2) with true by (symmetry; dbl_decide).
    replace (PI <=? - (PI / 2) + 2.0 * PI) with true by (symmetry; dbl_decide).
    cbn [andb orb].
    replace (-0.5 * PI >=? PI / 2) with false by (symmetry; dbl_decide).
    replace (1.5 * PI >=? PI / 2) with true by (symmetry; dbl_decide).
    replace (1.5 * PI <=? - (PI / 2) + 2.0 * PI) with true by (symmetry; dbl_decide).
    cbn [andb orb upd Nat.eqb set_x set_y pt_x pt_y pt_z]. reflexivity. }
  rewrite Hm. cbn [mstart mend pt pt_x pt_y].
  replace (0 <? 0) with false by (symmetry; dbl_decide).
  replace (5 >? -5) with true by (symmetry; dbl_decide).
  cbn [seq fold_left upd Nat.eqb set_x set_y pt_x pt_y pt_z].
  rewrite !widen_eq. cbn [pt_x pt_y pt_z set_x set_y].
  replace (0 + 5) with 5 by lra.
  rewrite !Rmax_twice, !Rmin_twice, Rmin_same, Rmax_same.
  reflexivity.
Qed.

(** * Further properties *)

(** ** What a successful construction leaves behind *)

(** The planar distance does not depend on the order of the points. *)
Lemma dist2d_sym (p q : IGES_POINT) : dist2d p q = dist2d q p.
Proof. unfold dist2d. f_equal. ring. Qed.

(** [atan2] returns an angle of [(-PI, PI]]. *)
Lemma atan2_bound (y x : R) : - PI < atan2 y x <= PI.
Proof.
  pose proof PI_RGT_0 as Hpi. unfold atan2.
  pose proof (atan_bound (y / x)) as Hb.
  destruct (Rltb_spec 0 x) as [Hx|Hx]; [lra|].
  destruct (Rltb_spec x 0) as [Hx'|Hx'].
  - assert (Hq : y / x * x = y) by (field; lra).
    destruct (Rleb_spec 0 y) as [Hy|Hy].
    + assert (Hle : y / x <= 0) by nra.
      assert (atan (y / x) <= 0).
      { destruct Hle as [Hlt|Heq].
        - left. apply atan_neg. exact Hlt.
        - rewrite Heq, atan_0. lra. }
      lra.
    + assert (Hgt : 0 < y / x) by nra.
      pose proof (atan_pos _ Hgt). lra.
  - destruct (Rltb_spec 0 y); [lra|]. destruct (Rltb_spec y 0); lra.
Qed.

(** With both angles in [(-PI, PI]], the loop runs at most once. *)
Lemma wind_eang_cases (eang sang : R) :
  - PI < eang <= PI -> - PI < sang <= PI ->
  (sang <= eang /\ wind_eang eang sang = eang)
  \/ (eang < sang /\ wind_eang eang sang = eang + 2.0 * PI).
Proof.
  intros He Hs. destruct (Rlt_dec eang sang) as [Hlt|Hge].
  - right. split; [exact Hlt|]. apply wind_eang_once; lra.
  - left. split; [lra|]. apply wind_eang_done. lra.
Qed.

(** What [SetParams] leaves behind when it accepts an arc. *)
Lemma SetParams_arc_arc_inv
    (self s : IGES_GEOM_SEGMENT) (aCenter aStart aEnd : IGES_POINT) (isCW : bool) :
  SetParams_arc self aCenter aStart aEnd isCW = (true, s) ->
  msegtype s = SEGTYPE_ARC ->
  pt_z aCenter = 0 /\ pt_z aStart = 0 /\ pt_z aEnd = 0
  /\ PointMatches aCenter aStart 1e-8 = false
  /\ PointMatches aCenter aEnd 1e-8 = false
  /\ PointMatches aStart aEnd 1e-8 = false
  /\ Rabs (dist2d aEnd aCenter - dist2d aStart aCenter) <= 1.0e-3
  /\ s = mkSegment SEGTYPE_ARC isCW (dist2d aStart aCenter)
           (if isCW then angle_from aCenter aEnd else angle_from aCenter aStart)
           (wind_eang (if isCW then angle_from aCenter aStart else angle_from aCenter aEnd)
              (if isCW then angle_from aCenter aEnd else angle_from aCenter aStart))
           aCenter aStart aEnd.
Proof.
  intros Hc Hk.
  assert (Hok : fst (SetParams_arc self aCenter aStart aEnd isCW) = true)
    by (rewrite Hc; reflexivity).
  assert (Hnf : ~ (0 <> pt_z aCenter \/ 0 <> pt_z aStart \/ 0 <> pt_z aEnd
                   \/ PointMatches aCenter aStart 1e-8 = true
                   \/ PointMatches aCenter aEnd 1e-8 = true
                   \/ (PointMatches aStart aEnd 1e-8 = false
                       /\ Rabs (dist2d aEnd aCenter - dist2d aStart aCenter) > 1.0e-3))).
  { intros Hf. apply (SetParams_arc_fails_iff self aCenter aStart aEnd isCW) in Hf.
    congruence. }
  assert (Hzc : pt_z aCenter = 0) by (destruct (Req_dec_T 0 (pt_z aCenter)); [auto|tauto]).
  assert (Hzs : pt_z aStart = 0) by (destruct (Req_dec_T 0 (pt_z aStart)); [auto|tauto]).
  assert (Hze : pt_z aEnd = 0) by (destruct (Req_dec_T 0 (pt_z aEnd)); [auto|tauto]).
  assert (Hcs : PointMatches aCenter aStart 1e-8 = false)
    by (destruct (PointMatches aCenter aStart 1e-8); [tauto|reflexivity]).
  assert (Hce : PointMatches aCenter aEnd 1e-8 = false)
    by (destruct (PointMatches aCenter aEnd 1e-8); [tauto|reflexivity]).
  destruct (PointMatches aStart aEnd 1e-8) eqn:Hse.
  { exfalso. rewrite SetParams_arc_circle_eq in Hc by auto.
    inversion Hc; subst s. discriminate Hk. }
  assert (Hr : Rabs (dist2d aEnd aCenter - dist2d aStart aCenter) <= 1.0e-3).
  { apply Rnot_lt_le. intros Hgt. apply Hnf. do 5 right. split; [reflexivity|exact Hgt]. }
  rewrite SetParams_arc_arc_eq in Hc by auto.
  inversion Hc. repeat split; auto.
Qed.

(** X1: a line accepted by [SetParams] has kind LINE, stores the two given
    points as start and end, which [getStart] and [getEnd] return unswapped,
    lies in the plane z = 0 and has positive length. *)
Theorem SetParams_line_accepts
    (self s : IGES_GEOM_SEGMENT) (aStart aEnd : IGES_POINT) :
  SetParams_line self aStart aEnd = (true, s) ->
  msegtype s = SEGTYPE_LINE
  /\ mstart s = aStart /\ mend s = aEnd
  /\ getStart s = aStart /\ getEnd s = aEnd
  /\ pt_z (mstart s) = 0 /\ pt_z (mend s) = 0
  /\ 0 < dist2d (mstart s) (mend s).
Proof.
  intros Hc.
  assert (Hok : fst (SetParams_line self aStart aEnd) = true) by (rewrite Hc; reflexivity).
  assert (Hnf : ~ (0 <> pt_z aStart \/ 0 <> pt_z aEnd
                   \/ PointMatches aStart aEnd 1e-8 = true)).
  { intros Hf. apply (SetParams_line_fails_iff self aStart aEnd) in Hf. congruence. }
  assert (Hzs : pt_z aStart = 0) by (destruct (Req_dec_T 0 (pt_z aStart)); [auto|tauto]).
  assert (Hze : pt_z aEnd = 0) by (destruct (Req_dec_T 0 (pt_z aEnd)); [auto|tauto]).
  assert (Hm : PointMatches aStart aEnd 1e-8 = false)
    by (destruct (PointMatches aStart aEnd 1e-8); [tauto|reflexivity]).
  rewrite SetParams_line_eq in Hc by assumption.
  inversion Hc; subst s. cbn. repeat split; auto.
  rewrite dist2d_sym. apply (dist2d_pos aEnd aStart 1e-8); [lra|congruence|exact Hm].
Qed.

(** X1 at the line from (0,0) to (10,0). *)
Lemma SetParams_line_accepts_witness :
  let s := line_of (pt 0 0) (pt 10 0) in
  msegtype s = SEGTYPE_LINE
  /\ mstart s = pt 0 0 /\ mend s = pt 10 0
  /\ getStart s = pt 0 0 /\ getEnd s = pt 10 0
  /\ pt_z (mstart s) = 0 /\ pt_z (mend s) = 0
  /\ 0 < dist2d (mstart s) (mend s).
Proof.
  intros s.
  apply (SetParams_line_accepts unset s (pt 0 0) (pt 10 0)).
  unfold s, line_of. rewrite SetParams_line_eq; [reflexivity | reflexivity | reflexivity |].
  dbl_decide.
Defined.

(** X2: either overload of [SetParams] returns [true] exactly when it leaves
    the segment with a kind other than NONE, and what it returns and leaves
    behind does not depend on what the segment held before. *)
Theorem SetParams_ok_iff_kind (self : IGES_GEOM_SEGMENT) (args : SetParams_args) :
  (fst (SetParams self args) = true <->
   msegtype (snd (SetParams self args)) <> SEGTYPE_NONE)
  /\ SetParams self args = SetParams unset args.
Proof.
  split; [|destruct args; reflexivity].
  destruct args as [aStart aEnd | aCenter aStart aEnd isCW]; cbn [SetParams].
  - unfold SetParams_line.
    destruct (_ || _); [cbn; split; [discriminate|congruence]|].
    destruct (PointMatches aStart aEnd 1e-8); cbn; split;
      discriminate || congruence || auto.
  - unfold SetParams_arc.
    destruct (_ || _ || _); [cbn; split; [discriminate|congruence]|].
    destruct (PointMatches aCenter aStart 1e-8 || PointMatches aCenter aEnd 1e-8);
      [cbn; split; [discriminate|congruence]|].
    destruct (PointMatches aStart aEnd 1e-8); [cbn; split; [discriminate|auto]|].
    match goal with |- context [?a >? ?b] => destruct (a >? b) end;
      cbn; split; discriminate || congruence || auto.
Qed.

(** X3: an arc accepted by [SetParams] lies in the plane z = 0, keeps the
    given centre and end points, has a positive radius equal to the distance
    from the centre to the start, and its end is within 1e-3 of that radius
    from the centre. *)
Theorem SetParams_arc_accepts
    (self s : IGES_GEOM_SEGMENT) (aCenter aStart aEnd : IGES_POINT) (isCW : bool) :
  SetParams_arc self aCenter aStart aEnd isCW = (true, s) ->
  msegtype s = SEGTYPE_ARC ->
  mcenter s = aCenter /\ mstart s = aStart /\ mend s = aEnd /\ mCWArc s = isCW
  /\ pt_z (mcenter s) = 0 /\ pt_z (mstart s) = 0 /\ pt_z (mend s) = 0
  /\ 0 < mradius s
  /\ mradius s = dist2d (mstart s) (mcenter s)
  /\ Rabs (dist2d (mend s) (mcenter s) - mradius s) <= 1.0e-3.
Proof.
  intros Hc Hk.
  destruct (SetParams_arc_arc_inv self s aCenter aStart aEnd isCW Hc Hk)
    as (Hzc & Hzs & Hze & Hcs & Hce & Hse & Hr & ->).
  cbn. repeat split; auto.
  apply (dist2d_pos aStart aCenter 1e-8); [lra|congruence|exact Hcs].
Qed.

(** X4: on an arc accepted by [SetParams] the start angle lies in
    (-PI, PI] and the end angle is at or after it and less than one full
    turn later. *)
Theorem SetParams_arc_angles
    (self s : IGES_GEOM_SEGMENT) (aCenter aStart aEnd : IGES_POINT) (isCW : bool) :
  SetParams_arc self aCenter aStart aEnd isCW = (true, s) ->
  msegtype s = SEGTYPE_ARC ->
  - PI < getStartAngle s <= PI
  /\ getStartAngle s <= getEndAngle s < getStartAngle s + 2 * PI.
Proof.
  intros Hc Hk.
  destruct (SetParams_arc_arc_inv self s aCenter aStart aEnd isCW Hc Hk)
    as (_ & _ & _ & _ & _ & _ & _ & ->).
  unfold getStartAngle, getEndAngle. cbn [msang meang].
  set (sang := if isCW then angle_from aCenter aEnd else angle_from aCenter aStart).
  set (eang := if isCW then angle_from aCenter aStart else angle_from aCenter aEnd).
  assert (Hs : - PI < sang <= PI) by (unfold sang, angle_from; destruct isCW; apply atan2_bound).
  assert (He : - PI < eang <= PI) by (unfold eang, angle_from; destruct isCW; apply atan2_bound).
  split; [exact Hs|].
  destruct (wind_eang_cases eang sang He Hs) as [[Hle ->]|[Hlt ->]]; lra.
Qed.

(** The quarter arc from (5,0) to (0,5) about the origin, either way round,
    is accepted as an arc. *)
Lemma quarter_arc_accepted (cw : bool) :
  SetParams_arc unset (pt 0 0) (pt 5 0) (pt 0 5) cw
  = (true, arc_of (pt 0 0) (pt 5 0) (pt 0 5) cw).
Proof.
  assert (Hr : Rabs (dist2d (pt 0 5) (pt 0 0) - dist2d (pt 5 0) (pt 0 0)) <= 1.0e-3).
  { unfold dist2d. cbn [pt pt_x pt_y]. sqrt_to 5. sqrt_to 5. split_Rabs; lra. }
  unfold arc_of. rewrite SetParams_arc_arc_eq;
    [reflexivity | try reflexivity; try dbl_decide; exact Hr ..].
Qed.

(** X3 at the clockwise quarter arc from (5,0) to (0,5) about the origin. *)
Lemma SetParams_arc_accepts_witness :
  let s := arc_of (pt 0 0) (pt 5 0) (pt 0 5) true in
  mcenter s = pt 0 0 /\ mstart s = pt 5 0 /\ mend s = pt 0 5 /\ mCWArc s = true
  /\ pt_z (mcenter s) = 0 /\ pt_z (mstart s) = 0 /\ pt_z (mend s) = 0
  /\ 0 < mradius s
  /\ mradius s = dist2d (mstart s) (mcenter s)
  /\ Rabs (dist2d (mend s) (mcenter s) - mradius s) <= 1.0e-3.
Proof.
  intros s.
  exact (SetParams_arc_accepts unset s (pt 0 0) (pt 5 0) (pt 0 5) true
           (quarter_arc_accepted true)
           (proj1 (proj2 (quarter_arc_constructed true)))).
Defined.

(** X4 at the clockwise quarter arc from (5,0) to (0,5) about the origin. *)
Lemma SetParams_arc_angles_witness :
  let s := arc_of (pt 0 0) (pt 5 0) (pt 0 5) true in
  - PI < getStartAngle s <= PI
  /\ getStartAngle s <= getEndAngle s < getStartAngle s + 2 * PI.
Proof.
  intros s.
  exact (SetParams_arc_angles unset s (pt 0 0) (pt 5 0) (pt 0 5) true
           (quarter_arc_accepted true)
           (proj1 (proj2 (quarter_arc_constructed true)))).
Defined.

(** ** The shape of every outcome of [GetIntersections] *)

Lemma extends_by_fail (l : list IGES_POINT) (fl : IGES_INTERSECT_FLAG) :
  fl <> IGES_IFLAG_EDGE -> extends_by l (false, l, fl).
Proof.
  intros Hfl. exists []. cbn. rewrite app_nil_r.
  repeat split; auto; try discriminate; try (intros H; contradiction).
Qed.

Lemma extends_by_one (l : list IGES_POINT) (p : IGES_POINT) :
  extends_by l (true, l ++ [p], IGES_IFLAG_NONE).
Proof.
  exists [p]. cbn. repeat split; auto; try discriminate; try (intros H; contradiction).
Qed.

Lemma extends_by_two (l : list IGES_POINT) (p q : IGES_POINT) :
  extends_by l (true, l ++ [p] ++ [q], IGES_IFLAG_NONE).
Proof.
  exists [p; q]. cbn. repeat split; auto; try discriminate; try (intros H; contradiction).
Qed.

(** Close a leaf of a worker. *)
Ltac shape_leaf :=
  first [ apply extends_by_fail; discriminate
        | apply extends_by_one
        | apply extends_by_two ].

Lemma checkCircles_shape (s1 s2 : IGES_GEOM_SEGMENT) (l : list IGES_POINT) :
  extends_by l (checkCircles s1 s2 l IGES_IFLAG_NONE).
Proof.
  unfold checkCircles.
  destruct (calcCircleIntercepts _ _ _ _) as [p1 p2].
  repeat match goal with
    | |- context [if ?c then _ else _] => destruct c
    end; shape_leaf.
Qed.

Lemma checkArcLine_shape (pt_default : IGES_POINT) (ang_uninit : array R)
    (s1 s2 : IGES_GEOM_SEGMENT) (l : list IGES_POINT) (f : IGES_INTERSECT_FLAG) :
  extends_by l (checkArcLine pt_default ang_uninit s1 s2 l f).
Proof.
  unfold checkArcLine.
  destruct (kept_roots pt_default (arc_line_read s1 s2)) as [p np].
  destruct (filter_arc pt_default (arc_line_read s1 s2) p
              (fill_ang ang_uninit (arc_line_read s1 s2) p np) np) as [pt np2].
  repeat match goal with
    | |- context [if ?c then _ else _] => destruct c
    end; shape_leaf.
Qed.

(** X5: whatever the two segments, [GetIntersections] only appends to the
    caller's list, appends at most two points, returns [true] exactly when it
    appended at least one, sets a flag other than None only together with
    failure, and never sets the EdgeOverlap flag. *)
Theorem GetIntersections_shape (pt_default : IGES_POINT) (ang_uninit : array R)
    (s1 s2 : IGES_GEOM_SEGMENT) (l : list IGES_POINT) (f : IGES_INTERSECT_FLAG) :
  extends_by l (GetIntersections pt_default ang_uninit s1 s2 l f).
Proof.
  unfold GetIntersections, checkArcs, checkLines.
  repeat match goal with
    | |- context [if SEGTYPE_eqb ?a ?b then _ else _] => destruct (SEGTYPE_eqb a b)
    end;
    first [ apply extends_by_fail; discriminate
          | apply checkCircles_shape
          | apply checkArcLine_shape ].
Qed.

(** ** Segments that hold nothing *)

Lemma SetParams_fail_kind (self : IGES_GEOM_SEGMENT) (args : SetParams_args) :
  fst (SetParams self args) = false ->
  msegtype (snd (SetParams self args)) = SEGTYPE_NONE.
Proof.
  destruct args as [aStart aEnd | aCenter aStart aEnd isCW]; cbn [SetParams].
  - unfold SetParams_line.
    destruct (_ || _); [reflexivity|].
    destruct (PointMatches aStart aEnd 1e-8); [reflexivity|discriminate].
  - unfold SetParams_arc.
    destruct (_ || _ || _); [reflexivity|].
    destruct (PointMatches aCenter aStart 1e-8 || PointMatches aCenter aEnd 1e-8);
      [reflexivity|].
    destruct (PointMatches aStart aEnd 1e-8); [discriminate|].
    match goal with |- context [?a >? ?b] => destruct (a >? b) end;
      [reflexivity|discriminate].
Qed.

(** X6: a segment left behind by a failed [SetParams] is refused by every
    operation: [GetIntersections] fails with flag None and the list
    untouched whether the segment is the receiver or the argument, whatever
    the other segment is, and [GetBoundingBox] fails with both corner points
    untouched. *)
Theorem failed_segment_refused (pt_default : IGES_POINT) (ang_uninit : array R)
    (self other : IGES_GEOM_SEGMENT) (args : SetParams_args)
    (l : list IGES_POINT) (f : IGES_INTERSECT_FLAG) (p0 p1 : IGES_POINT) :
  fst (SetParams self args) = false ->
  let s := snd (SetParams self args) in
  GetIntersections pt_default ang_uninit s other l f = (false, l, IGES_IFLAG_NONE)
  /\ GetIntersections pt_default ang_uninit other s l f = (false, l, IGES_IFLAG_NONE)
  /\ GetBoundingBox pt_default s p0 p1 = (false, p0, p1).
Proof.
  intros Hfail s. pose proof (SetParams_fail_kind self args Hfail) as Hk.
  fold s in Hk. unfold GetIntersections, GetBoundingBox, getSegType.
  rewrite Hk. cbn [SEGTYPE_eqb].
  repeat split; try reflexivity.
  destruct (msegtype other); reflexivity.
Qed.

(** X6 at a line whose two ends are the same point, against the circle of
    radius 5 about the origin. *)
Lemma failed_segment_refused_witness :
  let s := snd (SetParams unset (LineArgs (pt 1 1) (pt 1 1))) in
  let other := circle_at (pt 0 0) 5 in
  GetIntersections (pt 0 0) (fun _ => 0) s other [] IGES_IFLAG_TANGENT
  = (false, [], IGES_IFLAG_NONE)
  /\ GetIntersections (pt 0 0) (fun _ => 0) other s [] IGES_IFLAG_TANGENT
     = (false, [], IGES_IFLAG_NONE)
  /\ GetBoundingBox (pt 0 0) s (pt 7 7) (pt 8 8) = (false, pt 7 7, pt 8 8).
Proof.
  apply (failed_segment_refused (pt 0 0) (fun _ => 0) unset (circle_at (pt 0 0) 5)
           (LineArgs (pt 1 1) (pt 1 1)) [] IGES_IFLAG_TANGENT (pt 7 7) (pt 8 8)).
  cbn [SetParams]. unfold SetParams_line.
  replace (_ || _) with false by (symmetry; dbl_decide).
  rewrite PointMatches_refl by lra. reflexivity.
Defined.

(** ** Two circles, seen from either side *)

Lemma PointMatches_sym (p q : IGES_POINT) (eps : R) :
  PointMatches p q eps = PointMatches q p eps.
Proof.
  unfold PointMatches.
  rewrite (Rabs_minus_sym (pt_x p)), (Rabs_minus_sym (pt_y p)), (Rabs_minus_sym (pt_z p)).
  reflexivity.
Qed.

(** X7: for two constructed circles, exchanging receiver and argument of
    [GetIntersections] keeps the returned boolean and the number of points
    appended, and mirrors the flag: OtherInsideSegment (ENCIRCLES) and
    SegmentInsideOther (INSIDE) trade places, every other flag stays. *)
Theorem GetIntersections_circles_mirror
    (pt_default : IGES_POINT) (ang_uninit : array R)
    (s1 s2 : IGES_GEOM_SEGMENT) (l : list IGES_POINT) (f : IGES_INTERSECT_FLAG) :
  constructed s1 -> msegtype s1 = SEGTYPE_CIRCLE ->
  constructed s2 -> msegtype s2 = SEGTYPE_CIRCLE ->
  let o12 := GetIntersections pt_default ang_uninit s1 s2 l f in
  let o21 := GetIntersections pt_default ang_uninit s2 s1 l f in
  out_ok o21 = out_ok o12
  /\ length (out_points o21) = length (out_points o12)
  /\ out_flag o21 = mirror_flag (out_flag o12).
Proof.
  intros Hc1 Hk1 Hc2 Hk2 o12 o21. subst o12 o21.
  destruct (constructed_circle_inv s1 Hc1 Hk1) as (Hr1 & Hz1 & _).
  destruct (constructed_circle_inv s2 Hc2 Hk2) as (Hr2 & Hz2 & _).
  rewrite !GetIntersections_circles by assumption.
  assert (Hboth : dist2d (mcenter s1) (mcenter s2) <= mradius s1 - mradius s2 ->
                  dist2d (mcenter s1) (mcenter s2) <= mradius s2 - mradius s1 ->
                  circles_coincide s1 s2).
  { intros Ha Hb.
    assert (0 <= dist2d (mcenter s1) (mcenter s2)) by (unfold dist2d; apply sqrt_pos).
    apply circles_coincide_of_zero; auto; lra. }
  unfold checkCircles, getCenter, getRadius.
  fold (dist2d (mcenter s1) (mcenter s2)). fold (dist2d (mcenter s2) (mcenter s1)).
  rewrite (dist2d_sym (mcenter s2) (mcenter s1)).
  rewrite (PointMatches_sym (mcenter s2) (mcenter s1)).
  rewrite (Rabs_minus_sym (mradius s2) (mradius s1)).
  rewrite (Rplus_comm (mradius s2) (mradius s1)).
  replace (dist2d (mcenter s1) (mcenter s2) - mradius s2 - mradius s1)
    with (dist2d (mcenter s1) (mcenter s2) - mradius s1 - mradius s2) by ring.
  set (d := dist2d (mcenter s1) (mcenter s2)) in *.
  destruct (calcCircleIntercepts s1 (mcenter s2) (mradius s2) d) as [p1 p2].
  destruct (calcCircleIntercepts s2 (mcenter s1) (mradius s1) d) as [q1 q2].
  destruct (d >? mradius s1 + mradius s2); [repeat split; reflexivity|].
  destruct (circles_coincide_spec s1 s2) as [Hid|Hnid]; [repeat split; reflexivity|].
  destruct (Rabs (d - mradius s1 - mradius s2) <? 0.001); [repeat split; reflexivity|].
  rewrite (orb_comm (d <? mradius s2) (d <? mradius s1)).
  destruct ((d <? mradius s1) || (d <? mradius s2));
    [|cbn; rewrite !length_app; repeat split; reflexivity].
  destruct (Rleb_spec d (mradius s1 - mradius s2)) as [Ha|Ha];
    destruct (Rleb_spec d (mradius s2 - mradius s1)) as [Hb|Hb];
    try (exfalso; apply Hnid; apply Hboth; assumption);
    cbn; rewrite ?length_app; repeat split; reflexivity.
Qed.

(** X7 at scenario S3: the circle of radius 2 is inside the concentric circle
    of radius 5, which encircles it. *)
Lemma GetIntersections_circles_mirror_witness :
  let o12 := GetIntersections (pt 0 0) (fun _ => 0)
               (circle_at (pt 0 0) 2) (circle_at (pt 0 0) 5) [] IGES_IFLAG_NONE in
  let o21 := GetIntersections (pt 0 0) (fun _ => 0)
               (circle_at (pt 0 0) 5) (circle_at (pt 0 0) 2) [] IGES_IFLAG_NONE in
  out_ok o21 = out_ok o12
  /\ length (out_points o21) = length (out_points o12)
  /\ out_flag o21 = mirror_flag (out_flag o12).
Proof.
  assert (H2 : 1e-8 <= 2) by lra. assert (H5 : 1e-8 <= 5) by lra.
  exact (GetIntersections_circles_mirror (pt 0 0) (fun _ => 0)
           (circle_at (pt 0 0) 2) (circle_at (pt 0 0) 5) [] IGES_IFLAG_NONE
           (proj1 (constructed_circle_at 0 0 2 H2))
           (proj2 (constructed_circle_at 0 0 2 H2))
           (proj1 (constructed_circle_at 0 0 5 H5))
           (proj2 (constructed_circle_at 0 0 5 H5))).
Defined.

(** ** The two points of [calcCircleIntercepts] *)

Lemma on_circle_sq (c p : IGES_POINT) (r : R) :
  0 <= r ->
  (pt_x p - pt_x c) * (pt_x p - pt_x c) + (pt_y p - pt_y c) * (pt_y p - pt_y c) = r * r ->
  on_circle c r p.
Proof. intros Hr Hsq. unfold on_circle, dist2d. apply sqrt_sq; assumption. Qed.

(** The arithmetic of the construction when the centres [(cx,cy)] and
    [(ex,ey)] share a coordinate: the point at [a] along the line of centres
    and [h] across it, both as fractions of [d]. *)
Lemma foot_offset_aligned (cx cy ex ey r1 r2 d a h : R) :
  d * d = (ex - cx) * (ex - cx) + (ey - cy) * (ey - cy) ->
  ey = cy \/ ex = cx ->
  (a * d) * (a * d) + (h * d) * (h * d) = r1 * r1 ->
  2 * d * (a * d) = d * d - r2 * r2 + r1 * r1 ->
  let X := a * (ex - cx) + cx + h * (ey - cy) in
  let Y := a * (ey - cy) + cy + h * (ex - cx) in
  (X - cx) * (X - cx) + (Y - cy) * (Y - cy) = r1 * r1
  /\ (X - ex) * (X - ex) + (Y - ey) * (Y - ey) = r2 * r2.
Proof.
  intros Hd Hal H1 H2 X Y. subst X Y.
  destruct Hal as [-> | ->].
  - assert (Hdx : (ex - cx) * (ex - cx) = d * d) by (rewrite Hd; ring).
    split.
    + replace ((a * (ex - cx) + cx + h * (cy - cy) - cx)
               * (a * (ex - cx) + cx + h * (cy - cy) - cx)
               + (a * (cy - cy) + cy + h * (ex - cx) - cy)
                 * (a * (cy - cy) + cy + h * (ex - cx) - cy))
        with ((a * a + h * h) * ((ex - cx) * (ex - cx))) by ring.
      rewrite Hdx, <- H1. ring.
    + replace ((a * (ex - cx) + cx + h * (cy - cy) - ex)
               * (a * (ex - cx) + cx + h * (cy - cy) - ex)
               + (a * (cy - cy) + cy + h * (ex - cx) - cy)
                 * (a * (cy - cy) + cy + h * (ex - cx) - cy))
        with (((a - 1) * (a - 1) + h * h) * ((ex - cx) * (ex - cx))) by ring.
      rewrite Hdx.
      replace (((a - 1) * (a - 1) + h * h) * (d * d))
        with ((a * d) * (a * d) + (h * d) * (h * d) - 2 * d * (a * d) + d * d) by ring.
      rewrite H1, H2. ring.
  - assert (Hdy : (ey - cy) * (ey - cy) = d * d) by (rewrite Hd; ring).
    split.
    + replace ((a * (cx - cx) + cx + h * (ey - cy) - cx)
               * (a * (cx - cx) + cx + h * (ey - cy) - cx)
               + (a * (ey - cy) + cy + h * (cx - cx) - cy)
                 * (a * (ey - cy) + cy + h * (cx - cx) - cy))
        with ((a * a + h * h) * ((ey - cy) * (ey - cy))) by ring.
      rewrite Hdy, <- H1. ring.
    + replace ((a * (cx - cx) + cx + h * (ey - cy) - cx)
               * (a * (cx - cx) + cx + h * (ey - cy) - cx)
               + (a * (ey - cy) + cy + h * (cx - cx) - ey)
                 * (a * (ey - cy) + cy + h * (cx - cx) - ey))
        with (((a - 1) * (a - 1) + h * h) * ((ey - cy) * (ey - cy))) by ring.
      rewrite Hdy.
      replace (((a - 1) * (a - 1) + h * h) * (d * d))
        with ((a * d) * (a * d) + (h * d) * (h * d) - 2 * d * (a * d) + d * d) by ring.
      rewrite H1, H2. ring.
Qed.

(** The radicand of [calcCircleIntercepts] is not negative when the circles
    cross. *)
Lemma radicand_nonneg (r1 r2 d : R) :
  0 < d -> 0 <= r1 -> 0 <= r2 -> Rabs (r1 - r2) <= d -> d <= r1 + r2 ->
  0 <= r1 * r1 - (d * d - r2 * r2 + r1 * r1) / (2.0 * d)
                 * ((d * d - r2 * r2 + r1 * r1) / (2.0 * d)).
Proof.
  intros Hd Hr1 Hr2 Hlo Hhi.
  assert (Hlo' : r1 - r2 <= d /\ r2 - r1 <= d) by (revert Hlo; split_Rabs; lra).
  set (Q := r1 * r1 - (d * d - r2 * r2 + r1 * r1) / (2.0 * d)
                      * ((d * d - r2 * r2 + r1 * r1) / (2.0 * d))).
  assert (HQ : Q * (4 * (d * d))
               = (r2 * r2 - (d - r1) * (d - r1)) * ((d + r1) * (d + r1) - r2 * r2))
    by (unfold Q; replace 2.0 with 2 by lra; field; lra).
  assert (Hf1 : 0 <= r2 * r2 - (d - r1) * (d - r1)) by nra.
  assert (Hf2 : 0 <= (d + r1) * (d + r1) - r2 * r2) by nra.
  assert (Hp : 0 <= Q * (4 * (d * d))) by (rewrite HQ; apply Rmult_le_pos; assumption).
  assert (Hdd : 0 < 4 * (d * d)) by nra.
  destruct (Rle_dec 0 Q) as [|Hneg]; [assumption|]. exfalso.
  assert (Q < 0) by lra. nra.
Qed.

(** Both points of [calcCircleIntercepts] lie on both circles when the
    centres share a coordinate and the circles cross. *)
Lemma calcCircleIntercepts_aligned (s1 : IGES_GEOM_SEGMENT) (c2 : IGES_POINT) (r2 d : R) :
  d = dist2d (mcenter s1) c2 -> 0 < d -> 0 <= mradius s1 -> 0 <= r2 ->
  Rabs (mradius s1 - r2) <= d -> d <= mradius s1 + r2 ->
  pt_y c2 = pt_y (mcenter s1) \/ pt_x c2 = pt_x (mcenter s1) ->
  on_circle (mcenter s1) (mradius s1) (fst (calcCircleIntercepts s1 c2 r2 d))
  /\ on_circle c2 r2 (fst (calcCircleIntercepts s1 c2 r2 d))
  /\ on_circle (mcenter s1) (mradius s1) (snd (calcCircleIntercepts s1 c2 r2 d))
  /\ on_circle c2 r2 (snd (calcCircleIntercepts s1 c2 r2 d)).
Proof.
  intros Hd Hd0 Hr1 Hr2 Hlo Hhi Hal.
  set (r1 := mradius s1) in *.
  set (cx := pt_x (mcenter s1)) in *. set (cy := pt_y (mcenter s1)) in *.
  set (ex := pt_x c2) in *. set (ey := pt_y c2) in *.
  set (rd := (d * d - r2 * r2 + r1 * r1) / (2.0 * d)).
  set (S := sqrt (r1 * r1 - rd * rd)).
  assert (HS : S * S = r1 * r1 - rd * rd)
    by (apply sqrt_def; apply radicand_nonneg; assumption).
  assert (Hdd : d * d = (ex - cx) * (ex - cx) + (ey - cy) * (ey - cy)).
  { rewrite Hd. unfold dist2d. fold cx cy ex ey. rewrite sqrt_def.
    - ring.
    - pose proof (Rle_0_sqr (cx - ex)) as Hx. pose proof (Rle_0_sqr (cy - ey)) as Hy.
      unfold Rsqr in Hx, Hy. lra. }
  assert (Hrd : rd / d * d = rd) by (field; lra).
  assert (Hh : S / d * d = S) by (field; lra).
  assert (Hnh : - (S / d) * d = - S) by (field; lra).
  assert (H2 : 2 * d * (rd / d * d) = d * d - r2 * r2 + r1 * r1)
    by (rewrite Hrd; unfold rd; replace 2.0 with 2 by lra; field; lra).
  destruct (foot_offset_aligned cx cy ex ey r1 r2 d (rd / d) (S / d) Hdd Hal)
    as [Ha1 Ha2]; [rewrite Hrd, Hh, HS; ring | exact H2 |].
  destruct (foot_offset_aligned cx cy ex ey r1 r2 d (rd / d) (- (S / d)) Hdd Hal)
    as [Hb1 Hb2]; [rewrite Hrd, Hnh; replace (- S * - S) with (S * S) by ring;
                   rewrite HS; ring | exact H2 |].
  cbv zeta in Ha1, Ha2, Hb1, Hb2.
  rewrite (calcCircleIntercepts_eq s1 c2 r2 d rd (S / d) _ _ _ _ _ _
             eq_refl eq_refl eq_refl eq_refl eq_refl eq_refl eq_refl eq_refl).
  fold cx cy ex ey.
  match goal with |- context [if ?c then _ else _] => destruct c end;
    cbn [fst snd]; repeat split; apply on_circle_sq; try assumption;
    cbn [pt_x pt_y]; fold cx cy ex ey;
    first [ exact Ha1 | exact Ha2
          | rewrite <- Hb1; ring | rewrite <- Hb2; ring ].
Qed.

(** The two points come in ascending order of the angle seen from the first
    centre, the angle taken in [0, 2 PI). *)
Lemma calcCircleIntercepts_ascending (s1 : IGES_GEOM_SEGMENT) (c2 : IGES_POINT) (r2 d : R) :
  norm_angle (angle_from (mcenter s1) (fst (calcCircleIntercepts s1 c2 r2 d)))
  <= norm_angle (angle_from (mcenter s1) (snd (calcCircleIntercepts s1 c2 r2 d))).
Proof.
  rewrite (calcCircleIntercepts_eq s1 c2 r2 d _ _ _ _ _ _ _ _
             eq_refl eq_refl eq_refl eq_refl eq_refl eq_refl eq_refl eq_refl).
  match goal with
  | |- context [atan2 ?y0 ?x0 >? atan2 ?y1 ?x1] =>
      set (a0 := atan2 y0 x0); set (a1 := atan2 y1 x1);
      pose proof (atan2_bound y0 x0) as B0; pose proof (atan2_bound y1 x1) as B1
  end.
  fold a0 in B0. fold a1 in B1. pose proof PI_RGT_0 as Hpi.
  destruct (Rgeb_spec a0 0.0) as [P0|P0]; destruct (Rgeb_spec a1 0.0) as [P1|P1];
    destruct (Rgtb_spec a0 a1) as [G|G];
    destruct (Rltb_spec a0 0.0) as [N0|N0]; destruct (Rltb_spec a1 0.0) as [N1|N1];
    try lra; cbn [andb orb fst snd];
    unfold angle_from; cbn [pt_x pt_y]; fold a0 a1; unfold norm_angle;
    destruct (Rltb_spec a0 0); destruct (Rltb_spec a1 0); lra.
Qed.

(** X8: when two constructed circles whose centres share an x or a y
    coordinate are intersected successfully, exactly two points come back
    and each of them lies on both circles. *)
Theorem aligned_circles_points_on_both
    (pt_default : IGES_POINT) (ang_uninit : array R)
    (s1 s2 : IGES_GEOM_SEGMENT) (f fl : IGES_INTERSECT_FLAG) (pts : list IGES_POINT) :
  constructed s1 -> msegtype s1 = SEGTYPE_CIRCLE ->
  constructed s2 -> msegtype s2 = SEGTYPE_CIRCLE ->
  pt_y (mcenter s2) = pt_y (mcenter s1) \/ pt_x (mcenter s2) = pt_x (mcenter s1) ->
  GetIntersections pt_default ang_uninit s1 s2 [] f = (true, pts, fl) ->
  exists p1 p2 : IGES_POINT,
    pts = [p1; p2]
    /\ on_circle (mcenter s1) (mradius s1) p1 /\ on_circle (mcenter s2) (mradius s2) p1
    /\ on_circle (mcenter s1) (mradius s1) p2 /\ on_circle (mcenter s2) (mradius s2) p2.
Proof.
  intros Hc1 Hk1 Hc2 Hk2 Hal Hres.
  destruct (constructed_circle_inv s1 Hc1 Hk1) as (Hr1 & Hz1 & _).
  destruct (constructed_circle_inv s2 Hc2 Hk2) as (Hr2 & Hz2 & _).
  rewrite GetIntersections_circles in Hres by assumption.
  unfold checkCircles, getCenter, getRadius in Hres.
  fold (dist2d (mcenter s1) (mcenter s2)) in Hres.
  set (d := dist2d (mcenter s1) (mcenter s2)) in *.
  assert (Hd0 : 0 <= d) by (unfold d, dist2d; apply sqrt_pos).
  destruct (Rgtb_spec d (mradius s1 + mradius s2)) as [|Hnear]; [discriminate|].
  destruct (PointMatches (mcenter s1) (mcenter s2) 0.001
            && (Rabs (mradius s1 - mradius s2) <? 0.001)); [discriminate|].
  destruct (Rabs (d - mradius s1 - mradius s2) <? 0.001); [discriminate|].
  assert (Hcross : 0 < d /\ Rabs (mradius s1 - mradius s2) <= d
                   /\ (true, [] ++ [fst (calcCircleIntercepts s1 (mcenter s2) (mradius s2) d)]
                              ++ [snd (calcCircleIntercepts s1 (mcenter s2) (mradius s2) d)],
                       IGES_IFLAG_NONE) = (true, pts, fl)).
  { destruct (calcCircleIntercepts s1 (mcenter s2) (mradius s2) d) as [p1 p2].
    cbn [fst snd].
    destruct (Rltb_spec d (mradius s1)) as [Hlt1|Hge1];
      destruct (Rltb_spec d (mradius s2)) as [Hlt2|Hge2]; cbn [orb] in Hres;
      try (destruct (Rleb_spec d (mradius s1 - mradius s2)) as [|Hnen]; [discriminate|];
           destruct (Rleb_spec d (mradius s2 - mradius s1)) as [|Hnin]; [discriminate|]);
      (split; [lra|]); (split; [split_Rabs; lra|]); exact Hres. }
  destruct Hcross as (Hdpos & Hlo & Heq).
  inversion Heq as [[Hpts Hfl]].
  destruct (calcCircleIntercepts_aligned s1 (mcenter s2) (mradius s2) d)
    as (A1 & A2 & A3 & A4); try assumption; try lra; try reflexivity.
  cbn [app].
  eexists _, _. split; [reflexivity|]. repeat split; assumption.
Qed.

(** X8 at the circles of radius 5 about (0,0) and (6,0), which cross at
    (3,4) and (3,-4). *)
Lemma aligned_circles_points_on_both_witness :
  let s1 := circle_at (pt 0 0) 5 in
  let s2 := circle_at (pt 6 0) 5 in
  exists p1 p2 : IGES_POINT,
    out_points (GetIntersections (pt 0 0) (fun _ => 0) s1 s2 [] IGES_IFLAG_NONE) = [p1; p2]
    /\ on_circle (mcenter s1) (mradius s1) p1 /\ on_circle (mcenter s2) (mradius s2) p1
    /\ on_circle (mcenter s1) (mradius s1) p2 /\ on_circle (mcenter s2) (mradius s2) p2.
Proof.
  intros s1 s2.
  assert (H5 : 1e-8 <= 5) by lra.
  assert (Hal : pt_y (mcenter s2) = pt_y (mcenter s1) \/ pt_x (mcenter s2) = pt_x (mcenter s1)).
  { left. unfold s1, s2. rewrite !circle_at_eq by exact H5. reflexivity. }
  assert (Hok : out_ok (GetIntersections (pt 0 0) (fun _ => 0) s1 s2 [] IGES_IFLAG_NONE)
                = true).
  { unfold s1, s2.
    rewrite GetIntersections_circles by (apply constructed_circle_at; exact H5).
    rewrite !circle_at_eq by exact H5.
    unfold checkCircles, getCenter, getRadius. cbn [mcenter mradius pt pt_x pt_y].
    sqrt_to 6.
    replace (6 >? 5 + 5) with false by (symmetry; dbl_decide).
    replace (PointMatches _ _ _) with false by (symmetry; dbl_decide).
    cbn [andb].
    replace (Rabs (6 - 5 - 5) <? 0.001) with false by (symmetry; dbl_decide).
    replace (6 <? 5) with false by (symmetry; dbl_decide).
    cbn [orb]. destruct (calcCircleIntercepts _ _ _ _). reflexivity. }
  destruct (GetIntersections (pt 0 0) (fun _ => 0) s1 s2 [] IGES_IFLAG_NONE)
    as [[ok pts] fl] eqn:Hres.
  cbn [out_ok out_points fst snd] in *. subst ok.
  exact (aligned_circles_points_on_both (pt 0 0) (fun _ => 0) s1 s2
           IGES_IFLAG_NONE fl pts
           (proj1 (constructed_circle_at 0 0 5 H5))
           (proj2 (constructed_circle_at 0 0 5 H5))
           (proj1 (constructed_circle_at 6 0 5 H5))
           (proj2 (constructed_circle_at 6 0 5 H5))
           Hal Hres).
Defined.

(** X9: when the intersection of two circles succeeds, the two points come
    back in ascending order of their angle about the first centre, the angle
    taken in [0, 2 PI): counterclockwise from the positive x direction. *)
Theorem circle_points_ascending
    (pt_default : IGES_POINT) (ang_uninit : array R)
    (s1 s2 : IGES_GEOM_SEGMENT) (f fl : IGES_INTERSECT_FLAG) (pts : list IGES_POINT) :
  msegtype s1 = SEGTYPE_CIRCLE -> msegtype s2 = SEGTYPE_CIRCLE ->
  GetIntersections pt_default ang_uninit s1 s2 [] f = (true, pts, fl) ->
  exists p1 p2 : IGES_POINT,
    pts = [p1; p2]
    /\ pt_z p1 = 0 /\ pt_z p2 = 0
    /\ norm_angle (angle_from (mcenter s1) p1) <= norm_angle (angle_from (mcenter s1) p2).
Proof.
  intros Hk1 Hk2 Hres.
  rewrite GetIntersections_circles in Hres by assumption.
  unfold checkCircles, getCenter, getRadius in Hres.
  fold (dist2d (mcenter s1) (mcenter s2)) in Hres.
  set (d := dist2d (mcenter s1) (mcenter s2)) in *.
  pose proof (calcCircleIntercepts_ascending s1 (mcenter s2) (mradius s2) d) as Hasc.
  assert (Hz : pt_z (fst (calcCircleIntercepts s1 (mcenter s2) (mradius s2) d)) = 0
               /\ pt_z (snd (calcCircleIntercepts s1 (mcenter s2) (mradius s2) d)) = 0).
  { unfold calcCircleIntercepts.
    match goal with |- context [if ?c then _ else _] => destruct c end;
      cbn [fst snd pt_z]; lra. }
  destruct (calcCircleIntercepts s1 (mcenter s2) (mradius s2) d) as [p1 p2].
  cbn [fst snd] in Hasc, Hz.
  exists p1, p2.
  repeat match type of Hres with
    | context [if ?c then _ else _] => destruct c; try discriminate
    end;
    inversion Hres; cbn [app]; repeat split; tauto.
Qed.

(** X9 at the circles of radius 5 about (0,0) and (6,0). *)
Lemma circle_points_ascending_witness :
  let s1 := circle_at (pt 0 0) 5 in
  let s2 := circle_at (pt 6 0) 5 in
  exists p1 p2 : IGES_POINT,
    out_points (GetIntersections (pt 0 0) (fun _ => 0) s1 s2 [] IGES_IFLAG_NONE) = [p1; p2]
    /\ pt_z p1 = 0 /\ pt_z p2 = 0
    /\ norm_angle (angle_from (mcenter s1) p1) <= norm_angle (angle_from (mcenter s1) p2).
Proof.
  intros s1 s2.
  assert (H5 : 1e-8 <= 5) by lra.
  assert (Hok : out_ok (GetIntersections (pt 0 0) (fun _ => 0) s1 s2 [] IGES_IFLAG_NONE)
                = true).
  { unfold s1, s2.
    rewrite GetIntersections_circles by (apply constructed_circle_at; exact H5).
    rewrite !circle_at_eq by exact H5.
    unfold checkCircles, getCenter, getRadius. cbn [mcenter mradius pt pt_x pt_y].
    sqrt_to 6.
    replace (6 >? 5 + 5) with false by (symmetry; dbl_decide).
    replace (PointMatches _ _ _) with false by (symmetry; dbl_decide).
    cbn [andb].
    replace (Rabs (6 - 5 - 5) <? 0.001) with false by (symmetry; dbl_decide).
    replace (6 <? 5) with false by (symmetry; dbl_decide).
    cbn [orb]. destruct (calcCircleIntercepts _ _ _ _). reflexivity. }
  destruct (GetIntersections (pt 0 0) (fun _ => 0) s1 s2 [] IGES_IFLAG_NONE)
    as [[ok pts] fl] eqn:Hres.
  cbn [out_ok out_points fst snd] in *. subst ok.
  exact (circle_points_ascending (pt 0 0) (fun _ => 0) s1 s2
           IGES_IFLAG_NONE fl pts
           (proj2 (constructed_circle_at 0 0 5 H5))
           (proj2 (constructed_circle_at 6 0 5 H5))
           Hres).
Defined.

(** ** The roots kept by [checkArcLine] *)

(** What construction guarantees of a line. *)
Lemma constructed_line_inv (s : IGES_GEOM_SEGMENT) :
  constructed s -> msegtype s = SEGTYPE_LINE ->
  mCWArc s = false /\ pt_z (mstart s) = 0 /\ pt_z (mend s) = 0
  /\ 0 < dist2d (mstart s) (mend s).
Proof.
  intros (self & args & Hc) Hk.
  destruct args as [aStart aEnd | aCenter aStart aEnd isCW]; cbn [SetParams] in Hc.
  - assert (Hnf : ~ (0 <> pt_z aStart \/ 0 <> pt_z aEnd
                     \/ PointMatches aStart aEnd 1e-8 = true)).
    { intros Hf. apply (SetParams_line_fails_iff self aStart aEnd) in Hf.
      rewrite Hc in Hf. discriminate Hf. }
    assert (Hzs : pt_z aStart = 0) by (destruct (Req_dec_T 0 (pt_z aStart)); [auto|tauto]).
    assert (Hze : pt_z aEnd = 0) by (destruct (Req_dec_T 0 (pt_z aEnd)); [auto|tauto]).
    assert (Hm : PointMatches aStart aEnd 1e-8 = false)
      by (destruct (PointMatches aStart aEnd 1e-8); [tauto|reflexivity]).
    rewrite SetParams_line_eq in Hc by assumption.
    inversion Hc; subst s. cbn. repeat split; auto.
    rewrite dist2d_sym. apply (dist2d_pos aEnd aStart 1e-8); [lra|congruence|exact Hm].
  - exfalso. unfold SetParams_arc in Hc.
    destruct (_ || _ || _); [discriminate|].
    destruct (PointMatches aCenter aStart 1e-8 || PointMatches aCenter aEnd 1e-8);
      [discriminate|].
    destruct (PointMatches aStart aEnd 1e-8).
    + inversion Hc; subst s. discriminate Hk.
    + match type of Hc with context [?a >? ?b] => destruct (a >? b) end;
        [discriminate|].
      inversion Hc; subst s. discriminate Hk.
Qed.

(** The quadratic is the squared distance to the centre minus the squared
    radius, along the line. *)
Lemma quadratic_is_distance (q : arc_line_params) (t : R) (slot : IGES_POINT) :
  (pt_x (line_at q t slot) - pt_x (arcC q)) * (pt_x (line_at q t slot) - pt_x (arcC q))
  + (pt_y (line_at q t slot) - pt_y (arcC q)) * (pt_y (line_at q t slot) - pt_y (arcC q))
  - arcR q * arcR q
  = quad_A q * (t * t) + quad_B q * t + quad_C q.
Proof.
  unfold quad_A, quad_B, quad_C, line_at. cbn [set_x set_y pt_x pt_y].
  replace 2.0 with 2 by lra. replace 1.0 with 1 by lra. ring.
Qed.

(** Both values computed for [t] are roots of the quadratic. *)
Lemma quadratic_roots (A B C D : R) (sg : R) :
  A <> 0 -> 0 <= D -> D = B * B - 4.0 * A * C -> sg * sg = 1 ->
  let t := (- B + sg * sqrt D) / (2.0 * A) in
  A * (t * t) + B * t + C = 0.
Proof.
  intros HA HD HDeq Hsg t. subst t.
  pose proof (sqrt_def D HD) as HS. set (S := sqrt D) in *.
  replace 4.0 with 4 in HDeq by lra. replace 2.0 with 2 by lra.
  replace (A * ((- B + sg * S) / (2 * A) * ((- B + sg * S) / (2 * A)))
           + B * ((- B + sg * S) / (2 * A)) + C)
    with (((sg * sg) * (S * S) - B * B + 4 * A * C) / (4 * A)) by (field; exact HA).
  rewrite Hsg, HS, HDeq. field. exact HA.
Qed.

(** A root of the quadratic gives a point on the circle. *)
Lemma root_on_circle (q : arc_line_params) (t : R) (slot : IGES_POINT) :
  0 <= arcR q ->
  quad_A q * (t * t) + quad_B q * t + quad_C q = 0 ->
  on_circle (arcC q) (arcR q) (line_at q t slot).
Proof.
  intros HR Hroot. apply on_circle_sq; [exact HR|].
  pose proof (quadratic_is_distance q t slot) as Hq. lra.
Qed.

(** A parameter in [0, 1] gives a point on the segment. *)
Lemma line_at_on_segment (q : arc_line_params) (t : R) (slot : IGES_POINT) :
  0 <= t <= 1 -> on_segment (lS q) (lE q) (line_at q t slot).
Proof.
  intros Ht. exists t. split; [exact Ht|].
  unfold line_at. cbn [set_x set_y pt_x pt_y].
  replace 1.0 with 1 by lra. split; reflexivity.
Qed.

(** Every root that [kept_roots] keeps is a point of the circle and of the
    segment. *)
Lemma kept_roots_sound (pt_default : IGES_POINT) (q : arc_line_params) :
  quad_A q <> 0 -> 0 <= quad_D q -> 0 <= arcR q ->
  forall i : nat, (i < snd (kept_roots pt_default q))%nat ->
    on_circle (arcC q) (arcR q) (fst (kept_roots pt_default q) i)
    /\ on_segment (lS q) (lE q) (fst (kept_roots pt_default q) i).
Proof.
  intros HA HD HR.
  set (t0 := (- quad_B q + sqrt (quad_D q)) / (2.0 * quad_A q)).
  set (t1 := (- quad_B q - sqrt (quad_D q)) / (2.0 * quad_A q)).
  assert (Hr0 : quad_A q * (t0 * t0) + quad_B q * t0 + quad_C q = 0).
  { unfold t0. replace (- quad_B q + sqrt (quad_D q))
      with (- quad_B q + 1 * sqrt (quad_D q)) by ring.
    apply (quadratic_roots _ _ (quad_C q) (quad_D q) 1); auto; try reflexivity; ring. }
  assert (Hr1 : quad_A q * (t1 * t1) + quad_B q * t1 + quad_C q = 0).
  { unfold t1. replace (- quad_B q - sqrt (quad_D q))
      with (- quad_B q + (-1) * sqrt (quad_D q)) by ring.
    apply (quadratic_roots _ _ (quad_C q) (quad_D q) (-1)); auto; try reflexivity; ring. }
  rewrite (kept_roots_eq pt_default q (sqrt (quad_D q)) t0 t1 eq_refl eq_refl eq_refl).
  cbv zeta.
  destruct (Rgeb_spec t0 0.0) as [L0|L0]; destruct (Rleb_spec t0 1.0) as [U0|U0];
    destruct (Rgeb_spec t1 0.0) as [L1|L1]; destruct (Rleb_spec t1 1.0) as [U1|U1];
    cbn [andb fst snd]; intros i Hi;
    try (exfalso; lia);
    (destruct i as [|[|i]]; [| |exfalso; lia]); try (exfalso; lia);
    cbn [upd Nat.eqb];
    (split; [apply root_on_circle; assumption | apply line_at_on_segment; lra]).
Qed.

(** The dispatch on a line and a circle. *)
Lemma arc_line_read_circle_line (C L : IGES_GEOM_SEGMENT) :
  msegtype C = SEGTYPE_CIRCLE ->
  arc_line_read C L
  = mkArcLine (mcenter C) (mstart C) (mend C) (mradius C) 0.0 0.0 true
      (getStart L) (getEnd L).
Proof. intros Hk. unfold arc_line_read. rewrite Hk. reflexivity. Qed.

(** X10: for a constructed circle and a constructed line, when at least one
    root of the quadratic is kept and [GetIntersections] succeeds, it returns
    exactly the kept roots, and each returned point lies on the circle and on
    the line segment. *)
Theorem circle_line_points_sound
    (pt_default : IGES_POINT) (ang_uninit : array R)
    (C L : IGES_GEOM_SEGMENT) (f fl : IGES_INTERSECT_FLAG) (pts : list IGES_POINT) :
  constructed C -> msegtype C = SEGTYPE_CIRCLE ->
  constructed L -> msegtype L = SEGTYPE_LINE ->
  snd (kept_roots pt_default (arc_line_read C L)) <> 0%nat ->
  GetIntersections pt_default ang_uninit C L [] f = (true, pts, fl) ->
  length pts = snd (kept_roots pt_default (arc_line_read C L))
  /\ Forall (fun p => on_circle (mcenter C) (mradius C) p
                      /\ on_segment (mstart L) (mend L) p) pts.
Proof.
  intros HcC HkC HcL HkL Hnp Hres.
  destruct (constructed_circle_inv C HcC HkC) as (Hr & _ & _).
  destruct (constructed_line_inv L HcL HkL) as (Hcw & _ & _ & Hlen).
  rewrite GetIntersections_circle_line in Hres by assumption.
  unfold checkArcLine in Hres.
  set (q := arc_line_read C L) in *.
  assert (Hq : q = mkArcLine (mcenter C) (mstart C) (mend C) (mradius C) 0.0 0.0 true
                     (mstart L) (mend L)).
  { unfold q. rewrite arc_line_read_circle_line by assumption.
    unfold getStart, getEnd. rewrite Hcw. reflexivity. }
  assert (HA : quad_A q <> 0).
  { rewrite Hq. unfold quad_A. cbn [lS lE].
    assert (Hsq : dist2d (mstart L) (mend L) * dist2d (mstart L) (mend L)
                  = (pt_x (mstart L) - pt_x (mend L)) * (pt_x (mstart L) - pt_x (mend L))
                    + (pt_y (mstart L) - pt_y (mend L)) * (pt_y (mstart L) - pt_y (mend L))).
    { unfold dist2d. apply sqrt_def.
      pose proof (Rle_0_sqr (pt_x (mstart L) - pt_x (mend L))) as Hx.
      pose proof (Rle_0_sqr (pt_y (mstart L) - pt_y (mend L))) as Hy.
      unfold Rsqr in Hx, Hy. lra. }
    assert (0 < dist2d (mstart L) (mend L) * dist2d (mstart L) (mend L)) by nra.
    replace 2.0 with 2 by lra. nra. }
  destruct (Rltb_spec (Rabs (quad_D q)) 0.001) as [|Hnt]; [discriminate|].
  destruct (Rltb_spec (quad_D q) 0) as [|Hnn]; [discriminate|].
  assert (HD : 0 <= quad_D q) by lra.
  assert (HR : 0 <= arcR q) by (rewrite Hq; cbn [arcR]; lra).
  pose proof (kept_roots_sound pt_default q HA HD HR) as Hsound.
  assert (Hle : (snd (kept_roots pt_default q) <= 2)%nat).
  { rewrite (kept_roots_eq pt_default q _ _ _ eq_refl eq_refl eq_refl). cbv zeta.
    repeat match goal with |- context [if ?c then _ else _] => destruct c end;
      cbn [snd]; lia. }
  destruct (kept_roots pt_default q) as [p np]. cbn [fst snd] in *.
  assert (HC : arcC q = mcenter C) by (rewrite Hq; reflexivity).
  assert (HRq : arcR q = mradius C) by (rewrite Hq; reflexivity).
  assert (HS : lS q = mstart L) by (rewrite Hq; reflexivity).
  assert (HE : lE q = mend L) by (rewrite Hq; reflexivity).
  rewrite HC, HRq, HS, HE in Hsound.
  assert (Hcirc : arcCircle q = true) by (rewrite Hq; reflexivity).
  rewrite Hcirc in Hres.
  destruct np as [|[|[|np]]]; [contradiction | | | lia].
  - cbn [Nat.eqb app] in Hres. inversion Hres; subst pts.
    split; [reflexivity|]. constructor; [apply Hsound; lia|constructor].
  - cbn [Nat.eqb] in Hres.
    match type of Hres with context [if ?c then _ else _] => destruct c end;
      cbn [app] in Hres; inversion Hres; subst pts;
      (split; [reflexivity|]);
      repeat constructor; apply Hsound; lia.
Qed.

(** The circle of radius 5 about the origin against the line (0,0)-(10,0):
    one root, t = 0.5, is kept, and the result is the point at t = 0.5. *)
Lemma circle_radius_line_eval (pt_default : IGES_POINT) (ang_uninit : array R) :
  let C := circle_at (pt 0 0) 5 in
  let L := line_of (pt 0 0) (pt 10 0) in
  constructed C /\ msegtype C = SEGTYPE_CIRCLE
  /\ constructed L /\ msegtype L = SEGTYPE_LINE
  /\ snd (kept_roots pt_default (arc_line_read C L)) = 1%nat
  /\ GetIntersections pt_default ang_uninit C L [] IGES_IFLAG_NONE
     = (true, [line_at (arc_line_read C L) 0.5 pt_default], IGES_IFLAG_NONE).
Proof.
  intros C L.
  assert (H5 : 1e-8 <= 5) by lra.
  assert (Hm : PointMatches (pt 0 0) (pt 10 0) 1e-8 = false) by dbl_decide.
  destruct (constructed_circle_at 0 0 5 H5) as [HcC HkC].
  destruct (constructed_line_of (pt 0 0) (pt 10 0) eq_refl eq_refl Hm) as [HcL HeL].
  assert (HeC := circle_at_eq 0 0 5 H5).
  fold C in HcC, HkC, HeC. fold L in HcL, HeL.
  assert (HkL : msegtype L = SEGTYPE_LINE) by (rewrite HeL; reflexivity).
  assert (Hq : arc_line_read C L
               = mkArcLine (pt 0 0) (pt (0 + 5) 0) (pt (0 + 5) 0) 5 0.0 0.0 true
                   (pt 0 0) (pt 10 0)).
  { rewrite HeC, HeL. reflexivity. }
  assert (HA : quad_A (arc_line_read C L) = 100)
    by (rewrite Hq; unfold quad_A; cbn [lS lE pt pt_x pt_y]; lra).
  assert (HB : quad_B (arc_line_read C L) = -200)
    by (rewrite Hq; unfold quad_B; cbn [lS lE arcC pt pt_x pt_y]; lra).
  assert (HC : quad_C (arc_line_read C L) = 75)
    by (rewrite Hq; unfold quad_C; cbn [lS lE arcC arcR pt pt_x pt_y]; lra).
  assert (HD : quad_D (arc_line_read C L) = 10000)
    by (unfold quad_D; rewrite HA, HB, HC; lra).
  assert (Hk : kept_roots pt_default (arc_line_read C L)
               = (upd (fun _ => pt_default) 0
                    (line_at (arc_line_read C L) 0.5 pt_default), 1%nat)).
  { rewrite (kept_roots_eq pt_default _ 100 1.5 0.5).
    - replace (1.5 <=? 1.0) with false by (symmetry; dbl_decide).
      replace (0.5 >=? 0.0) with true by (symmetry; dbl_decide).
      replace (0.5 <=? 1.0) with true by (symmetry; dbl_decide).
      rewrite andb_false_r. reflexivity.
    - rewrite HD. symmetry. apply sqrt_sq; lra.
    - rewrite HA, HB. lra.
    - rewrite HA, HB. lra. }
  repeat split; try assumption.
  - rewrite Hk. reflexivity.
  - rewrite GetIntersections_circle_line by assumption.
    unfold checkArcLine. rewrite HD, Hk.
    replace (Rabs 10000 <? 0.001) with false by (symmetry; dbl_decide).
    replace (10000 <? 0) with false by (symmetry; dbl_decide).
    replace (arcCircle (arc_line_read C L)) with true by (rewrite Hq; reflexivity).
    reflexivity.
Qed.

(** X10 at the circle of radius 5 about the origin and the line from (0,0)
    to (10,0), which leaves the circle at (5,0). *)
Lemma circle_line_points_sound_witness :
  let C := circle_at (pt 0 0) 5 in
  let L := line_of (pt 0 0) (pt 10 0) in
  let pts := [line_at (arc_line_read C L) 0.5 (pt 0 0)] in
  length pts = snd (kept_roots (pt 0 0) (arc_line_read C L))
  /\ Forall (fun p => on_circle (mcenter C) (mradius C) p
                      /\ on_segment (mstart L) (mend L) p) pts.
Proof.
  intros C L pts.
  destruct (circle_radius_line_eval (pt 0 0) (fun _ => 0))
    as (HcC & HkC & HcL & HkL & Hnp & Hres).
  fold C L in HcC, HkC, HcL, HkL, Hnp, Hres.
  apply (circle_line_points_sound (pt 0 0) (fun _ => 0) C L
           IGES_IFLAG_NONE IGES_IFLAG_NONE pts HcC HkC HcL HkL).
  - rewrite Hnp. discriminate.
  - exact Hres.
Defined.

(** ** A line against an arc or circle, from either side *)

(** X11: for a line and an arc or circle, [GetIntersections] gives the same
    outcome whichever of the two is the receiver: the same boolean, the same
    points in the same order, the same flag. *)
Theorem GetIntersections_line_arc_commutes
    (pt_default : IGES_POINT) (ang_uninit : array R)
    (L A : IGES_GEOM_SEGMENT) (l : list IGES_POINT) (f : IGES_INTERSECT_FLAG) :
  msegtype L = SEGTYPE_LINE ->
  msegtype A = SEGTYPE_ARC \/ msegtype A = SEGTYPE_CIRCLE ->
  GetIntersections pt_default ang_uninit L A l f
  = GetIntersections pt_default ang_uninit A L l f.
Proof.
  intros HkL HkA.
  unfold GetIntersections, getSegType. rewrite HkL.
  unfold checkArcLine, kept_roots, fill_ang, filter_arc, on_arc, line_at,
    quad_D, quad_A, quad_B, quad_C, arc_line_read, getSegType.
  rewrite HkL.
  destruct HkA as [HkA|HkA]; rewrite HkA;
    cbn [SEGTYPE_eqb orb arcC arcR arcSAng arcEAng arcCircle lS lE];
    reflexivity.
Qed.

(** X11 at the line (0,0)-(10,0) and the circle of radius 5 about the
    origin. *)
Lemma GetIntersections_line_arc_commutes_witness :
  let C := circle_at (pt 0 0) 5 in
  let L := line_of (pt 0 0) (pt 10 0) in
  GetIntersections (pt 0 0) (fun _ => 0) L C [] IGES_IFLAG_NONE
  = GetIntersections (pt 0 0) (fun _ => 0) C L [] IGES_IFLAG_NONE.
Proof.
  intros C L.
  destruct (circle_radius_line_eval (pt 0 0) (fun _ => 0))
    as (_ & HkC & _ & HkL & _ & _).
  fold C L in HkC, HkL.
  exact (GetIntersections_line_arc_commutes (pt 0 0) (fun _ => 0) L C []
           IGES_IFLAG_NONE HkL (or_intror HkC)).
Defined.

(** ** The discriminant *)

(** X12: for an arc or circle against a line, in either order, a
    discriminant below 1e-3 means failure with no point added; the flag is
    Tangent when the discriminant is above -1e-3, a slightly negative one
    included, and None otherwise. *)
Theorem arc_line_small_discriminant
    (pt_default : IGES_POINT) (ang_uninit : array R)
    (s1 s2 : IGES_GEOM_SEGMENT) (l : list IGES_POINT) (f : IGES_INTERSECT_FLAG) :
  (msegtype s1 = SEGTYPE_LINE /\ (msegtype s2 = SEGTYPE_ARC \/ msegtype s2 = SEGTYPE_CIRCLE))
  \/ ((msegtype s1 = SEGTYPE_ARC \/ msegtype s1 = SEGTYPE_CIRCLE)
      /\ msegtype s2 = SEGTYPE_LINE) ->
  quad_D (arc_line_read s1 s2) < 0.001 ->
  GetIntersections pt_default ang_uninit s1 s2 l f
  = (false, l,
     if -0.001 <? quad_D (arc_line_read s1 s2)
     then IGES_IFLAG_TANGENT else IGES_IFLAG_NONE).
Proof.
  intros Hk HD.
  assert (Hd : GetIntersections pt_default ang_uninit s1 s2 l f
               = checkArcLine pt_default ang_uninit s1 s2 l IGES_IFLAG_NONE).
  { unfold GetIntersections, getSegType.
    destruct Hk as [[H1 [H2|H2]]|[[H1|H1] H2]]; rewrite H1, H2; reflexivity. }
  rewrite Hd.
  destruct (checkArcLine_discriminant pt_default ang_uninit s1 s2 l IGES_IFLAG_NONE)
    as [Htan Hneg].
  destruct (Rltb_spec (-0.001) (quad_D (arc_line_read s1 s2))) as [Hgt|Hle].
  - apply Htan. split_Rabs; lra.
  - apply Hneg.
    + split_Rabs; lra.
    + lra.
Qed.

(** X12 at the circle of radius 5 about the origin and the line from (-10,5)
    to (10,5), which touches it at (0,5): the discriminant is 0. *)
Lemma arc_line_small_discriminant_witness :
  GetIntersections (pt 0 0) (fun _ => 0)
    (circle_at (pt 0 0) 5) (line_of (pt (-10) 5) (pt 10 5)) [] IGES_IFLAG_NONE
  = (false, [], IGES_IFLAG_TANGENT).
Proof.
  assert (H5 : 1e-8 <= 5) by lra.
  assert (Hm : PointMatches (pt (-10) 5) (pt 10 5) 1e-8 = false) by dbl_decide.
  destruct (constructed_circle_at 0 0 5 H5) as [_ HkC].
  destruct (constructed_line_of (pt (-10) 5) (pt 10 5) eq_refl eq_refl Hm) as [_ HeL].
  assert (HeC := circle_at_eq 0 0 5 H5).
  assert (HkL : msegtype (line_of (pt (-10) 5) (pt 10 5)) = SEGTYPE_LINE)
    by (rewrite HeL; reflexivity).
  assert (HD : quad_D (arc_line_read (circle_at (pt 0 0) 5)
                         (line_of (pt (-10) 5) (pt 10 5))) = 0).
  { rewrite HeC, HeL. unfold quad_D, quad_A, quad_B, quad_C, arc_line_read.
    cbn [msegtype SEGTYPE_eqb orb mcenter mradius getStart getEnd mCWArc mstart mend
         lS lE arcC arcR pt pt_x pt_y]. lra. }
  pose proof (arc_line_small_discriminant (pt 0 0) (fun _ => 0)
                (circle_at (pt 0 0) 5) (line_of (pt (-10) 5) (pt 10 5)) []
                IGES_IFLAG_NONE (or_intror (conj (or_intror HkC) HkL))) as Hthm.
  rewrite HD in Hthm.
  replace (-0.001 <? 0) with true in Hthm by (symmetry; dbl_decide).
  apply Hthm. lra.
Defined.

(** ** Bounding boxes *)

(** X13: the bounding box of a line.  The call succeeds; the top-left y is
    the larger and the bottom-right y the smaller of the two end points' y.
    When the x of the end points differ by 1e-8 or more, the top-left x is
    the smaller and the bottom-right x the larger of the two, and the z of
    the caller's points is left as it was; when they differ by less, the line
    counts as vertical and the two corners are the end points themselves,
    the higher one first. *)
Theorem line_bounding_box (pt_default : IGES_POINT)
    (s : IGES_GEOM_SEGMENT) (c0 c1 : IGES_POINT) :
  msegtype s = SEGTYPE_LINE ->
  exists q0 q1 : IGES_POINT,
    GetBoundingBox pt_default s c0 c1 = (true, q0, q1)
    /\ pt_y q0 = Rmax (pt_y (mstart s)) (pt_y (mend s))
    /\ pt_y q1 = Rmin (pt_y (mstart s)) (pt_y (mend s))
    /\ (1e-8 <= Rabs (pt_x (mstart s) - pt_x (mend s)) ->
        pt_x q0 = Rmin (pt_x (mstart s)) (pt_x (mend s))
        /\ pt_x q1 = Rmax (pt_x (mstart s)) (pt_x (mend s))
        /\ pt_z q0 = pt_z c0 /\ pt_z q1 = pt_z c1)
    /\ (Rabs (pt_x (mstart s) - pt_x (mend s)) < 1e-8 ->
        (q0 = mstart s /\ q1 = mend s) \/ (q0 = mend s /\ q1 = mstart s)).
Proof.
  intros Hk. unfold GetBoundingBox. rewrite Hk. cbn [SEGTYPE_eqb].
  destruct (Rltb_spec (Rabs (pt_x (mstart s) - pt_x (mend s))) 1e-8) as [Hv|Hnv].
  - destruct (Rgtb_spec (pt_y (mstart s)) (pt_y (mend s))) as [Hy|Hy];
      eexists _, _; (split; [reflexivity|]);
      unfold Rmax, Rmin; destruct (Rle_dec (pt_y (mstart s)) (pt_y (mend s)));
      repeat split; try lra; auto; intros; lra.
  - destruct (Rltb_spec (pt_x (mstart s)) (pt_x (mend s))) as [Hx|Hx];
      destruct (Rgeb_spec (pt_y (mstart s)) (pt_y (mend s))) as [Hy|Hy];
      eexists _, _; (split; [reflexivity|]);
      unfold set_x, set_y; cbn [pt_x pt_y pt_z];
      unfold Rmax, Rmin;
      destruct (Rle_dec (pt_y (mstart s)) (pt_y (mend s)));
      destruct (Rle_dec (pt_x (mstart s)) (pt_x (mend s)));
      repeat split; try lra; auto; intros; lra.
Qed.

(** X13 at the line from (0,0) to (10,4), with the caller's points at the
    origin. *)
Lemma line_bounding_box_witness :
  let s := line_of (pt 0 0) (pt 10 4) in
  exists q0 q1 : IGES_POINT,
    GetBoundingBox (pt 0 0) s (pt 0 0) (pt 0 0) = (true, q0, q1)
    /\ pt_y q0 = Rmax (pt_y (mstart s)) (pt_y (mend s))
    /\ pt_y q1 = Rmin (pt_y (mstart s)) (pt_y (mend s))
    /\ (1e-8 <= Rabs (pt_x (mstart s) - pt_x (mend s)) ->
        pt_x q0 = Rmin (pt_x (mstart s)) (pt_x (mend s))
        /\ pt_x q1 = Rmax (pt_x (mstart s)) (pt_x (mend s))
        /\ pt_z q0 = pt_z (pt 0 0) /\ pt_z q1 = pt_z (pt 0 0))
    /\ (Rabs (pt_x (mstart s) - pt_x (mend s)) < 1e-8 ->
        (q0 = mstart s /\ q1 = mend s) \/ (q0 = mend s /\ q1 = mstart s)).
Proof.
  intros s.
  apply (line_bounding_box (pt 0 0) s (pt 0 0) (pt 0 0)).
  assert (Hm : PointMatches (pt 0 0) (pt 10 4) 1e-8 = false) by dbl_decide.
  destruct (constructed_line_of (pt 0 0) (pt 10 4) eq_refl eq_refl Hm) as [_ He].
  unfold s. rewrite He. reflexivity.
Defined.

Lemma sq_le_within (a r : R) : 0 <= r -> a * a <= r * r -> - r <= a <= r.
Proof. intros Hr Hsq. split; apply Rnot_lt_le; intros Hlt; nra. Qed.

(** A point on a circle is within the radius of the centre in x and in y. *)
Lemma on_circle_within (c p : IGES_POINT) (r : R) :
  0 <= r -> on_circle c r p ->
  pt_x c - r <= pt_x p <= pt_x c + r /\ pt_y c - r <= pt_y p <= pt_y c + r.
Proof.
  intros Hr Hon. unfold on_circle, dist2d in Hon.
  assert (Hsq : (pt_x p - pt_x c) * (pt_x p - pt_x c)
                + (pt_y p - pt_y c) * (pt_y p - pt_y c) = r * r).
  { rewrite <- Hon. rewrite sqrt_def; [reflexivity|].
    pose proof (Rle_0_sqr (pt_x p - pt_x c)) as Hx.
    pose proof (Rle_0_sqr (pt_y p - pt_y c)) as Hy.
    unfold Rsqr in Hx, Hy. lra. }
  pose proof (Rle_0_sqr (pt_x p - pt_x c)) as Hx.
  pose proof (Rle_0_sqr (pt_y p - pt_y c)) as Hy.
  unfold Rsqr in Hx, Hy.
  destruct (sq_le_within (pt_x p - pt_x c) r Hr) as [X1 X2]; [lra|].
  destruct (sq_le_within (pt_y p - pt_y c) r Hr) as [Y1 Y2]; [lra|].
  repeat split; lra.
Qed.

(** X14: the bounding box of a constructed circle is the square around it:
    top-left (center.x - radius, center.y + radius), bottom-right
    (center.x + radius, center.y - radius), the z of the caller's points
    left as it was; every point on the circle lies within it. *)
Theorem circle_bounding_box (pt_default : IGES_POINT)
    (s : IGES_GEOM_SEGMENT) (c0 c1 : IGES_POINT) :
  constructed s -> msegtype s = SEGTYPE_CIRCLE ->
  GetBoundingBox pt_default s c0 c1
  = (true,
     mkPoint (pt_x (mcenter s) - mradius s) (pt_y (mcenter s) + mradius s) (pt_z c0),
     mkPoint (pt_x (mcenter s) + mradius s) (pt_y (mcenter s) - mradius s) (pt_z c1))
  /\ forall p : IGES_POINT, on_circle (mcenter s) (mradius s) p ->
       pt_x (mcenter s) - mradius s <= pt_x p <= pt_x (mcenter s) + mradius s
       /\ pt_y (mcenter s) - mradius s <= pt_y p <= pt_y (mcenter s) + mradius s.
Proof.
  intros Hc Hk.
  destruct (constructed_circle_inv s Hc Hk) as (Hr & _ & _).
  split.
  - unfold GetBoundingBox. rewrite Hk. reflexivity.
  - intros p Hon. apply on_circle_within; [lra|exact Hon].
Qed.

(** X14 at the circle of radius 5 about (1,2). *)
Lemma circle_bounding_box_witness :
  let s := circle_at (pt 1 2) 5 in
  GetBoundingBox (pt 0 0) s (pt 0 0) (pt 0 0)
  = (true,
     mkPoint (pt_x (mcenter s) - mradius s) (pt_y (mcenter s) + mradius s) (pt_z (pt 0 0)),
     mkPoint (pt_x (mcenter s) + mradius s) (pt_y (mcenter s) - mradius s) (pt_z (pt 0 0)))
  /\ forall p : IGES_POINT, on_circle (mcenter s) (mradius s) p ->
       pt_x (mcenter s) - mradius s <= pt_x p <= pt_x (mcenter s) + mradius s
       /\ pt_y (mcenter s) - mradius s <= pt_y p <= pt_y (mcenter s) + mradius s.
Proof.
  intros s. assert (H5 : 1e-8 <= 5) by lra.
  exact (circle_bounding_box (pt 0 0) s (pt 0 0) (pt 0 0)
           (proj1 (constructed_circle_at 1 2 5 H5))
           (proj2 (constructed_circle_at 1 2 5 H5))).
Defined.

(** The loop over the extrema only ever moves the top-left corner left and
    up and the bottom-right corner right and down, and leaves both z
    alone. *)
Lemma widen_fold (m : array IGES_POINT) (idx : list nat) :
  forall p0 p1 : IGES_POINT,
    let b := fold_left (fun b i => widen (m i) b) idx (p0, p1) in
    pt_x (fst b) <= pt_x p0 /\ pt_y p0 <= pt_y (fst b) /\ pt_z (fst b) = pt_z p0
    /\ pt_x p1 <= pt_x (snd b) /\ pt_y (snd b) <= pt_y p1 /\ pt_z (snd b) = pt_z p1.
Proof.
  induction idx as [|i idx IH]; intros p0 p1.
  - cbn. repeat split; lra.
  - cbn [fold_left]. rewrite widen_eq.
    specialize (IH (mkPoint (Rmin (pt_x (m i)) (pt_x p0)) (Rmax (pt_y (m i)) (pt_y p0)) (pt_z p0))
                   (mkPoint (Rmax (pt_x (m i)) (pt_x p1)) (Rmin (pt_y (m i)) (pt_y p1)) (pt_z p1))).
    cbv zeta in IH. cbn [pt_x pt_y pt_z] in IH.
    destruct IH as (I1 & I2 & I3 & I4 & I5 & I6).
    pose proof (Rmin_r (pt_x (m i)) (pt_x p0)).
    pose proof (Rmax_r (pt_y (m i)) (pt_y p0)).
    pose proof (Rmax_r (pt_x (m i)) (pt_x p1)).
    pose proof (Rmin_r (pt_y (m i)) (pt_y p1)).
    cbv zeta. repeat split; try lra; assumption.
Qed.

(** X15: the bounding box of an arc.  The call succeeds; the top-left corner
    is at or left of both end points and at or above them, with the z of the
    caller's first point.  The bottom-right corner is never set from the end
    points: it is the caller's second point, moved right or down at most,
    with its z unchanged. *)
Theorem arc_bounding_box_corners (pt_default : IGES_POINT)
    (s : IGES_GEOM_SEGMENT) (c0 c1 : IGES_POINT) :
  msegtype s = SEGTYPE_ARC ->
  exists q0 q1 : IGES_POINT,
    GetBoundingBox pt_default s c0 c1 = (true, q0, q1)
    /\ pt_x q0 <= Rmin (pt_x (mstart s)) (pt_x (mend s))
    /\ Rmax (pt_y (mstart s)) (pt_y (mend s)) <= pt_y q0
    /\ pt_z q0 = pt_z c0
    /\ pt_x c1 <= pt_x q1 /\ pt_y q1 <= pt_y c1 /\ pt_z q1 = pt_z c1.
Proof.
  intros Hk. unfold GetBoundingBox. rewrite Hk. cbn [SEGTYPE_eqb].
  destruct (arc_extrema pt_default s) as [m ne].
  set (a0 := if pt_y (mstart s) >? pt_y (mend s)
             then set_y (pt_y (mstart s))
                    (if pt_x (mstart s) <? pt_x (mend s)
                     then set_x (pt_x (mstart s)) c0 else set_x (pt_x (mend s)) c0)
             else set_y (pt_y (mend s))
                    (if pt_x (mstart s) <? pt_x (mend s)
                     then set_x (pt_x (mstart s)) c0 else set_x (pt_x (mend s)) c0)).
  assert (Ha0 : pt_x a0 = Rmin (pt_x (mstart s)) (pt_x (mend s))
                /\ pt_y a0 = Rmax (pt_y (mstart s)) (pt_y (mend s))
                /\ pt_z a0 = pt_z c0).
  { unfold a0, Rmin, Rmax.
    destruct (Rgtb_spec (pt_y (mstart s)) (pt_y (mend s)));
      destruct (Rltb_spec (pt_x (mstart s)) (pt_x (mend s)));
      destruct (Rle_dec (pt_x (mstart s)) (pt_x (mend s)));
      destruct (Rle_dec (pt_y (mstart s)) (pt_y (mend s)));
      cbn [set_x set_y pt_x pt_y pt_z]; repeat split; lra. }
  destruct Ha0 as (Hx & Hy & Hz).
  pose proof (widen_fold m (seq 0 ne) a0 c1) as Hw. cbv zeta in Hw.
  destruct (fold_left (fun b i => widen (m i) b) (seq 0 ne) (a0, c1)) as [q0 q1].
  cbn [fst snd] in Hw. destruct Hw as (W1 & W2 & W3 & W4 & W5 & W6).
  exists q0, q1. repeat split; try lra; try assumption; congruence.
Qed.

(** X15 at the left half circle from (0,5) to (0,-5) about the origin. *)
Lemma arc_bounding_box_corners_witness :
  let s := arc_of (pt 0 0) (pt 0 5) (pt 0 (-5)) false in
  exists q0 q1 : IGES_POINT,
    GetBoundingBox (pt 0 0) s (pt 0 0) (pt 0 0) = (true, q0, q1)
    /\ pt_x q0 <= Rmin (pt_x (mstart s)) (pt_x (mend s))
    /\ Rmax (pt_y (mstart s)) (pt_y (mend s)) <= pt_y q0
    /\ pt_z q0 = pt_z (pt 0 0)
    /\ pt_x (pt 0 0) <= pt_x q1 /\ pt_y q1 <= pt_y (pt 0 0) /\ pt_z q1 = pt_z (pt 0 0).
Proof.
  intros s.
  apply (arc_bounding_box_corners (pt 0 0) s (pt 0 0) (pt 0 0)).
  unfold s. rewrite left_half_arc_eq. reflexivity.
Defined.

(** ** Two points from a line *)

(** The coefficient A is the squared length of the line. *)
Lemma quad_A_pos (q : arc_line_params) :
  0 < dist2d (lS q) (lE q) -> quad_A q <> 0.
Proof.
  intros Hlen. unfold quad_A.
  assert (Hsq : dist2d (lS q) (lE q) * dist2d (lS q) (lE q)
                = (pt_x (lS q) - pt_x (lE q)) * (pt_x (lS q) - pt_x (lE q))
                  + (pt_y (lS q) - pt_y (lE q)) * (pt_y (lS q) - pt_y (lE q))).
  { unfold dist2d. apply sqrt_def.
    pose proof (Rle_0_sqr (pt_x (lS q) - pt_x (lE q))) as Hx.
    pose proof (Rle_0_sqr (pt_y (lS q) - pt_y (lE q))) as Hy.
    unfold Rsqr in Hx, Hy. lra. }
  assert (0 < dist2d (lS q) (lE q) * dist2d (lS q) (lE q)) by nra.
  replace 2.0 with 2 by lra. nra.
Qed.

Lemma kept_roots_le_2 (pt_default : IGES_POINT) (q : arc_line_params) :
  (snd (kept_roots pt_default q) <= 2)%nat.
Proof.
  rewrite (kept_roots_eq pt_default q _ _ _ eq_refl eq_refl eq_refl). cbv zeta.
  repeat match goal with |- context [if ?c then _ else _] => destruct c end;
    cbn [snd]; lia.
Qed.

(** The angle test of the arc branch puts the wound angle inside the arc. *)
Lemma on_arc_wind_from (q : arc_line_params) (a : R) :
  on_arc q a = true -> arcSAng q <= wind_from (arcSAng q) a <= arcEAng q.
Proof.
  unfold on_arc, wind_from. pose proof PI_RGT_0 as Hpi.
  destruct (Rgeb_spec a (arcSAng q)); destruct (Rleb_spec a (arcEAng q));
    destruct (Rgeb_spec (a + 2.0 * PI) (arcSAng q));
    destruct (Rleb_spec (a + 2.0 * PI) (arcEAng q));
    cbn [andb orb]; intros H; try discriminate;
    destruct (Rltb_spec a (arcSAng q)); lra.
Qed.

(** The dispatch on an arc and a line. *)
Lemma arc_line_read_arc_line (A L : IGES_GEOM_SEGMENT) :
  msegtype A = SEGTYPE_ARC ->
  arc_line_read A L
  = mkArcLine (mcenter A) (mstart A) (mend A) (mradius A)
      (getStartAngle A) (getEndAngle A) false (getStart L) (getEnd L).
Proof. intros Hk. unfold arc_line_read. rewrite Hk. reflexivity. Qed.

(** X16: when [GetIntersections] on an arc of positive radius and a
    constructed line
    returns two points, both lie on the arc's circle and on the line segment,
    their angles, wound up from the arc's start angle, lie between the start
    and the end angle, and the points come in ascending order of that
    angle. *)
Theorem arc_line_two_points_sound
    (pt_default : IGES_POINT) (ang_uninit : array R)
    (A L : IGES_GEOM_SEGMENT) (f fl : IGES_INTERSECT_FLAG) (p1 p2 : IGES_POINT) :
  msegtype A = SEGTYPE_ARC -> 0 < mradius A ->
  constructed L -> msegtype L = SEGTYPE_LINE ->
  GetIntersections pt_default ang_uninit A L [] f = (true, [p1; p2], fl) ->
  on_circle (mcenter A) (mradius A) p1 /\ on_segment (mstart L) (mend L) p1
  /\ on_circle (mcenter A) (mradius A) p2 /\ on_segment (mstart L) (mend L) p2
  /\ getStartAngle A <= wind_from (getStartAngle A) (angle_from (mcenter A) p1)
  /\ wind_from (getStartAngle A) (angle_from (mcenter A) p1)
     <= wind_from (getStartAngle A) (angle_from (mcenter A) p2)
  /\ wind_from (getStartAngle A) (angle_from (mcenter A) p2) <= getEndAngle A.
Proof.
  intros HkA Hr HcL HkL Hres.
  destruct (constructed_line_inv L HcL HkL) as (Hcw & _ & _ & Hlen).
  rewrite GetIntersections_arc_line in Hres by assumption.
  unfold checkArcLine in Hres.
  set (q := arc_line_read A L) in *.
  assert (Hq : q = mkArcLine (mcenter A) (mstart A) (mend A) (mradius A)
                     (getStartAngle A) (getEndAngle A) false (mstart L) (mend L)).
  { unfold q. rewrite arc_line_read_arc_line by assumption.
    unfold getStart, getEnd. rewrite Hcw. reflexivity. }
  assert (HC : arcC q = mcenter A) by (rewrite Hq; reflexivity).
  assert (HRq : arcR q = mradius A) by (rewrite Hq; reflexivity).
  assert (HS : lS q = mstart L) by (rewrite Hq; reflexivity).
  assert (HE : lE q = mend L) by (rewrite Hq; reflexivity).
  assert (HSA : arcSAng q = getStartAngle A) by (rewrite Hq; reflexivity).
  assert (HEA : arcEAng q = getEndAngle A) by (rewrite Hq; reflexivity).
  assert (Hcirc : arcCircle q = false) by (rewrite Hq; reflexivity).
  assert (HA : quad_A q <> 0) by (apply quad_A_pos; rewrite HS, HE; exact Hlen).
  destruct (Rltb_spec (Rabs (quad_D q)) 0.001) as [|Hnt]; [discriminate|].
  destruct (Rltb_spec (quad_D q) 0) as [|Hnn]; [discriminate|].
  assert (HD : 0 <= quad_D q) by lra.
  assert (HR : 0 <= arcR q) by (rewrite HRq; lra).
  pose proof (kept_roots_sound pt_default q HA HD HR) as Hsound.
  pose proof (kept_roots_le_2 pt_default q) as Hle.
  destruct (kept_roots pt_default q) as [p np]. cbn [fst snd] in *.
  rewrite Hcirc in Hres.
  pose proof (on_arc_wind_from q) as Hwind.
  rewrite HC, HRq, HS, HE in Hsound. rewrite HSA, HEA in Hwind.
  unfold filter_arc, fill_ang in Hres.
  destruct np as [|[|[|np]]]; [| | |lia].
  - cbn in Hres. discriminate.
  - cbn [seq fold_left upd Nat.eqb] in Hres.
    match type of Hres with context [if on_arc q ?a then _ else _] =>
      destruct (on_arc q a) end; cbn in Hres; inversion Hres.
  - cbn [seq fold_left upd Nat.eqb] in Hres.
    rewrite HC in Hres.
    set (a0 := atan2 (pt_y (p 0%nat) - pt_y (mcenter A)) (pt_x (p 0%nat) - pt_x (mcenter A))) in *.
    set (a1 := atan2 (pt_y (p 1%nat) - pt_y (mcenter A)) (pt_x (p 1%nat) - pt_x (mcenter A))) in *.
    destruct (on_arc q a0) eqn:Hon0; cbn [upd Nat.eqb] in Hres;
      destruct (on_arc q a1) eqn:Hon1;
      cbn [Nat.eqb app upd] in Hres; try discriminate; try (inversion Hres; fail).
    apply Hwind in Hon0. apply Hwind in Hon1.
    rewrite HSA in Hres.
    assert (Hw0 : (if a0 <? getStartAngle A
                   then upd (upd (upd ang_uninit 0 a0) 1 a1) 0 (a0 + 2.0 * PI)
                   else upd (upd ang_uninit 0 a0) 1 a1) 0%nat
                  = wind_from (getStartAngle A) a0).
    { unfold wind_from. destruct (a0 <? getStartAngle A); reflexivity. }
    assert (Hw1 : (if a0 <? getStartAngle A
                   then upd (upd (upd ang_uninit 0 a0) 1 a1) 0 (a0 + 2.0 * PI)
                   else upd (upd ang_uninit 0 a0) 1 a1) 1%nat = a1).
    { destruct (a0 <? getStartAngle A); reflexivity. }
    rewrite Hw1 in Hres.
    assert (Hres' :
      (if wind_from (getStartAngle A) a1 >? wind_from (getStartAngle A) a0
       then (true, [p 0%nat; p 1%nat], IGES_IFLAG_NONE)
       else (true, [p 1%nat; p 0%nat], IGES_IFLAG_NONE)) = (true, [p1; p2], fl)).
    { rewrite <- Hres. unfold wind_from at 1.
      destruct (Rltb_spec a1 (getStartAngle A)); cbn [upd Nat.eqb];
        rewrite ?Hw0, ?Hw1; reflexivity. }
    clear Hres.
    destruct (Hsound 0%nat ltac:(lia)) as [Hc0 Hs0].
    destruct (Hsound 1%nat ltac:(lia)) as [Hc1 Hs1].
    unfold angle_from.
    destruct (Rgtb_spec (wind_from (getStartAngle A) a1) (wind_from (getStartAngle A) a0))
      as [Hgt|Hngt];
      inversion Hres'; subst p1 p2; fold a0 a1; repeat split; try assumption; lra.
Qed.

(** The line from (2,5) to (5,2) cuts the circle of radius 5 about the
    origin at (3,4), for t = 2/3, and at (4,3), for t = 1/3. *)
Lemma chord_roots (pt_default : IGES_POINT) (q : arc_line_params) :
  arcC q = pt 0 0 -> arcR q = 5 -> lS q = pt 2 5 -> lE q = pt 5 2 ->
  quad_D q = 36
  /\ kept_roots pt_default q
     = (upd (upd (fun _ => pt_default) 0 (mkPoint 3 4 (pt_z pt_default))) 1
          (mkPoint 4 3 (pt_z pt_default)), 2%nat).
Proof.
  intros HC HR HS HE.
  assert (HA : quad_A q = 18)
    by (unfold quad_A; rewrite HS, HE; cbn [pt pt_x pt_y]; lra).
  assert (HB : quad_B q = -18)
    by (unfold quad_B; rewrite HC, HS, HE; cbn [pt pt_x pt_y]; lra).
  assert (HCc : quad_C q = 4)
    by (unfold quad_C; rewrite HC, HR, HE; cbn [pt pt_x pt_y]; lra).
  assert (HD : quad_D q = 36) by (unfold quad_D; rewrite HA, HB, HCc; lra).
  split; [exact HD|].
  rewrite (kept_roots_eq pt_default q 6 (2 / 3) (1 / 3)).
  - replace (2 / 3 >=? 0.0) with true by (symmetry; dbl_decide).
    replace (2 / 3 <=? 1.0) with true by (symmetry; dbl_decide).
    replace (1 / 3 >=? 0.0) with true by (symmetry; dbl_decide).
    replace (1 / 3 <=? 1.0) with true by (symmetry; dbl_decide).
    cbn [andb upd Nat.eqb]. unfold line_at. rewrite HS, HE.
    cbn [set_x set_y pt pt_x pt_y pt_z].
    replace (2 / 3 * 2 + (1.0 - 2 / 3) * 5) with 3 by lra.
    replace (2 / 3 * 5 + (1.0 - 2 / 3) * 2) with 4 by lra.
    replace (1 / 3 * 2 + (1.0 - 1 / 3) * 5) with 4 by lra.
    replace (1 / 3 * 5 + (1.0 - 1 / 3) * 2) with 3 by lra.
    reflexivity.
  - rewrite HD. symmetry. apply sqrt_sq; lra.
  - rewrite HA, HB. lra.
  - rewrite HA, HB. lra.
Qed.

(** The angles of (3,4) and (4,3) about the origin. *)
Lemma chord_angles :
  atan2 (4 - 0) (3 - 0) = atan (4 / 3) /\ atan2 (3 - 0) (4 - 0) = atan (3 / 4)
  /\ 0 < atan (3 / 4) /\ atan (3 / 4) < atan (4 / 3) /\ atan (4 / 3) < PI / 2.
Proof.
  repeat split.
  - rewrite atan2_right by lra. f_equal. lra.
  - rewrite atan2_right by lra. f_equal. lra.
  - apply atan_pos. lra.
  - apply atan_increasing. lra.
  - apply atan_bound.
Qed.

(** The quarter arc from (5,0) to (0,5) against the line from (2,5) to
    (5,2): both crossings are on the arc and come back, (4,3) first. *)
Lemma quarter_arc_chord_eval (pt_default : IGES_POINT) (ang_uninit : array R) :
  let A := arc_of (pt 0 0) (pt 5 0) (pt 0 5) false in
  let L := line_of (pt 2 5) (pt 5 2) in
  msegtype A = SEGTYPE_ARC /\ 0 < mradius A
  /\ constructed L /\ msegtype L = SEGTYPE_LINE
  /\ GetIntersections pt_default ang_uninit A L [] IGES_IFLAG_NONE
     = (true, [mkPoint 4 3 (pt_z pt_default); mkPoint 3 4 (pt_z pt_default)],
        IGES_IFLAG_NONE).
Proof.
  intros A L. pose proof PI_RGT_0 as Hpi.
  assert (Hm : PointMatches (pt 2 5) (pt 5 2) 1e-8 = false) by dbl_decide.
  destruct (constructed_line_of (pt 2 5) (pt 5 2) eq_refl eq_refl Hm) as [HcL HeL].
  assert (HeA := quarter_arc_eq).
  fold A in HeA. fold L in HcL, HeL.
  assert (HkA : msegtype A = SEGTYPE_ARC) by (rewrite HeA; reflexivity).
  assert (HkL : msegtype L = SEGTYPE_LINE) by (rewrite HeL; reflexivity).
  assert (Hq : arc_line_read A L
               = mkArcLine (pt 0 0) (pt 5 0) (pt 0 5) 5 0 (PI / 2) false
                   (pt 2 5) (pt 5 2)).
  { rewrite HeA, HeL. reflexivity. }
  destruct (chord_roots pt_default (arc_line_read A L)) as [HD Hk];
    try (rewrite Hq; reflexivity).
  destruct chord_angles as (Ha0 & Ha1 & Hp & Hlt & Hb).
  repeat split; try assumption.
  - rewrite HeA. cbn [mradius]. lra.
  - rewrite GetIntersections_arc_line by assumption.
    unfold checkArcLine. rewrite HD, Hk.
    replace (Rabs 36 <? 0.001) with false by (symmetry; dbl_decide).
    replace (36 <? 0) with false by (symmetry; dbl_decide).
    rewrite Hq. cbn [arcCircle].
    unfold fill_ang, filter_arc, on_arc.
    cbn [seq fold_left upd Nat.eqb arcC arcSAng arcEAng pt pt_x pt_y].
    rewrite Ha0, Ha1.
    replace (atan (4 / 3) >=? 0) with true by (symmetry; dbl_decide).
    replace (atan (4 / 3) <=? PI / 2) with true by (symmetry; dbl_decide).
    cbn [andb orb upd Nat.eqb].
    replace (atan (3 / 4) >=? 0) with true by (symmetry; dbl_decide).
    replace (atan (3 / 4) <=? PI / 2) with true by (symmetry; dbl_decide).
    cbn [andb orb upd Nat.eqb].
    replace (atan (4 / 3) <? 0) with false by (symmetry; dbl_decide).
    cbn [upd Nat.eqb].
    replace (atan (3 / 4) <? 0) with false by (symmetry; dbl_decide).
    cbn [upd Nat.eqb].
    replace (atan (3 / 4) >? atan (4 / 3)) with false by (symmetry; dbl_decide).
    reflexivity.
Qed.

(** X16 at the quarter arc from (5,0) to (0,5) about the origin and the line
    from (2,5) to (5,2). *)
Lemma arc_line_two_points_sound_witness :
  let A := arc_of (pt 0 0) (pt 5 0) (pt 0 5) false in
  let L := line_of (pt 2 5) (pt 5 2) in
  let p1 := mkPoint 4 3 0 in
  let p2 := mkPoint 3 4 0 in
  on_circle (mcenter A) (mradius A) p1 /\ on_segment (mstart L) (mend L) p1
  /\ on_circle (mcenter A) (mradius A) p2 /\ on_segment (mstart L) (mend L) p2
  /\ getStartAngle A <= wind_from (getStartAngle A) (angle_from (mcenter A) p1)
  /\ wind_from (getStartAngle A) (angle_from (mcenter A) p1)
     <= wind_from (getStartAngle A) (angle_from (mcenter A) p2)
  /\ wind_from (getStartAngle A) (angle_from (mcenter A) p2) <= getEndAngle A.
Proof.
  intros A L p1 p2.
  destruct (quarter_arc_chord_eval (pt 0 0) (fun _ => 0))
    as (HkA & Hr & HcL & HkL & Hres).
  exact (arc_line_two_points_sound (pt 0 0) (fun _ => 0) A L
           IGES_IFLAG_NONE IGES_IFLAG_NONE p1 p2 HkA Hr HcL HkL Hres).
Defined.

(** ** Two points from a line on a full circle *)

(** X17: when both roots are kept for a circle and a line, the two points
    that [GetIntersections] returns come in ascending order of their angle
    about the centre, the angle taken in [0, 2 PI). *)
Theorem circle_line_points_ascending
    (pt_default : IGES_POINT) (ang_uninit : array R)
    (C L : IGES_GEOM_SEGMENT) (f fl : IGES_INTERSECT_FLAG) (pts : list IGES_POINT) :
  msegtype C = SEGTYPE_CIRCLE -> msegtype L = SEGTYPE_LINE ->
  snd (kept_roots pt_default (arc_line_read C L)) = 2%nat ->
  GetIntersections pt_default ang_uninit C L [] f = (true, pts, fl) ->
  exists p1 p2 : IGES_POINT,
    pts = [p1; p2]
    /\ norm_angle (angle_from (mcenter C) p1) <= norm_angle (angle_from (mcenter C) p2).
Proof.
  intros HkC HkL Hnp Hres.
  rewrite GetIntersections_circle_line in Hres by assumption.
  unfold checkArcLine in Hres.
  assert (HC : arcC (arc_line_read C L) = mcenter C)
    by (rewrite arc_line_read_circle_line by assumption; reflexivity).
  assert (Hcirc : arcCircle (arc_line_read C L) = true)
    by (rewrite arc_line_read_circle_line by assumption; reflexivity).
  set (q := arc_line_read C L) in *.
  destruct (Rabs (quad_D q) <? 0.001); [discriminate|].
  destruct (quad_D q <? 0); [discriminate|].
  destruct (kept_roots pt_default q) as [p np]. cbn [snd] in Hnp. subst np.
  rewrite Hcirc in Hres. unfold fill_ang in Hres.
  cbn [Nat.eqb seq fold_left upd] in Hres. rewrite HC in Hres.
  fold (angle_from (mcenter C) (p 0%nat)) in Hres.
  fold (angle_from (mcenter C) (p 1%nat)) in Hres.
  pose proof (atan2_bound (pt_y (p 0%nat) - pt_y (mcenter C))
                (pt_x (p 0%nat) - pt_x (mcenter C))) as B0.
  pose proof (atan2_bound (pt_y (p 1%nat) - pt_y (mcenter C))
                (pt_x (p 1%nat) - pt_x (mcenter C))) as B1.
  fold (angle_from (mcenter C) (p 0%nat)) in B0.
  fold (angle_from (mcenter C) (p 1%nat)) in B1.
  set (a0 := angle_from (mcenter C) (p 0%nat)) in *.
  set (a1 := angle_from (mcenter C) (p 1%nat)) in *.
  pose proof PI_RGT_0 as Hpi.
  destruct (Rgeb_spec a0 0.0) as [P0|P0]; destruct (Rgeb_spec a1 0.0) as [P1|P1];
    destruct (Rltb_spec a1 a0) as [G|G]; cbn [andb orb app] in Hres;
    inversion Hres; subst pts;
    eexists _, _; (split; [reflexivity|]); fold a0 a1; unfold norm_angle;
    destruct (Rltb_spec a0 0); destruct (Rltb_spec a1 0); lra.
Qed.

(** The circle of radius 5 about the origin against the line from (2,5) to
    (5,2): both roots are kept and (4,3) comes back first. *)
Lemma circle_chord_eval (pt_default : IGES_POINT) (ang_uninit : array R) :
  let C := circle_at (pt 0 0) 5 in
  let L := line_of (pt 2 5) (pt 5 2) in
  msegtype C = SEGTYPE_CIRCLE /\ msegtype L = SEGTYPE_LINE
  /\ snd (kept_roots pt_default (arc_line_read C L)) = 2%nat
  /\ GetIntersections pt_default ang_uninit C L [] IGES_IFLAG_NONE
     = (true, [mkPoint 4 3 (pt_z pt_default); mkPoint 3 4 (pt_z pt_default)],
        IGES_IFLAG_NONE).
Proof.
  intros C L. pose proof PI_RGT_0 as Hpi.
  assert (H5 : 1e-8 <= 5) by lra.
  assert (Hm : PointMatches (pt 2 5) (pt 5 2) 1e-8 = false) by dbl_decide.
  destruct (constructed_circle_at 0 0 5 H5) as [_ HkC].
  destruct (constructed_line_of (pt 2 5) (pt 5 2) eq_refl eq_refl Hm) as [_ HeL].
  assert (HeC := circle_at_eq 0 0 5 H5).
  fold C in HkC, HeC. fold L in HeL.
  assert (HkL : msegtype L = SEGTYPE_LINE) by (rewrite HeL; reflexivity).
  assert (Hq : arc_line_read C L
               = mkArcLine (pt 0 0) (pt (0 + 5) 0) (pt (0 + 5) 0) 5 0.0 0.0 true
                   (pt 2 5) (pt 5 2)).
  { rewrite HeC, HeL. reflexivity. }
  destruct (chord_roots pt_default (arc_line_read C L)) as [HD Hk];
    try (rewrite Hq; reflexivity).
  destruct chord_angles as (Ha0 & Ha1 & Hp & Hlt & Hb).
  repeat split; try assumption.
  - rewrite Hk. reflexivity.
  - rewrite GetIntersections_circle_line by assumption.
    unfold checkArcLine. rewrite HD, Hk.
    replace (Rabs 36 <? 0.001) with false by (symmetry; dbl_decide).
    replace (36 <? 0) with false by (symmetry; dbl_decide).
    rewrite Hq. cbn [arcCircle Nat.eqb].
    unfold fill_ang.
    cbn [seq fold_left upd Nat.eqb arcC pt pt_x pt_y].
    rewrite Ha0, Ha1.
    replace (atan (4 / 3) >=? 0.0) with true by (symmetry; dbl_decide).
    replace (atan (3 / 4) >=? 0.0) with true by (symmetry; dbl_decide).
    replace (atan (3 / 4) <? atan (4 / 3)) with true by (symmetry; dbl_decide).
    reflexivity.
Qed.

(** X17 at the circle of radius 5 about the origin and the line from (2,5)
    to (5,2). *)
Lemma circle_line_points_ascending_witness :
  let C := circle_at (pt 0 0) 5 in
  exists p1 p2 : IGES_POINT,
    [mkPoint 4 3 0; mkPoint 3 4 0] = [p1; p2]
    /\ norm_angle (angle_from (mcenter C) p1) <= norm_angle (angle_from (mcenter C) p2).
Proof.
  intros C.
  destruct (circle_chord_eval (pt 0 0) (fun _ => 0)) as (HkC & HkL & Hnp & Hres).
  exact (circle_line_points_ascending (pt 0 0) (fun _ => 0) C
           (line_of (pt 2 5) (pt 5 2)) IGES_IFLAG_NONE IGES_IFLAG_NONE
           [mkPoint 4 3 0; mkPoint 3 4 0] HkC HkL Hnp Hres).
Defined.
